(** * serf: the Secure Transport bucket pair (buckets/sectrans_buckets.c)

    A shallow embedding of the encrypt and decrypt buckets that serf builds
    on top of Apple's Secure Transport library, with the properties of the
    session context, the handshake, the two read paths, the I/O callbacks,
    the server certificate validation and the file extension helper.

    Conventions of the embedding.
    - [apr_status_t], [OSStatus], [int] and [size_t] values are integers in
      [Z]; the [size_t] arithmetic of the read callback wraps modulo 2^64.
    - A C function that mutates the context returns the new context.
    - The reference count is a C [int] that counts the buckets of one
      session; signed overflow being undefined in C, no wrap-around is
      written for it.
    - The Secure Transport session object is opaque to the C code.  It is
      an abstract state with the library's operations ([SecureTransport]);
      an operation that performs I/O does so only through the two
      registered callbacks, which is what [st_io] expresses.
    - A result of [None] means that the C function has no defined result:
      a loop did not finish within the given fuel, a variable is read
      before it is assigned, or a null pointer is dereferenced. *)

From Stdlib Require Import ZArith List Lia Bool Sorted.
From stdpp Require Import base option gmap.
Import ListNotations.

Local Open Scope Z_scope.

(** ** Basic types *)

Definition apr_status_t := Z.
Definition OSStatus := Z.
Definition apr_size_t := Z.
Definition bytes := list Byte.byte.

(** [size_t] is 64 bits wide on the platforms that ship Secure Transport. *)
Definition SIZE_MAX_plus_1 : Z := 2 ^ 64.
Definition size_wrap (z : Z) : Z := z mod SIZE_MAX_plus_1.

(** The number of bytes of a buffer, as the [len] out-parameter reports it. *)
Definition blen (b : bytes) : Z := Z.of_nat (length b).

(** ** Status codes of APR (apr_errno.h, Darwin values) *)

Definition APR_SUCCESS : apr_status_t := 0.
Definition APR_EAGAIN : apr_status_t := 35.
Definition APR_EGENERAL : apr_status_t := 20014.
Definition APR_EOF : apr_status_t := 70014.
Definition APR_ENOTIMPL : apr_status_t := 70023.

Definition APR_STATUS_IS_EAGAIN (s : apr_status_t) : bool := s =? APR_EAGAIN.
Definition APR_STATUS_IS_EOF (s : apr_status_t) : bool := s =? APR_EOF.

(** ** Status codes of Secure Transport (SecureTransport.h, SecTrust.h) *)

Definition noErr : OSStatus := 0.
Definition errSSLWouldBlock : OSStatus := -9803.
Definition errSSLServerAuthCompleted : OSStatus := -9841.
Definition errSSLClientCertRequested : OSStatus := -9842.

Definition SecTrustResultType := Z.
Definition kSecTrustResultInvalid : SecTrustResultType := 0.
Definition kSecTrustResultProceed : SecTrustResultType := 1.
Definition kSecTrustResultConfirm : SecTrustResultType := 2.
Definition kSecTrustResultDeny : SecTrustResultType := 3.
Definition kSecTrustResultUnspecified : SecTrustResultType := 4.
Definition kSecTrustResultRecoverableTrustFailure : SecTrustResultType := 5.
Definition kSecTrustResultFatalTrustFailure : SecTrustResultType := 6.
Definition kSecTrustResultOtherError : SecTrustResultType := 7.

Definition SECURE_TRANSPORT_READ_BUFSIZE : Z := 8000.

(** ** The constants of serf.h

    sectrans_buckets.c takes the validation modes, the certificate failure
    flags and the SSL error codes from serf.h and does not depend on their
    values.  They are parameters of the development. *)

Class serf_h := {
  serf_ssl_val_mode_serf_managed_with_gui : Z;
  serf_ssl_val_mode_serf_managed_no_gui : Z;
  serf_ssl_val_mode_application_managed : Z;
  SERF_SSL_CERT_ALL_OK : Z;
  SERF_SSL_CERT_CONFIRM_NEEDED : Z;
  SERF_SSL_CERT_RECOVERABLE : Z;
  SERF_SSL_CERT_UNKNOWN_FAILURE : Z;
  SERF_SSL_CERT_FATAL : Z;
  SERF_ERROR_WAIT_CONN : apr_status_t;
  SERF_ERROR_SSL_CERT_FAILED : apr_status_t;
  SERF_ERROR_SSL_CANT_CONFIRM_CERT : apr_status_t;
  SERF_ERROR_SSL_USER_DENIED_CERT : apr_status_t;
  SERF_ERROR_SSL_KEYCHAIN_DENIED_CERT : apr_status_t;
}.

(** The C truth value of an integer. *)
Definition truthy (z : Z) : bool := negb (z =? 0).

(** Modelled from the spec: the macro SERF_BUCKET_READ_ERROR, which is
    defined in serf.h and not in sectrans_buckets.c.  A status is a read
    error when it is none of success, would-block, end-of-stream and
    wait-for-connection. *)
Definition SERF_BUCKET_READ_ERROR `{serf_h} (status : apr_status_t) : bool :=
  truthy status && negb (APR_STATUS_IS_EOF status)
  && negb (APR_STATUS_IS_EAGAIN status)
  && negb (SERF_ERROR_WAIT_CONN =? status).

(** What the assumptions on serf.h are, where a property needs them: the
    three validation modes are separate bits, the certificate flags are
    separate non-zero bits, and the two certificate errors are distinct
    fatal codes. *)
Record serf_h_sound `{serf_h} : Prop := {
  modes_no_gui_with_gui :
    Z.land serf_ssl_val_mode_serf_managed_no_gui
           serf_ssl_val_mode_serf_managed_with_gui = 0;
  modes_no_gui_application :
    Z.land serf_ssl_val_mode_serf_managed_no_gui
           serf_ssl_val_mode_application_managed = 0;
  flags_recoverable_nonzero : SERF_SSL_CERT_RECOVERABLE <> 0;
  flags_confirm_all_ok :
    Z.land (Z.lor SERF_SSL_CERT_CONFIRM_NEEDED SERF_SSL_CERT_RECOVERABLE)
           SERF_SSL_CERT_ALL_OK = 0;
  flags_confirm_fatal :
    Z.land (Z.lor SERF_SSL_CERT_CONFIRM_NEEDED SERF_SSL_CERT_RECOVERABLE)
           SERF_SSL_CERT_FATAL = 0;
  errors_cert_failed_fatal :
    SERF_BUCKET_READ_ERROR SERF_ERROR_SSL_CERT_FAILED = true;
  errors_cant_confirm_distinct :
    SERF_ERROR_SSL_CANT_CONFIRM_CERT <> SERF_ERROR_SSL_CERT_FAILED;
}.

(** The failure flags of serf.h that tell a trusted or a fatally failed
    certificate from one that the user can still confirm: the first two are
    set, and share no bit with the two flags of a recoverable failure. *)
Record cert_flags_separate `{serf_h} : Prop := {
  flags_all_ok_nonzero : SERF_SSL_CERT_ALL_OK <> 0;
  flags_fatal_nonzero : SERF_SSL_CERT_FATAL <> 0;
  flags_all_ok_confirm :
    Z.land SERF_SSL_CERT_ALL_OK SERF_SSL_CERT_CONFIRM_NEEDED = 0;
  flags_all_ok_recoverable :
    Z.land SERF_SSL_CERT_ALL_OK SERF_SSL_CERT_RECOVERABLE = 0;
  flags_fatal_confirm :
    Z.land SERF_SSL_CERT_FATAL SERF_SSL_CERT_CONFIRM_NEEDED = 0;
  flags_fatal_recoverable :
    Z.land SERF_SSL_CERT_FATAL SERF_SSL_CERT_RECOVERABLE = 0;
}.

(** The error codes of the certificate validation are not APR_SUCCESS. *)
Record cert_errors_are_failures `{serf_h} : Prop := {
  cert_failed_nonzero : SERF_ERROR_SSL_CERT_FAILED <> APR_SUCCESS;
  cant_confirm_nonzero : SERF_ERROR_SSL_CANT_CONFIRM_CERT <> APR_SUCCESS;
  user_denied_nonzero : SERF_ERROR_SSL_USER_DENIED_CERT <> APR_SUCCESS;
  keychain_denied_nonzero :
    SERF_ERROR_SSL_KEYCHAIN_DENIED_CERT <> APR_SUCCESS;
}.

(** A flag that is one bit. *)
Definition single_bit (c : Z) : Prop := exists k, 0 <= k /\ c = 2 ^ k.

(** ** The pending stream buckets *)

Definition baton_t := Z.
Definition serf_bucket_alloc_t := Z.

(** Modelled from the spec: the stream-type aggregate bucket that
    serf__bucket_stream_create builds, which is defined with the generic
    buckets and not in sectrans_buckets.c: an append-only queue of bytes
    read from the front, with a callback that is asked for the status to
    report once the queue is drained. *)
Record stream_bucket := {
  queue : bytes;
  eof_callback : baton_t -> bytes -> apr_status_t;
  eof_baton : baton_t;
  bkt_allocator : serf_bucket_alloc_t;
}.

Definition serf__bucket_stream_create (allocator : serf_bucket_alloc_t)
    (eof : baton_t -> bytes -> apr_status_t) (baton : baton_t)
    : stream_bucket :=
  {| queue := []; eof_callback := eof; eof_baton := baton;
     bkt_allocator := allocator |}.

(** The end-of-stream query of a stream bucket. *)
Definition stream_eof (p : stream_bucket) : apr_status_t :=
  eof_callback p (eof_baton p) (queue p).

Definition set_queue (p : stream_bucket) (q : bytes) : stream_bucket :=
  {| queue := q; eof_callback := eof_callback p; eof_baton := eof_baton p;
     bkt_allocator := bkt_allocator p |}.

(** Modelled from the spec: serf_bucket_aggregate_append on a stream bucket
    queues the bytes of the appended simple bucket behind those present. *)
Definition serf_bucket_aggregate_append (p : stream_bucket) (data : bytes)
    : stream_bucket :=
  set_queue p (queue p ++ data).

(** Modelled from the spec: serf_bucket_read on a stream bucket hands out
    at most [requested] bytes from the front.  While bytes remain queued the
    status is success; once the queue is drained the status is the one the
    end-of-stream callback gives.  The queue does not keep the boundaries
    between the appended buckets, so a read can hand out bytes of several
    of them, where an aggregate bucket hands out bytes of the first one
    only: the order of the bytes and the status are those of the bucket,
    the number of bytes of one read is only when the queue holds a single
    appended bucket. *)
Definition stream_read (p : stream_bucket) (requested : apr_size_t)
    : apr_status_t * bytes * stream_bucket :=
  let n := Z.to_nat (Z.min requested (blen (queue p))) in
  let p' := set_queue p (skipn n (queue p)) in
  match queue p' with
  | [] => (stream_eof p', firstn n (queue p), p')
  | _ :: _ => (APR_SUCCESS, firstn n (queue p), p')
  end.

(** ** The source streams

    The outgoing plaintext stream and the incoming ciphertext stream are
    buckets that the caller supplies; only their read operation is used. *)

Class SourceBucket := {
  source : Type;
  serf_bucket_read : source -> apr_size_t -> apr_status_t * bytes * source;
}.

(** ** Secure Transport *)

(** What a Secure Transport operation does before it returns: it may call
    the registered read callback for [dataLength] bytes, or the registered
    write callback with some data, any number of times, and continues from
    the status, the bytes put in its buffer and the byte count that the
    callback reports. *)
Inductive st_io (R : Type) : Type :=
| io_return (r : R)
| io_read (dataLength : apr_size_t)
    (k : OSStatus -> bytes -> apr_size_t -> st_io R)
| io_write (data : bytes) (k : OSStatus -> apr_size_t -> st_io R).

Arguments io_return {R} r.
Arguments io_read {R} dataLength k.
Arguments io_write {R} data k.

Class SecureTransport := {
  SSLContext : Type;
  CFArrayRef : Type;
  SecTrustRef : Type;
  SecCertificateRef : Type;
  SSLNewContext : bool -> OSStatus * SSLContext;
  SSLSetIOFuncs : SSLContext -> OSStatus * SSLContext;
  SSLSetConnection : SSLContext -> OSStatus * SSLContext;
  SSLSetSessionOption_BreakOnServerAuth :
    SSLContext -> bool -> OSStatus * SSLContext;
  SSLSetEnableCertVerify : SSLContext -> bool -> OSStatus * SSLContext;
  SSLDisposeContext : SSLContext -> OSStatus;
  SSLHandshake : SSLContext -> st_io (OSStatus * SSLContext);
  SSLWrite : SSLContext -> bytes -> st_io (OSStatus * apr_size_t * SSLContext);
  SSLRead : SSLContext -> apr_size_t -> st_io (OSStatus * bytes * SSLContext);
  SSLCopyPeerCertificates : SSLContext -> OSStatus * CFArrayRef;
  SSLCopyPeerTrust : SSLContext -> OSStatus * SecTrustRef;
  SecTrustEvaluate : SecTrustRef -> OSStatus * SecTrustResultType;
  CFArrayGetValueAtIndex : CFArrayRef -> Z -> SecCertificateRef;
  (** the answer of the user to the SFCertificateTrustPanel dialog *)
  runModalForTrust : SecTrustRef -> Z;
}.

(** The calls that drive a session, as recorded on the session object. *)
Inductive st_call :=
| Call_SSLHandshake
| Call_SSLWrite (data : bytes)
| Call_SSLRead (dataLength : apr_size_t).

(** The session object behind ssl_ctx->st_ctxr: the library's state and the
    history of the session-driving calls made on it. *)
Record SSLContextRef `{SecureTransport} := {
  st_state : SSLContext;
  st_calls : list st_call;
}.

Arguments st_state {_} _.
Arguments st_calls {_} _.

(** ** Certificates and the application callbacks *)

Section Embedding.

Context `{K : serf_h} `{B : SourceBucket} `{ST : SecureTransport}.

Record sectrans_certificate_t := {
  content : option Z;
  certref : SecCertificateRef;
}.

(** Modelled from the spec: the certificate value that
    serf__create_certificate builds, which is defined with the generic SSL
    buckets and not in sectrans_buckets.c: the implementation's certificate
    and the depth in the chain. *)
Record serf_ssl_certificate_t := {
  impl_cert : sectrans_certificate_t;
  depth_of_error : Z;
}.

Definition serf__create_certificate (allocator : serf_bucket_alloc_t)
    (impl : sectrans_certificate_t) (depth : Z) : serf_ssl_certificate_t :=
  {| impl_cert := impl; depth_of_error := depth |}.

(** [callback data failures cert] *)
Definition serf_ssl_need_server_cert_t :=
  Z -> Z -> serf_ssl_certificate_t -> apr_status_t.

(** [callback data failures error_depth certs] *)
Definition serf_ssl_server_cert_chain_cb_t :=
  Z -> Z -> Z -> list serf_ssl_certificate_t -> apr_status_t.

Definition serf_ssl_need_cert_password_t := Z -> bytes -> option bytes.
Definition serf_ssl_need_client_cert_t := Z -> option bytes.

(** ** The session context *)

Record sectrans_ssl_stream_t := {
  pending : stream_bucket;
  stream : source;
}.

Inductive sectrans_session_state_t :=
| SERF_SECTRANS_INIT
| SERF_SECTRANS_HANDSHAKE
| SERF_SECTRANS_CONNECTED
| SERF_SECTRANS_CLOSING.

Record sectrans_context_t := {
  refcount : Z;
  allocator : serf_bucket_alloc_t;
  st_ctxr : SSLContextRef;
  encrypt : sectrans_ssl_stream_t;
  decrypt : sectrans_ssl_stream_t;
  state : sectrans_session_state_t;
  hostname : option bytes;
  modes : Z;
  server_cert_callback : option serf_ssl_need_server_cert_t;
  server_cert_chain_callback : option serf_ssl_server_cert_chain_cb_t;
  server_cert_userdata : Z;
}.

Definition set_refcount (c : sectrans_context_t) (v : Z) :=
  {| refcount := v; allocator := allocator c; st_ctxr := st_ctxr c;
     encrypt := encrypt c; decrypt := decrypt c; state := state c;
     hostname := hostname c; modes := modes c;
     server_cert_callback := server_cert_callback c;
     server_cert_chain_callback := server_cert_chain_callback c;
     server_cert_userdata := server_cert_userdata c |}.

Definition set_allocator (c : sectrans_context_t) (v : serf_bucket_alloc_t) :=
  {| refcount := refcount c; allocator := v; st_ctxr := st_ctxr c;
     encrypt := encrypt c; decrypt := decrypt c; state := state c;
     hostname := hostname c; modes := modes c;
     server_cert_callback := server_cert_callback c;
     server_cert_chain_callback := server_cert_chain_callback c;
     server_cert_userdata := server_cert_userdata c |}.

Definition set_st_ctxr (c : sectrans_context_t) (v : SSLContextRef) :=
  {| refcount := refcount c; allocator := allocator c; st_ctxr := v;
     encrypt := encrypt c; decrypt := decrypt c; state := state c;
     hostname := hostname c; modes := modes c;
     server_cert_callback := server_cert_callback c;
     server_cert_chain_callback := server_cert_chain_callback c;
     server_cert_userdata := server_cert_userdata c |}.

Definition set_encrypt (c : sectrans_context_t) (v : sectrans_ssl_stream_t) :=
  {| refcount := refcount c; allocator := allocator c; st_ctxr := st_ctxr c;
     encrypt := v; decrypt := decrypt c; state := state c;
     hostname := hostname c; modes := modes c;
     server_cert_callback := server_cert_callback c;
     server_cert_chain_callback := server_cert_chain_callback c;
     server_cert_userdata := server_cert_userdata c |}.

Definition set_decrypt (c : sectrans_context_t) (v : sectrans_ssl_stream_t) :=
  {| refcount := refcount c; allocator := allocator c; st_ctxr := st_ctxr c;
     encrypt := encrypt c; decrypt := v; state := state c;
     hostname := hostname c; modes := modes c;
     server_cert_callback := server_cert_callback c;
     server_cert_chain_callback := server_cert_chain_callback c;
     server_cert_userdata := server_cert_userdata c |}.

Definition set_state (c : sectrans_context_t) (v : sectrans_session_state_t) :=
  {| refcount := refcount c; allocator := allocator c; st_ctxr := st_ctxr c;
     encrypt := encrypt c; decrypt := decrypt c; state := v;
     hostname := hostname c; modes := modes c;
     server_cert_callback := server_cert_callback c;
     server_cert_chain_callback := server_cert_chain_callback c;
     server_cert_userdata := server_cert_userdata c |}.

Definition set_modes (c : sectrans_context_t) (v : Z) :=
  {| refcount := refcount c; allocator := allocator c; st_ctxr := st_ctxr c;
     encrypt := encrypt c; decrypt := decrypt c; state := state c;
     hostname := hostname c; modes := v;
     server_cert_callback := server_cert_callback c;
     server_cert_chain_callback := server_cert_chain_callback c;
     server_cert_userdata := server_cert_userdata c |}.

Definition set_server_cert_callback (c : sectrans_context_t)
    (v : option serf_ssl_need_server_cert_t) :=
  {| refcount := refcount c; allocator := allocator c; st_ctxr := st_ctxr c;
     encrypt := encrypt c; decrypt := decrypt c; state := state c;
     hostname := hostname c; modes := modes c;
     server_cert_callback := v;
     server_cert_chain_callback := server_cert_chain_callback c;
     server_cert_userdata := server_cert_userdata c |}.

Definition set_server_cert_chain_callback (c : sectrans_context_t)
    (v : option serf_ssl_server_cert_chain_cb_t) :=
  {| refcount := refcount c; allocator := allocator c; st_ctxr := st_ctxr c;
     encrypt := encrypt c; decrypt := decrypt c; state := state c;
     hostname := hostname c; modes := modes c;
     server_cert_callback := server_cert_callback c;
     server_cert_chain_callback := v;
     server_cert_userdata := server_cert_userdata c |}.

Definition set_server_cert_userdata (c : sectrans_context_t) (v : Z) :=
  {| refcount := refcount c; allocator := allocator c; st_ctxr := st_ctxr c;
     encrypt := encrypt c; decrypt := decrypt c; state := state c;
     hostname := hostname c; modes := modes c;
     server_cert_callback := server_cert_callback c;
     server_cert_chain_callback := server_cert_chain_callback c;
     server_cert_userdata := v |}.

Definition set_pending (s : sectrans_ssl_stream_t) (p : stream_bucket) :=
  {| pending := p; stream := stream s |}.

Definition set_stream (s : sectrans_ssl_stream_t) (b : source) :=
  {| pending := pending s; stream := b |}.

(** ssl_ctx->encrypt.pending = p, and the three like it. *)
Definition set_encrypt_pending (c : sectrans_context_t) (p : stream_bucket) :=
  set_encrypt c (set_pending (encrypt c) p).
Definition set_encrypt_stream (c : sectrans_context_t) (b : source) :=
  set_encrypt c (set_stream (encrypt c) b).
Definition set_decrypt_pending (c : sectrans_context_t) (p : stream_bucket) :=
  set_decrypt c (set_pending (decrypt c) p).
Definition set_decrypt_stream (c : sectrans_context_t) (b : source) :=
  set_decrypt c (set_stream (decrypt c) b).

(** ** Status translation *)

Definition translate_sectrans_status (status : OSStatus) : apr_status_t :=
  if status =? noErr then APR_SUCCESS
  else if status =? errSSLWouldBlock then APR_EAGAIN
  else APR_EGENERAL.

(** ** Context set-up *)

(** Callback function for the encrypt.pending and decrypt.pending
    stream-type aggregate buckets. *)
Definition pending_stream_eof (baton : baton_t) (pending : bytes)
    : apr_status_t :=
  APR_EAGAIN.

(** [sectrans_init_context allocator mem] is the content of the context
    structure when the function returns, [mem] being the content of the
    memory that serf_bucket_mem_alloc handed out, together with [true] when
    the function returns the structure and [false] when it returns NULL. *)
Definition sectrans_init_context (allocator : serf_bucket_alloc_t)
    (mem : sectrans_context_t) : sectrans_context_t * bool :=
  let ssl_ctx := set_refcount mem 0 in
  let ssl_ctx := set_modes ssl_ctx serf_ssl_val_mode_serf_managed_no_gui in
  let ssl_ctx :=
    set_encrypt_pending ssl_ctx
      (serf__bucket_stream_create allocator pending_stream_eof 0) in
  let ssl_ctx :=
    set_decrypt_pending ssl_ctx
      (serf__bucket_stream_create allocator pending_stream_eof 0) in
  let ssl_ctx := set_state ssl_ctx SERF_SECTRANS_INIT in
  let '(status, st) := SSLNewContext false in
  if truthy status then (ssl_ctx, false) else
  let with_st st := set_st_ctxr ssl_ctx {| st_state := st; st_calls := [] |} in
  let '(status, st) := SSLSetIOFuncs st in
  if truthy status then (with_st st, false) else
  let '(status, st) := SSLSetConnection st in
  if truthy status then (with_st st, false) else
  let '(status, st) := SSLSetSessionOption_BreakOnServerAuth st true in
  if truthy status then (with_st st, false) else
  let '(status, st) := SSLSetEnableCertVerify st false in
  if truthy status then (with_st st, false) else
  (with_st st, true).

(** ** The Secure Transport callbacks *)

(** The local variables of sectrans_read_cb that the loop changes; [outbuf]
    is what has been copied into the caller's buffer so far. *)
Record read_cb_vars := {
  rc_stream : source;
  rc_status : apr_status_t;
  rc_requested : apr_size_t;
  rc_outbuf : bytes;
  rc_dataLength : apr_size_t;
}.

(** The loop of sectrans_read_cb.  The boolean of the result tells whether
    the function returned from inside the loop (a read error). *)
Fixpoint sectrans_read_cb_loop (fuel : nat) (v : read_cb_vars)
    : option (bool * read_cb_vars) :=
  if negb (truthy (rc_status v)) && truthy (rc_requested v) then
    match fuel with
    | O => None
    | S fuel' =>
      let '(status, buf, s) :=
        serf_bucket_read (rc_stream v) (rc_requested v) in
      if SERF_BUCKET_READ_ERROR status then
        Some (true, {| rc_stream := s; rc_status := status;
                       rc_requested := rc_requested v;
                       rc_outbuf := rc_outbuf v;
                       rc_dataLength := rc_dataLength v |})
      else if truthy (blen buf) then
        sectrans_read_cb_loop fuel'
          {| rc_stream := s; rc_status := status;
             rc_requested := size_wrap (rc_requested v - blen buf);
             rc_outbuf := rc_outbuf v ++ buf;
             rc_dataLength := size_wrap (rc_dataLength v + blen buf) |}
      else
        sectrans_read_cb_loop fuel'
          {| rc_stream := s; rc_status := status;
             rc_requested := rc_requested v;
             rc_outbuf := rc_outbuf v;
             rc_dataLength := rc_dataLength v |}
    end
  else Some (false, v).

(** What sectrans_read_cb returns once the loop is left. *)
Definition read_cb_return (early : bool) (status : apr_status_t) : OSStatus :=
  if early then -1
  else if APR_STATUS_IS_EAGAIN status then errSSLWouldBlock
  else if negb (truthy status) then noErr
  else -1.

(** Secure Transport callback function.  Reads encrypted data from the
    network.  The result is the status, the bytes copied into [data], the
    final value of [*dataLength] and the context. *)
Definition sectrans_read_cb (fuel : nat) (ssl_ctx : sectrans_context_t)
    (dataLength : apr_size_t)
    : option (OSStatus * bytes * apr_size_t * sectrans_context_t) :=
  '(early, v) ← sectrans_read_cb_loop fuel
     {| rc_stream := stream (decrypt ssl_ctx); rc_status := 0;
        rc_requested := dataLength; rc_outbuf := []; rc_dataLength := 0 |};
  Some (read_cb_return early (rc_status v), rc_outbuf v, rc_dataLength v,
        set_decrypt_stream ssl_ctx (rc_stream v)).

(** Secure Transport callback function.  Writes encrypted data to the
    network, that is, queues a copy of it on encrypt.pending. *)
Definition sectrans_write_cb (ctx : sectrans_context_t) (data : bytes)
    : OSStatus * apr_size_t * sectrans_context_t :=
  let tmp := data in
  (noErr, blen data,
   set_encrypt_pending ctx
     (serf_bucket_aggregate_append (pending (encrypt ctx)) tmp)).

(** Running a Secure Transport operation against the context: every
    callback the operation makes is served by the two functions above. *)
Fixpoint run_io {R : Type} (fuel : nat) (t : st_io R)
    (ctx : sectrans_context_t) : option (R * sectrans_context_t) :=
  match t with
  | io_return r => Some (r, ctx)
  | io_read n k =>
    '(ret, buf, len, ctx') ← sectrans_read_cb fuel ctx n;
    run_io fuel (k ret buf len) ctx'
  | io_write data k =>
    let '(ret, len, ctx') := sectrans_write_cb ctx data in
    run_io fuel (k ret len) ctx'
  end.

Definition record_call (ctx : sectrans_context_t) (st : SSLContext)
    (c : st_call) : sectrans_context_t :=
  set_st_ctxr ctx
    {| st_state := st; st_calls := st_calls (st_ctxr ctx) ++ [c] |}.

(** SSLHandshake(ssl_ctx->st_ctxr) *)
Definition st_SSLHandshake (fuel : nat) (ssl_ctx : sectrans_context_t)
    : option (OSStatus * sectrans_context_t) :=
  '(r, ctx) ← run_io fuel (SSLHandshake (st_state (st_ctxr ssl_ctx))) ssl_ctx;
  Some (r.1, record_call ctx r.2 Call_SSLHandshake).

(** SSLWrite(ssl_ctx->st_ctxr, data, length, &written) *)
Definition st_SSLWrite (fuel : nat) (ssl_ctx : sectrans_context_t)
    (data : bytes) : option (OSStatus * apr_size_t * sectrans_context_t) :=
  '(r, ctx) ← run_io fuel (SSLWrite (st_state (st_ctxr ssl_ctx)) data) ssl_ctx;
  Some (r.1.1, r.1.2, record_call ctx r.2 (Call_SSLWrite data)).

(** SSLRead(ssl_ctx->st_ctxr, data, dataLength, &processed) *)
Definition st_SSLRead (fuel : nat) (ssl_ctx : sectrans_context_t)
    (dataLength : apr_size_t)
    : option (OSStatus * bytes * sectrans_context_t) :=
  '(r, ctx) ← run_io fuel (SSLRead (st_state (st_ctxr ssl_ctx)) dataLength)
                ssl_ctx;
  Some (r.1.1, r.1.2, record_call ctx r.2 (Call_SSLRead dataLength)).

(** ** Server certificate validation *)

(** Show a SFCertificateTrustPanel and turn the button the user clicked
    into a status. *)
Definition ask_approval_gui (ssl_ctx : sectrans_context_t)
    (trust : SecTrustRef) : apr_status_t :=
  let result := runModalForTrust trust in
  if truthy result then APR_SUCCESS else SERF_ERROR_SSL_USER_DENIED_CERT.

(** The switch of validate_server_certificate on the trust result: the
    failure flags and, where the case assigns it, the provisional status. *)
Definition trust_result_switch (result : SecTrustResultType)
    : Z * option apr_status_t :=
  if (result =? kSecTrustResultUnspecified)
     || (result =? kSecTrustResultProceed) then
    (SERF_SSL_CERT_ALL_OK, Some APR_SUCCESS)
  else if result =? kSecTrustResultConfirm then
    (Z.lor SERF_SSL_CERT_CONFIRM_NEEDED SERF_SSL_CERT_RECOVERABLE, None)
  else if result =? kSecTrustResultRecoverableTrustFailure then
    (Z.lor SERF_SSL_CERT_UNKNOWN_FAILURE SERF_SSL_CERT_RECOVERABLE, None)
  else if result =? kSecTrustResultInvalid then
    (SERF_SSL_CERT_FATAL, Some SERF_ERROR_SSL_CERT_FAILED)
  else if result =? kSecTrustResultDeny then
    (SERF_SSL_CERT_FATAL, Some SERF_ERROR_SSL_KEYCHAIN_DENIED_CERT)
  else if result =? kSecTrustResultFatalTrustFailure then
    (SERF_SSL_CERT_FATAL, Some SERF_ERROR_SSL_CERT_FAILED)
  else if result =? kSecTrustResultOtherError then
    (SERF_SSL_CERT_FATAL, Some SERF_ERROR_SSL_CERT_FAILED)
  else
    (SERF_SSL_CERT_FATAL, Some SERF_ERROR_SSL_CERT_FAILED).

(** Validate a server certificate.  Call back to the application if needed.
    The local variable [status] has no value until a branch assigns it, so
    it is carried as an option; returning it unassigned gives [None].  The
    local variable [trust] has no value until SSLCopyPeerTrust succeeds:
    when that call fails, the function jumps to the cleanup, which hands
    [trust] to CFRelease, and has no defined result. *)
Definition validate_server_certificate (ssl_ctx : sectrans_context_t)
    : option apr_status_t :=
  let st := st_state (st_ctxr ssl_ctx) in
  let '(sectrans_status, certs) := SSLCopyPeerCertificates st in
  if negb (sectrans_status =? noErr) then
    Some (translate_sectrans_status sectrans_status)
  else
  let depth_of_error := 0 in
  let '(sectrans_status, trust) := SSLCopyPeerTrust st in
  if negb (sectrans_status =? noErr) then
    (* goto cleanup: CFRelease(trust), with [trust] not assigned *)
    None
  else
  let '(sectrans_status, result) := SecTrustEvaluate trust in
  if negb (sectrans_status =? noErr) then
    Some (translate_sectrans_status sectrans_status)
  else
  let '(failures, status) := trust_result_switch result in
  (* the code from "If serf can take the decision" down to cleanup *)
  let decide_or_call_back (status : option apr_status_t) :=
    if (truthy (Z.land failures SERF_SSL_CERT_ALL_OK)
        || truthy (Z.land failures SERF_SSL_CERT_FATAL))
       && (truthy (Z.land (modes ssl_ctx)
                          serf_ssl_val_mode_serf_managed_with_gui)
           || truthy (Z.land (modes ssl_ctx)
                             serf_ssl_val_mode_serf_managed_no_gui))
    then status
    else
      match server_cert_callback ssl_ctx with
      | Some callback =>
        if truthy (Z.land (modes ssl_ctx)
                          serf_ssl_val_mode_application_managed)
           && truthy failures
        then
          let sectrans_cert :=
            {| content := None;
               certref := CFArrayGetValueAtIndex certs 0 |} in
          let cert :=
            serf__create_certificate (allocator ssl_ctx) sectrans_cert
              depth_of_error in
          Some (callback (server_cert_userdata ssl_ctx) failures cert)
        else Some SERF_ERROR_SSL_CERT_FAILED
      | None => Some SERF_ERROR_SSL_CERT_FAILED
      end in
  (* Recoverable errors? Ask the user for confirmation. *)
  if truthy (Z.land failures SERF_SSL_CERT_CONFIRM_NEEDED)
     || truthy (Z.land failures SERF_SSL_CERT_RECOVERABLE)
  then
    if truthy (Z.land (modes ssl_ctx) serf_ssl_val_mode_serf_managed_with_gui)
    then Some (ask_approval_gui ssl_ctx trust)
    else decide_or_call_back (Some SERF_ERROR_SSL_CANT_CONFIRM_CERT)
  else decide_or_call_back status.

(** ** The handshake *)

(** Run the SSL handshake. *)
Definition do_handshake (fuel : nat) (ssl_ctx : sectrans_context_t)
    : option (apr_status_t * sectrans_context_t) :=
  '(sectrans_status, ssl_ctx) ← st_SSLHandshake fuel ssl_ctx;
  if sectrans_status =? noErr then Some (APR_SUCCESS, ssl_ctx)
  else if sectrans_status =? errSSLServerAuthCompleted then
    status ← validate_server_certificate ssl_ctx;
    if negb (truthy status) then Some (APR_EAGAIN, ssl_ctx)
    else Some (status, ssl_ctx)
  else if sectrans_status =? errSSLClientCertRequested then
    Some (APR_ENOTIMPL, ssl_ctx)
  else Some (translate_sectrans_status sectrans_status, ssl_ctx).

(** ** Configuration of a context *)

Definition client_cert_provider_set (impl_ctx : sectrans_context_t)
    (callback : option serf_ssl_need_client_cert_t) (data : Z)
    (cache_pool : Z) : sectrans_context_t :=
  impl_ctx.

Definition client_cert_password_set (impl_ctx : sectrans_context_t)
    (callback : option serf_ssl_need_cert_password_t) (data : Z)
    (cache_pool : Z) : sectrans_context_t :=
  let ssl_ctx := impl_ctx in
  set_modes ssl_ctx
    (Z.lor (modes ssl_ctx) serf_ssl_val_mode_application_managed).

Definition server_cert_callback_set (impl_ctx : sectrans_context_t)
    (callback : option serf_ssl_need_server_cert_t) (data : Z)
    : sectrans_context_t :=
  let ssl_ctx := impl_ctx in
  let ssl_ctx :=
    set_modes ssl_ctx
      (Z.lor (modes ssl_ctx) serf_ssl_val_mode_application_managed) in
  let ssl_ctx := set_server_cert_callback ssl_ctx callback in
  set_server_cert_userdata ssl_ctx data.

Definition server_cert_chain_callback_set (impl_ctx : sectrans_context_t)
    (cert_callback : option serf_ssl_need_server_cert_t)
    (cert_chain_callback : option serf_ssl_server_cert_chain_cb_t)
    (data : Z) : sectrans_context_t :=
  let ssl_ctx := impl_ctx in
  let ssl_ctx :=
    set_modes ssl_ctx
      (Z.lor (modes ssl_ctx) serf_ssl_val_mode_application_managed) in
  let ssl_ctx := set_server_cert_callback ssl_ctx cert_callback in
  let ssl_ctx := set_server_cert_chain_callback ssl_ctx cert_chain_callback in
  set_server_cert_userdata ssl_ctx data.

(** The result is the context and the value returned, ssl_ctx->modes. *)
Definition set_allowed_cert_validation_modes (impl_ctx : sectrans_context_t)
    (modes_arg : Z) : sectrans_context_t * Z :=
  let ssl_ctx := set_modes impl_ctx 0 in
  let ssl_ctx :=
    if truthy (Z.land modes_arg serf_ssl_val_mode_serf_managed_with_gui)
    then set_modes ssl_ctx
           (Z.lor (modes ssl_ctx) serf_ssl_val_mode_serf_managed_with_gui)
    else ssl_ctx in
  let ssl_ctx :=
    if truthy (Z.land modes_arg serf_ssl_val_mode_serf_managed_no_gui)
    then set_modes ssl_ctx
           (Z.lor (modes ssl_ctx) serf_ssl_val_mode_serf_managed_no_gui)
    else ssl_ctx in
  let ssl_ctx :=
    if truthy (Z.land modes_arg serf_ssl_val_mode_application_managed)
    then set_modes ssl_ctx
           (Z.lor (modes ssl_ctx) serf_ssl_val_mode_application_managed)
    else ssl_ctx in
  (ssl_ctx, modes ssl_ctx).

(** ** The encryption bucket *)

(** The result of a bucket read: the status, the bytes that [*data] and
    [*len] describe, and the context.  Where the C function returns before
    [*data] and [*len] are written, the bytes are given as empty. *)
Definition read_result : Type := apr_status_t * bytes * sectrans_context_t.

(** serf_sectrans_encrypt_read from the comment "Handshake successful."
    to its end. *)
Definition encrypt_read_connected (fuel : nat) (ssl_ctx : sectrans_context_t)
    (requested : apr_size_t) : option read_result :=
  (* First use any pending encrypted data. *)
  let '(status, data, p) := stream_read (pending (encrypt ssl_ctx)) requested in
  let ssl_ctx := set_encrypt_pending ssl_ctx p in
  if SERF_BUCKET_READ_ERROR status then Some (status, data, ssl_ctx)
  else if truthy (blen data) then Some (APR_SUCCESS, data, ssl_ctx)
  else
  (* Encrypt more data. *)
  let '(status_unenc_stream, unenc_data, s) :=
    serf_bucket_read (stream (encrypt ssl_ctx)) requested in
  let ssl_ctx := set_encrypt_stream ssl_ctx s in
  if SERF_BUCKET_READ_ERROR status_unenc_stream then
    Some (status_unenc_stream, data, ssl_ctx)
  else if truthy (blen unenc_data) then
    '(sectrans_status, written, ssl_ctx) ← st_SSLWrite fuel ssl_ctx unenc_data;
    let status := translate_sectrans_status sectrans_status in
    if SERF_BUCKET_READ_ERROR status then Some (status, data, ssl_ctx)
    else
    let '(status, data, p) :=
      stream_read (pending (encrypt ssl_ctx)) requested in
    let ssl_ctx := set_encrypt_pending ssl_ctx p in
    if SERF_BUCKET_READ_ERROR status then Some (status, data, ssl_ctx)
    else if status =? APR_SUCCESS then Some (status, data, ssl_ctx)
    else Some (status_unenc_stream, data, ssl_ctx)
  else Some (status_unenc_stream, data, ssl_ctx).

Definition serf_sectrans_encrypt_read (fuel : nat)
    (ssl_ctx : sectrans_context_t) (requested : apr_size_t)
    : option read_result :=
  match state ssl_ctx with
  | SERF_SECTRANS_INIT | SERF_SECTRANS_HANDSHAKE =>
    (* Pending handshake? *)
    let ssl_ctx := set_state ssl_ctx SERF_SECTRANS_HANDSHAKE in
    '(status, ssl_ctx) ← do_handshake fuel ssl_ctx;
    if SERF_BUCKET_READ_ERROR status then Some (status, [], ssl_ctx)
    else if negb (truthy status) then
      let ssl_ctx := set_state ssl_ctx SERF_SECTRANS_CONNECTED in
      encrypt_read_connected fuel ssl_ctx requested
    else
      (* Maybe the handshake algorithm put some data in the pending
         outgoing bucket? *)
      let '(status, data, p) :=
        stream_read (pending (encrypt ssl_ctx)) requested in
      Some (status, data, set_encrypt_pending ssl_ctx p)
  | _ => encrypt_read_connected fuel ssl_ctx requested
  end.

Definition serf_sectrans_encrypt_readline (ssl_ctx : sectrans_context_t)
    (acceptable : Z) : apr_status_t :=
  APR_ENOTIMPL.

(** ** The decryption bucket *)

(** Ask Secure Transport to decrypt some more data.  If anything was
    received, add it to the decrypt.pending buffer. *)
Definition decrypt_more_data (fuel : nat) (ssl_ctx : sectrans_context_t)
    : option (apr_status_t * sectrans_context_t) :=
  '(sectrans_status, dec_data, ssl_ctx) ←
    st_SSLRead fuel ssl_ctx SECURE_TRANSPORT_READ_BUFSIZE;
  let status := translate_sectrans_status sectrans_status in
  if SERF_BUCKET_READ_ERROR status then Some (status, ssl_ctx)
  else
    let tmp := dec_data in
    Some (status,
          set_decrypt_pending ssl_ctx
            (serf_bucket_aggregate_append (pending (decrypt ssl_ctx)) tmp)).

(** The do-while loop of serf_sectrans_decrypt_read; [rounds] bounds the
    number of iterations.  The boolean of the result tells whether the
    function returned from inside the loop (a read error). *)
Fixpoint decrypt_loop (fuel : nat) (rounds : nat)
    (ssl_ctx : sectrans_context_t)
    : option (bool * apr_status_t * sectrans_context_t) :=
  match rounds with
  | O => None
  | S rounds' =>
    '(status, ssl_ctx) ← decrypt_more_data fuel ssl_ctx;
    if SERF_BUCKET_READ_ERROR status then Some (true, status, ssl_ctx)
    else if status =? APR_SUCCESS then decrypt_loop fuel rounds' ssl_ctx
    else Some (false, status, ssl_ctx)
  end.

Definition serf_sectrans_decrypt_read (fuel : nat) (rounds : nat)
    (ssl_ctx : sectrans_context_t) (requested : apr_size_t)
    : option read_result :=
  (* First use any pending encrypted data. *)
  let '(status, data, p) := stream_read (pending (decrypt ssl_ctx)) requested in
  let ssl_ctx := set_decrypt_pending ssl_ctx p in
  if SERF_BUCKET_READ_ERROR status then Some (status, data, ssl_ctx)
  else if truthy (blen data) then Some (status, data, ssl_ctx)
  else
  match decrypt_loop fuel rounds ssl_ctx with
  | None => None
  | Some (true, status, ssl_ctx) => Some (status, data, ssl_ctx)
  | Some (false, _, ssl_ctx) =>
    (* We should now have more decrypted data in the pending buffer. *)
    let '(status, data, p) :=
      stream_read (pending (decrypt ssl_ctx)) requested in
    Some (status, data, set_decrypt_pending ssl_ctx p)
  end.

(** ** Buckets and the memory they share

    Both buckets of a session point to one context structure.  The memory
    maps the address of every live context structure to its content, and
    keeps the sessions that were passed to SSLDisposeContext. *)

Definition addr := positive.

Inductive serf_bucket_type_t :=
| serf_bucket_type_sectrans_encrypt
| serf_bucket_type_sectrans_decrypt.

Record serf_bucket_t := {
  type : option serf_bucket_type_t;
  data : option addr;
  bucket_allocator : serf_bucket_alloc_t;
}.

Record memory := {
  contexts : gmap addr sectrans_context_t;
  disposed : list SSLContextRef;
}.

Definition set_contexts (m : memory) (c : gmap addr sectrans_context_t) :=
  {| contexts := c; disposed := disposed m |}.

(** [bucket->data = impl_ctx ? impl_ctx : sectrans_init_context(allocator)]:
    the memory after that statement and the pointer stored, [None] for
    NULL.  A new context structure is put at a fresh address, [mem] being
    what the allocated memory holds before it is initialised. *)
Definition context_for (m : memory) (impl_ctx : option addr)
    (alloc : serf_bucket_alloc_t) (mem : sectrans_context_t)
    : memory * option addr :=
  match impl_ctx with
  | Some a => (m, Some a)
  | None =>
    let a := fresh (dom (contexts m)) in
    let '(ctx, ok) := sectrans_init_context alloc mem in
    (set_contexts m (<[a := ctx]> (contexts m)), if ok then Some a else None)
  end.

(** The result is the memory, the bucket and the value returned,
    bucket->data.  A null bucket->data (after a failed
    sectrans_init_context) is dereferenced all the same, which has no
    defined result. *)
Definition decrypt_create (m : memory) (bucket : serf_bucket_t)
    (stream : source) (impl_ctx : option addr) (alloc : serf_bucket_alloc_t)
    (mem : sectrans_context_t) : option (memory * serf_bucket_t * addr) :=
  let '(m, bucket_data) := context_for m impl_ctx alloc mem in
  let bucket :=
    {| type := Some serf_bucket_type_sectrans_decrypt;
       data := bucket_data; bucket_allocator := alloc |} in
  a ← data bucket;
  ssl_ctx ← contexts m !! a;
  let ssl_ctx := set_refcount ssl_ctx (refcount ssl_ctx + 1) in
  let ssl_ctx := set_decrypt_stream ssl_ctx stream in
  let ssl_ctx := set_allocator ssl_ctx alloc in
  Some (set_contexts m (<[a := ssl_ctx]> (contexts m)), bucket, a).

Definition encrypt_create (m : memory) (bucket : serf_bucket_t)
    (stream : source) (impl_ctx : option addr) (alloc : serf_bucket_alloc_t)
    (mem : sectrans_context_t) : option (memory * serf_bucket_t * addr) :=
  let '(m, bucket_data) := context_for m impl_ctx alloc mem in
  let bucket :=
    {| type := Some serf_bucket_type_sectrans_encrypt;
       data := bucket_data; bucket_allocator := alloc |} in
  a ← data bucket;
  ssl_ctx ← contexts m !! a;
  let ssl_ctx := set_refcount ssl_ctx (refcount ssl_ctx + 1) in
  let ssl_ctx := set_encrypt_stream ssl_ctx stream in
  let ssl_ctx := set_allocator ssl_ctx alloc in
  Some (set_contexts m (<[a := ssl_ctx]> (contexts m)), bucket, a).

(** Disposes of the session and frees the context structure, whatever the
    status of the disposal. *)
Definition sectrans_free_context (m : memory) (ctx : addr)
    (alloc : serf_bucket_alloc_t) : option (apr_status_t * memory) :=
  c ← contexts m !! ctx;
  let status := SSLDisposeContext (st_state (st_ctxr c)) in
  let m := {| contexts := delete ctx (contexts m);
              disposed := disposed m ++ [st_ctxr c] |} in
  Some (if truthy status then APR_EGENERAL else APR_SUCCESS, m).

(** Modelled from the spec: serf_bucket_ssl_destroy_and_data, which is
    defined with the generic SSL buckets and not in sectrans_buckets.c,
    releases the resources of the bucket itself and leaves the shared
    context alone. *)
Definition serf_bucket_ssl_destroy_and_data (m : memory)
    (bucket : serf_bucket_t) : memory :=
  m.

Definition serf_sectrans_encrypt_destroy_and_data (m : memory)
    (bucket : serf_bucket_t) : option memory :=
  a ← data bucket;
  ssl_ctx ← contexts m !! a;
  let ssl_ctx := set_refcount ssl_ctx (refcount ssl_ctx - 1) in
  let m := set_contexts m (<[a := ssl_ctx]> (contexts m)) in
  m ← (if negb (truthy (refcount ssl_ctx)) then
         r ← sectrans_free_context m a (bucket_allocator bucket);
         Some r.2
       else Some m);
  Some (serf_bucket_ssl_destroy_and_data m bucket).

Definition serf_sectrans_decrypt_destroy_and_data (m : memory)
    (bucket : serf_bucket_t) : option memory :=
  a ← data bucket;
  ssl_ctx ← contexts m !! a;
  let ssl_ctx := set_refcount ssl_ctx (refcount ssl_ctx - 1) in
  let m := set_contexts m (<[a := ssl_ctx]> (contexts m)) in
  m ← (if negb (truthy (refcount ssl_ctx)) then
         r ← sectrans_free_context m a (bucket_allocator bucket);
         Some r.2
       else Some m);
  Some (serf_bucket_ssl_destroy_and_data m bucket).

(** serf_bucket_read(bucket, requested, &data, &len): the read function of
    the type of the bucket, on the context the bucket points to. *)
Definition bucket_read (fuel rounds : nat) (m : memory)
    (bucket : serf_bucket_t) (requested : apr_size_t)
    : option (apr_status_t * bytes * memory) :=
  a ← data bucket;
  ssl_ctx ← contexts m !! a;
  ty ← type bucket;
  r ← match ty with
      | serf_bucket_type_sectrans_encrypt =>
        serf_sectrans_encrypt_read fuel ssl_ctx requested
      | serf_bucket_type_sectrans_decrypt =>
        serf_sectrans_decrypt_read fuel rounds ssl_ctx requested
      end;
  Some (r.1.1, r.1.2, set_contexts m (<[a := r.2]> (contexts m))).

End Embedding.

(** ** File extensions *)

(** A C string is the list of its characters, without the terminating
    NUL.  [strrchr s c] is the offset of the last occurrence of [c] in [s],
    and [None] when strrchr returns NULL. *)
Fixpoint strrchr (s : bytes) (c : Byte.byte) : option nat :=
  match s with
  | [] => None
  | b :: s' =>
    match strrchr s' c with
    | Some i => Some (S i)
    | None => if Byte.eqb b c then Some O else None
    end
  end.

(** The characters '.' and '/'. *)
Definition dot : Byte.byte := Byte.x2e.
Definition slash : Byte.byte := Byte.x2f.

(** Find the file extension, if any.  The result is the string that the
    returned pointer points to: the end of [path] behind the last period,
    or the empty string.  The second test of the first condition compares
    the pointer [last_dot + 1], which is never null, with '\0', and so is
    always true. *)
Definition splitext (path : bytes) : bytes :=
  match strrchr path dot with
  | Some last_dot =>
    if match strrchr path slash with
       | Some last_slash => (last_slash + 1 <? last_dot)%nat
       | None => (0 <? last_dot)%nat
       end
    then skipn (last_dot + 1) path
    else []
  | None => []
  end.

(** ** Vocabulary of the properties *)

Section Vocabulary.

Context `{K : serf_h} `{B : SourceBucket} `{ST : SecureTransport}.

(** ** What the callbacks and the calls into Secure Transport leave alone *)

Record session_frame (c c' : sectrans_context_t) : Prop := {
  frame_refcount : refcount c' = refcount c;
  frame_allocator : allocator c' = allocator c;
  frame_state : state c' = state c;
  frame_hostname : hostname c' = hostname c;
  frame_modes : modes c' = modes c;
  frame_callback : server_cert_callback c' = server_cert_callback c;
  frame_chain_callback :
    server_cert_chain_callback c' = server_cert_chain_callback c;
  frame_userdata : server_cert_userdata c' = server_cert_userdata c;
  frame_encrypt_eof :
    eof_callback (pending (encrypt c')) = eof_callback (pending (encrypt c));
  frame_decrypt_eof :
    eof_callback (pending (decrypt c')) = eof_callback (pending (decrypt c));
}.

(** ** The order of the session states *)

Definition state_rank (s : sectrans_session_state_t) : nat :=
  match s with
  | SERF_SECTRANS_INIT => 0
  | SERF_SECTRANS_HANDSHAKE => 1
  | SERF_SECTRANS_CONNECTED => 2
  | SERF_SECTRANS_CLOSING => 3
  end.

Definition state_le (s s' : sectrans_session_state_t) : Prop :=
  (state_rank s <= state_rank s')%nat.

(** A sequence of reads on the encrypt bucket, one per requested size. *)
Fixpoint encrypt_reads (fuel : nat) (ssl_ctx : sectrans_context_t)
    (reqs : list apr_size_t) : option (list read_result) :=
  match reqs with
  | [] => Some []
  | requested :: reqs' =>
    match serf_sectrans_encrypt_read fuel ssl_ctx requested with
    | None => None
    | Some r =>
      match encrypt_reads fuel r.2 reqs' with
      | None => None
      | Some rs => Some (r :: rs)
      end
    end
  end.

(** The pending buffers are the ones sectrans_init_context sets up. *)
Definition pending_open (c : sectrans_context_t) : Prop :=
  eof_callback (pending (encrypt c)) = pending_stream_eof
  /\ eof_callback (pending (decrypt c)) = pending_stream_eof.

(** What happens to a pending buffer: bytes are appended to it (by the
    write callback or after a decryption) and it is read. *)
Inductive pending_op :=
| Pending_append (data : bytes)
| Pending_read (requested : apr_size_t).

Definition apply_pending_op (p : stream_bucket) (op : pending_op)
    : stream_bucket :=
  match op with
  | Pending_append data => serf_bucket_aggregate_append p data
  | Pending_read requested => (stream_read p requested).2
  end.

Definition apply_pending_ops (p : stream_bucket) (ops : list pending_op)
    : stream_bucket :=
  fold_left apply_pending_op ops p.

(** [decrypt_rounds fuel c n status c']: from the context [c],
    decrypt_more_data is invoked [n] times in a row, [n] at least one; every
    invocation but the last returns APR_SUCCESS, the last returns [status],
    which is not APR_SUCCESS, and leaves the context [c']. *)
Inductive decrypt_rounds (fuel : nat)
    : sectrans_context_t -> nat -> apr_status_t -> sectrans_context_t -> Prop :=
| decrypt_rounds_last c status c' :
    decrypt_more_data fuel c = Some (status, c') ->
    status <> APR_SUCCESS ->
    decrypt_rounds fuel c 1 status c'
| decrypt_rounds_again c c1 n status c' :
    decrypt_more_data fuel c = Some (APR_SUCCESS, c1) ->
    decrypt_rounds fuel c1 n status c' ->
    decrypt_rounds fuel c (S n) status c'.

(** What serf_sectrans_decrypt_read returns after the loop has ended with
    [status] in the context [c]: the status itself when it is a read error,
    and the result of reading the pending buffer again otherwise. *)
Definition after_decrypt_rounds (status : apr_status_t)
    (c : sectrans_context_t) (requested : apr_size_t) : read_result :=
  if SERF_BUCKET_READ_ERROR status then (status, [], c)
  else ((stream_read (pending (decrypt c)) requested).1,
        set_decrypt_pending c (stream_read (pending (decrypt c)) requested).2).

(** [pulls s status requested chunks s']: the loop of sectrans_read_cb,
    entered with the given status and count of bytes still requested, reads
    from the source [s] exactly the [chunks] (status and bytes of each
    read, in order) and leaves the source at [s'].  The loop goes on as
    long as the status is success and bytes are still requested, and ends
    at once on a read error. *)
Inductive pulls
    : source -> apr_status_t -> apr_size_t -> list (apr_status_t * bytes)
      -> source -> Prop :=
| pulls_stop s status requested :
    status <> APR_SUCCESS \/ requested = 0 ->
    pulls s status requested [] s
| pulls_error s requested status buf s1 :
    requested <> 0 ->
    serf_bucket_read s requested = (status, buf, s1) ->
    SERF_BUCKET_READ_ERROR status = true ->
    pulls s APR_SUCCESS requested [(status, buf)] s1
| pulls_more s requested status buf s1 chunks s' :
    requested <> 0 ->
    serf_bucket_read s requested = (status, buf, s1) ->
    SERF_BUCKET_READ_ERROR status = false ->
    pulls s1 status
      (if truthy (blen buf) then size_wrap (requested - blen buf)
       else requested)
      chunks s' ->
    pulls s APR_SUCCESS requested ((status, buf) :: chunks) s'.

(** The bytes that the read callback copied into the caller's buffer, in
    order: those of every read but a failed one. *)
Definition copied (chunks : list (apr_status_t * bytes)) : bytes :=
  flat_map (fun c : apr_status_t * bytes =>
              if SERF_BUCKET_READ_ERROR c.1 then [] else c.2) chunks.

(** The status that the read callback returns after the reads [chunks]. *)
Definition read_cb_status (chunks : list (apr_status_t * bytes)) : OSStatus :=
  match last chunks with
  | None => noErr
  | Some c =>
    if SERF_BUCKET_READ_ERROR c.1 then -1
    else if APR_STATUS_IS_EAGAIN c.1 then errSSLWouldBlock
    else if c.1 =? APR_SUCCESS then noErr
    else -1
  end.

(** ** What a call into Secure Transport changes *)

(** What a call into Secure Transport can change in the context, through
    the two callbacks: the incoming ciphertext stream is read, and [written]
    is queued behind the pending ciphertext. *)
Record engine_effect (c : sectrans_context_t) (written : bytes)
    (c' : sectrans_context_t) : Prop := {
  effect_frame : session_frame c c';
  effect_encrypt_stream : stream (encrypt c') = stream (encrypt c);
  effect_decrypt_pending : pending (decrypt c') = pending (decrypt c);
  effect_encrypt_queue :
    queue (pending (encrypt c')) = queue (pending (encrypt c)) ++ written;
}.

(** The states in which a read on the encrypt bucket runs the handshake. *)
Definition handshaking (s : sectrans_session_state_t) : bool :=
  match s with
  | SERF_SECTRANS_INIT | SERF_SECTRANS_HANDSHAKE => true
  | _ => false
  end.

(** ** What Secure Transport writes and decrypts *)

(** The bytes that an operation of Secure Transport hands to the write
    callback while it runs against [ctx], in the order of the calls. *)
Fixpoint io_written {R : Type} (fuel : nat) (t : st_io R)
    (ctx : sectrans_context_t) : bytes :=
  match t with
  | io_return _ => []
  | io_read n k =>
    match sectrans_read_cb fuel ctx n with
    | Some (ret, buf, len, ctx') => io_written fuel (k ret buf len) ctx'
    | None => []
    end
  | io_write data k =>
    let '(ret, len, ctx') := sectrans_write_cb ctx data in
    data ++ io_written fuel (k ret len) ctx'
  end.

(** The ciphertext that the SSLHandshake call made on [c] writes. *)
Definition written_by_SSLHandshake (fuel : nat) (c : sectrans_context_t)
    : bytes :=
  io_written fuel (SSLHandshake (st_state (st_ctxr c))) c.

(** The context in which the part of serf_sectrans_encrypt_read after
    "Handshake successful." runs: the context of the read itself, or the
    one that a successful handshake leaves, with the state CONNECTED. *)
Definition after_handshake (fuel : nat) (ctx : sectrans_context_t)
    : option sectrans_context_t :=
  if handshaking (state ctx) then
    r ← st_SSLHandshake fuel (set_state ctx SERF_SECTRANS_HANDSHAKE);
    Some (set_state r.2 SERF_SECTRANS_CONNECTED)
  else Some ctx.

(** The plaintext that a read in the context [c] takes from the outgoing
    stream, the context in which it hands that plaintext to SSLWrite, and
    the ciphertext which that call writes. *)
Definition plaintext_read (c : sectrans_context_t) (requested : apr_size_t)
    : bytes :=
  (serf_bucket_read (stream (encrypt c)) requested).1.2.

Definition before_SSLWrite (c : sectrans_context_t) (requested : apr_size_t)
    : sectrans_context_t :=
  set_encrypt_stream
    (set_encrypt_pending c (stream_read (pending (encrypt c)) requested).2)
    (serf_bucket_read (stream (encrypt c)) requested).2.

Definition written_by_SSLWrite (fuel : nat) (c : sectrans_context_t)
    (requested : apr_size_t) : bytes :=
  io_written fuel
    (SSLWrite (st_state (st_ctxr c)) (plaintext_read c requested))
    (before_SSLWrite c requested).

(** The plaintext that [k] successive SSLRead calls for
    SECURE_TRANSPORT_READ_BUFSIZE bytes return, starting in the context
    [c], when the plaintext of each call is queued on decrypt.pending
    before the next call.  A call whose status is a read error ends the
    sequence, and its bytes do not count. *)
Fixpoint decrypted (fuel : nat) (k : nat) (c : sectrans_context_t) : bytes :=
  match k with
  | O => []
  | S k' =>
    match st_SSLRead fuel c SECURE_TRANSPORT_READ_BUFSIZE with
    | Some (sectrans_status, dec_data, c1) =>
      if SERF_BUCKET_READ_ERROR (translate_sectrans_status sectrans_status)
      then []
      else
        dec_data
        ++ decrypted fuel k'
             (set_decrypt_pending c1
                (serf_bucket_aggregate_append (pending (decrypt c1))
                   dec_data))
    | None => []
    end
  end.

(** A read advances the session when its state is further on afterwards. *)
Definition advances (c c' : sectrans_context_t) : Prop :=
  (state_rank (state c) < state_rank (state c'))%nat.

(** ** The cases of the certificate validation *)

(** The trust results for which the certificate is valid. *)
Definition trusted (result : SecTrustResultType) : bool :=
  (result =? kSecTrustResultUnspecified) || (result =? kSecTrustResultProceed).

(** The trust results that leave the decision to the user. *)
Definition recoverable (result : SecTrustResultType) : bool :=
  (result =? kSecTrustResultConfirm)
  || (result =? kSecTrustResultRecoverableTrustFailure).

(** The certificate object handed to the application's callback: the first
    certificate of the chain, at depth 0. *)
Definition presented_certificate (ssl_ctx : sectrans_context_t)
    (certs : CFArrayRef) : serf_ssl_certificate_t :=
  serf__create_certificate (allocator ssl_ctx)
    {| content := None; certref := CFArrayGetValueAtIndex certs 0 |} 0.

(** The validation modes that set_allowed_cert_validation_modes knows. *)
Definition supported_modes : Z :=
  Z.lor (Z.lor serf_ssl_val_mode_serf_managed_with_gui
               serf_ssl_val_mode_serf_managed_no_gui)
        serf_ssl_val_mode_application_managed.

(** ** The contexts in memory *)

(** [m'] differs from [m] at most in the context at [a]. *)
Definition only_context_changed (a : addr) (m m' : memory) : Prop :=
  forall b, b <> a -> contexts m' !! b = contexts m !! b.

End Vocabulary.

(** ** Test doubles

    A scripted source bucket, a scripted Secure Transport session with the
    identity as its cipher, and values for the constants of serf.h.  They
    serve to run the embedding on concrete inputs. *)

Module Mock.

(** The flags and codes that serf.h is known to define keep their value
    (SERF_SSL_CERT_UNKNOWN_FAILURE, SERF_ERROR_WAIT_CONN,
    SERF_ERROR_SSL_CERT_FAILED); the others get separate bits and codes. *)
#[export] Instance constants : serf_h := {|
  serf_ssl_val_mode_serf_managed_with_gui := 1;
  serf_ssl_val_mode_serf_managed_no_gui := 2;
  serf_ssl_val_mode_application_managed := 4;
  SERF_SSL_CERT_ALL_OK := 0x1000;
  SERF_SSL_CERT_CONFIRM_NEEDED := 0x2000;
  SERF_SSL_CERT_RECOVERABLE := 0x4000;
  SERF_SSL_CERT_UNKNOWN_FAILURE := 16;
  SERF_SSL_CERT_FATAL := 0x8000;
  SERF_ERROR_WAIT_CONN := 120113;
  SERF_ERROR_SSL_CERT_FAILED := 120170;
  SERF_ERROR_SSL_CANT_CONFIRM_CERT := 120172;
  SERF_ERROR_SSL_USER_DENIED_CERT := 120173;
  SERF_ERROR_SSL_KEYCHAIN_DENIED_CERT := 120174;
|}.

(** A source bucket that plays a script: each entry is the status and the
    bytes of one read.  An entry longer than the request is handed out in
    pieces; when the script is over the bucket reports would-block. *)
Definition script_read (s : list (apr_status_t * bytes))
    (requested : apr_size_t)
    : apr_status_t * bytes * list (apr_status_t * bytes) :=
  match s with
  | [] => (APR_EAGAIN, [], [])
  | (status, chunk) :: rest =>
    if blen chunk <=? requested then (status, chunk, rest)
    else (APR_SUCCESS, firstn (Z.to_nat requested) chunk,
          (status, skipn (Z.to_nat requested) chunk) :: rest)
  end.

#[export] Instance script_bucket : SourceBucket := {|
  source := list (apr_status_t * bytes);
  serf_bucket_read := script_read;
|}.

(** A session that plays a script of handshake steps (the bytes the step
    sends and the status it returns), evaluates the peer's trust to a fixed
    result, and passes application data through unchanged, reading at most
    [record_length] bytes from the network per call. *)
Record session := {
  handshake_steps : list (bytes * OSStatus);
  trust_result : SecTrustResultType;
  user_answer : Z;
  dispose_status : OSStatus;
  record_length : apr_size_t;
}.

(** The session that SSLNewContext hands out. *)
Definition new_session : session :=
  {| handshake_steps := []; trust_result := kSecTrustResultProceed;
     user_answer := 0; dispose_status := noErr;
     record_length := SECURE_TRANSPORT_READ_BUFSIZE |}.

Definition handshake (s : session) : st_io (OSStatus * session) :=
  match handshake_steps s with
  | [] => io_return (noErr, s)
  | (out, status) :: rest =>
    let s' := {| handshake_steps := rest; trust_result := trust_result s;
                 user_answer := user_answer s;
                 dispose_status := dispose_status s;
                 record_length := record_length s |} in
    match out with
    | [] => io_return (status, s')
    | _ :: _ => io_write out (fun _ _ => io_return (status, s'))
    end
  end.

#[export] Instance identity_cipher : SecureTransport := {|
  SSLContext := session;
  CFArrayRef := list Z;
  SecTrustRef := session;
  SecCertificateRef := Z;
  SSLNewContext := fun _ => (noErr, new_session);
  SSLSetIOFuncs := fun s => (noErr, s);
  SSLSetConnection := fun s => (noErr, s);
  SSLSetSessionOption_BreakOnServerAuth := fun s _ => (noErr, s);
  SSLSetEnableCertVerify := fun s _ => (noErr, s);
  SSLDisposeContext := dispose_status;
  SSLHandshake := handshake;
  SSLWrite := fun s data =>
    io_write data (fun status n => io_return (status, n, s));
  SSLRead := fun s n =>
    io_read (Z.min n (record_length s))
      (fun status buf _ => io_return (status, buf, s));
  SSLCopyPeerCertificates := fun s => (noErr, [7]);
  SSLCopyPeerTrust := fun s => (noErr, s);
  SecTrustEvaluate := fun s => (noErr, trust_result s);
  CFArrayGetValueAtIndex := fun certs i => nth (Z.to_nat i) certs 0;
  runModalForTrust := user_answer;
|}.

(** The content of freshly allocated memory, before it is initialised. *)
Definition uninitialised : sectrans_context_t :=
  {| refcount := 77; allocator := 0;
     st_ctxr := {| st_state := new_session; st_calls := [] |};
     encrypt := {| pending := serf__bucket_stream_create 0 (fun _ _ => APR_EOF) 0;
                   stream := [] |};
     decrypt := {| pending := serf__bucket_stream_create 0 (fun _ _ => APR_EOF) 0;
                   stream := [] |};
     state := SERF_SECTRANS_CLOSING; hostname := None; modes := 0;
     server_cert_callback := None; server_cert_chain_callback := None;
     server_cert_userdata := 0 |}.

(** An initialised context whose session is [s], with the given outgoing
    plaintext and incoming ciphertext streams attached. *)
Definition context (s : session) (outgoing incoming : list (apr_status_t * bytes))
    : sectrans_context_t :=
  let c := (sectrans_init_context 0 uninitialised).1 in
  let c := set_st_ctxr c {| st_state := s; st_calls := [] |} in
  set_decrypt_stream (set_encrypt_stream c outgoing) incoming.

(** A session whose handshake plays [steps] and whose trust evaluation
    gives [result]. *)
Definition scripted (steps : list (bytes * OSStatus))
    (result : SecTrustResultType) : session :=
  {| handshake_steps := steps; trust_result := result; user_answer := 0;
     dispose_status := noErr;
     record_length := SECURE_TRANSPORT_READ_BUFSIZE |}.

(** A session past its handshake that asks the read callback for [n]
    bytes at a time. *)
Definition reading (n : apr_size_t) : session :=
  {| handshake_steps := []; trust_result := kSecTrustResultProceed;
     user_answer := 0; dispose_status := noErr; record_length := n |}.

(** *** Concrete sessions *)

(** The handshake has reached the point where the server certificate is to
    be evaluated, and the trust result asks for confirmation. *)
Definition awaiting_confirmation : sectrans_context_t :=
  context (scripted [([], errSSLServerAuthCompleted)] kSecTrustResultConfirm)
    [] [].

(** The same point of the handshake, with a certificate that is trusted. *)
Definition awaiting_evaluation : sectrans_context_t :=
  context (scripted [([], errSSLServerAuthCompleted)] kSecTrustResultProceed)
    [] [].

(** The first handshake step sends four bytes and then waits for the
    server. *)
Definition sending_hello : sectrans_context_t :=
  context
    (scripted [([Byte.x16; Byte.x03; Byte.x01; Byte.x00], errSSLWouldBlock)]
       kSecTrustResultProceed)
    [] [].

(** A connected session with nothing to send. *)
Definition connected_idle : sectrans_context_t :=
  set_state (context new_session [] []) SERF_SECTRANS_CONNECTED.

(** A connected session with three bytes of ciphertext waiting to be sent. *)
Definition connected_with_pending : sectrans_context_t :=
  set_encrypt_pending connected_idle
    (serf_bucket_aggregate_append (pending (encrypt connected_idle))
       [Byte.x17; Byte.x03; Byte.x03]).

(** A connected session that reads two bytes at a time from a network that
    delivers two bytes, then one byte, then blocks. *)
Definition receiving : sectrans_context_t :=
  set_state
    (context (reading 2) []
       [(APR_SUCCESS, [Byte.x68; Byte.x69]); (APR_SUCCESS, [Byte.x21])])
    SERF_SECTRANS_CONNECTED.

(** A memory without any context in it. *)
Definition empty_memory : memory := {| contexts := ∅; disposed := [] |}.

(** A bucket structure before it is set up. *)
Definition blank_bucket : serf_bucket_t :=
  {| type := None; data := None; bucket_allocator := 0 |}.

(** A session at the point of the handshake where the server certificate
    is to be evaluated, with the given trust result and the given answer of
    the user to the trust panel. *)
Definition evaluating (result : SecTrustResultType) (answer : Z) : session :=
  {| handshake_steps := [([], errSSLServerAuthCompleted)];
     trust_result := result; user_answer := answer; dispose_status := noErr;
     record_length := SECURE_TRANSPORT_READ_BUFSIZE |}.

(** An application callback that accepts every certificate, and one that
    accepts a certificate unless its failure is fatal. *)
Definition accept_all : serf_ssl_need_server_cert_t :=
  fun data failures cert => APR_SUCCESS.

Definition accept_unless_fatal : serf_ssl_need_server_cert_t :=
  fun data failures cert =>
    if Z.land failures SERF_SSL_CERT_FATAL =? 0 then APR_SUCCESS
    else SERF_ERROR_SSL_CERT_FAILED.

(** A trusted certificate, with all validation modes switched off. *)
Definition nobody_decides : sectrans_context_t :=
  set_modes awaiting_evaluation 0.

(** A certificate that fails fatally, with the application alone in
    charge and accepting everything. *)
Definition application_managed : sectrans_context_t :=
  server_cert_callback_set
    (set_modes (context (evaluating kSecTrustResultFatalTrustFailure 0) [] [])
       0)
    (Some accept_all) 5.

(** A certificate that needs confirmation, the GUI mode, and a user who
    says yes. *)
Definition asking_user : sectrans_context_t :=
  set_modes (context (evaluating kSecTrustResultConfirm 1) [] [])
    serf_ssl_val_mode_serf_managed_with_gui.

(** A certificate that needs confirmation, the default mode, and an
    application callback registered on top of it. *)
Definition confirmation_by_application : sectrans_context_t :=
  server_cert_callback_set awaiting_confirmation (Some accept_unless_fatal) 5.

(** The server asks for a client certificate during the handshake. *)
Definition asked_for_client_certificate : sectrans_context_t :=
  context (scripted [([], errSSLClientCertRequested)] kSecTrustResultProceed)
    [] [].

(** A new session whose handshake completes at once. *)
Definition about_to_connect : sectrans_context_t :=
  context new_session [] [].

(** A connected session with two bytes to send. *)
Definition connected_with_plaintext : sectrans_context_t :=
  set_state (context new_session [(APR_SUCCESS, [Byte.x68; Byte.x69])] [])
    SERF_SECTRANS_CONNECTED.



(** A file name with an extension, in a directory whose name has a
    period: certs.d/ca.pem. *)
Definition ca_path : bytes :=
  [Byte.x63; Byte.x65; Byte.x72; Byte.x74; Byte.x73; Byte.x2e; Byte.x64;
   Byte.x2f; Byte.x63; Byte.x61; Byte.x2e; Byte.x70; Byte.x65; Byte.x6d].

(** A hidden file in a directory: home/.profile. *)
Definition hidden_path : bytes :=
  [Byte.x68; Byte.x6f; Byte.x6d; Byte.x65; Byte.x2f; Byte.x2e; Byte.x70;
   Byte.x72; Byte.x6f; Byte.x66; Byte.x69; Byte.x6c; Byte.x65].

(** The session of [sending_hello], with the handshake already begun. *)
Definition mid_handshake : sectrans_context_t :=
  set_state sending_hello SERF_SECTRANS_HANDSHAKE.

(** The session of [sending_hello] with three bytes of ciphertext pending
    before the handshake step sends its four bytes. *)
Definition hello_behind_pending : sectrans_context_t :=
  set_encrypt_pending sending_hello
    (serf_bucket_aggregate_append (pending (encrypt sending_hello))
       [Byte.x17; Byte.x03; Byte.x03]).

(** The session of [receiving] with three bytes of plaintext pending. *)
Definition receiving_with_pending : sectrans_context_t :=
  set_decrypt_pending receiving
    (serf_bucket_aggregate_append (pending (decrypt receiving))
       [Byte.x6f; Byte.x6b; Byte.x3f]).

(** A memory that holds one context, of another session. *)
Definition one_context_memory : memory :=
  {| contexts := {[ 1%positive := connected_with_pending ]}; disposed := [] |}.

End Mock.

(** * Properties *)

Lemma mock_constants_sound : @serf_h_sound Mock.constants.
Proof. split; vm_compute; congruence. Qed.

(** ** Facts about the pending stream buckets *)

Lemma truthy_false (z : Z) : truthy z = false <-> z = 0.
Proof. unfold truthy. destruct (Z.eqb_spec z 0); simpl; intuition congruence. Qed.

Lemma truthy_true (z : Z) : truthy z = true <-> z <> 0.
Proof. unfold truthy. destruct (Z.eqb_spec z 0); simpl; intuition congruence. Qed.

Lemma truthy_blen (b : bytes) : truthy (blen b) = false <-> b = [].
Proof.
  rewrite truthy_false. unfold blen.
  destruct b; simpl; split; intros; try reflexivity; try discriminate; lia.
Qed.

Lemma read_error_success `{serf_h} : SERF_BUCKET_READ_ERROR APR_SUCCESS = false.
Proof. reflexivity. Qed.

Lemma read_error_eagain `{serf_h} : SERF_BUCKET_READ_ERROR APR_EAGAIN = false.
Proof. reflexivity. Qed.

Lemma read_error_nonzero `{serf_h} (s : apr_status_t) :
  SERF_BUCKET_READ_ERROR s = true -> s <> APR_SUCCESS /\ s <> APR_EAGAIN.
Proof.
  intros E. split; intros ->.
  - rewrite read_error_success in E. discriminate.
  - rewrite read_error_eagain in E. discriminate.
Qed.

Lemma stream_read_data (p : stream_bucket) (n : apr_size_t) :
  (stream_read p n).1.2
  = firstn (Z.to_nat (Z.min n (blen (queue p)))) (queue p).
Proof. unfold stream_read. simpl. destruct (skipn _ _); reflexivity. Qed.

Lemma stream_read_bucket (p : stream_bucket) (n : apr_size_t) :
  (stream_read p n).2
  = set_queue p (skipn (Z.to_nat (Z.min n (blen (queue p)))) (queue p)).
Proof. unfold stream_read. simpl. destruct (skipn _ _); reflexivity. Qed.

Lemma stream_read_status (p : stream_bucket) (n : apr_size_t) :
  (stream_read p n).1.1
  = match queue (stream_read p n).2 with
    | [] => stream_eof (stream_read p n).2
    | _ :: _ => APR_SUCCESS
    end.
Proof.
  rewrite stream_read_bucket. unfold stream_read. simpl.
  destruct (skipn _ _); reflexivity.
Qed.

(** Reading gives back the bytes in the order they were queued: what is
    handed out followed by what stays queued is the queue before. *)
Lemma stream_read_split (p : stream_bucket) (n : apr_size_t) :
  (stream_read p n).1.2 ++ queue (stream_read p n).2 = queue p.
Proof.
  rewrite stream_read_data, stream_read_bucket. simpl. apply firstn_skipn.
Qed.

Lemma stream_read_nonempty (p : stream_bucket) (n : apr_size_t) :
  queue p <> [] -> 0 < n -> (stream_read p n).1.2 <> [].
Proof.
  intros Hq Hn. rewrite stream_read_data.
  destruct (queue p) as [|b q]; [congruence|].
  assert (0 < Z.min n (blen (b :: q))) by (unfold blen; simpl length; lia).
  destruct (Z.to_nat (Z.min n (blen (b :: q)))) eqn:E; [lia|]. discriminate.
Qed.

Lemma stream_read_empty (p : stream_bucket) (n : apr_size_t) :
  queue p = [] -> stream_read p n = (stream_eof p, [], p).
Proof.
  intros Hq. unfold stream_read. rewrite Hq. simpl.
  rewrite skipn_nil, firstn_nil. simpl. unfold stream_eof, set_queue. simpl.
  rewrite Hq. destruct p; simpl in *; subst; reflexivity.
Qed.

Section Properties.

Context `{K : serf_h} `{B : SourceBucket} `{ST : SecureTransport}.

Lemma session_frame_refl c : session_frame c c.
Proof. constructor; reflexivity. Qed.

Lemma session_frame_trans c1 c2 c3 :
  session_frame c1 c2 -> session_frame c2 c3 -> session_frame c1 c3.
Proof. intros [] []. constructor; congruence. Qed.

Lemma frame_set_st_ctxr c st : session_frame c (set_st_ctxr c st).
Proof. constructor; reflexivity. Qed.

Lemma frame_set_decrypt_stream c s : session_frame c (set_decrypt_stream c s).
Proof. constructor; reflexivity. Qed.

Lemma frame_set_encrypt_stream c s : session_frame c (set_encrypt_stream c s).
Proof. constructor; reflexivity. Qed.

Lemma frame_encrypt_append c data :
  session_frame c
    (set_encrypt_pending c
       (serf_bucket_aggregate_append (pending (encrypt c)) data)).
Proof. constructor; reflexivity. Qed.

Lemma frame_decrypt_append c data :
  session_frame c
    (set_decrypt_pending c
       (serf_bucket_aggregate_append (pending (decrypt c)) data)).
Proof. constructor; reflexivity. Qed.

Lemma frame_encrypt_read_pending c n :
  session_frame c
    (set_encrypt_pending c (stream_read (pending (encrypt c)) n).2).
Proof. rewrite stream_read_bucket. constructor; reflexivity. Qed.

Lemma frame_decrypt_read_pending c n :
  session_frame c
    (set_decrypt_pending c (stream_read (pending (decrypt c)) n).2).
Proof. rewrite stream_read_bucket. constructor; reflexivity. Qed.

Lemma frame_read_cb fuel c n r :
  sectrans_read_cb fuel c n = Some r -> session_frame c r.2.
Proof.
  unfold sectrans_read_cb. intros E.
  destruct (sectrans_read_cb_loop _ _) as [[early v]|]; simpl in E;
    [|discriminate].
  injection E as <-. apply frame_set_decrypt_stream.
Qed.

Lemma frame_write_cb c data : session_frame c (sectrans_write_cb c data).2.
Proof. apply frame_encrypt_append. Qed.

Lemma frame_run_io {R : Type} fuel (t : st_io R) :
  forall c r, run_io fuel t c = Some r -> session_frame c r.2.
Proof.
  induction t as [r0|n k IH|d k IH]; intros c r E; simpl in E.
  - injection E as <-. apply session_frame_refl.
  - destruct (sectrans_read_cb fuel c n) as [[[[ret buf] len] c']|] eqn:Ecb;
      simpl in E; [|discriminate].
    apply frame_read_cb in Ecb. apply IH in E.
    eapply session_frame_trans; eassumption.
  - apply IH in E. eapply session_frame_trans; [|exact E].
    apply frame_write_cb.
Qed.

Lemma frame_record_call c st call : session_frame c (record_call c st call).
Proof. apply frame_set_st_ctxr. Qed.

Lemma frame_SSLHandshake fuel c r :
  st_SSLHandshake fuel c = Some r -> session_frame c r.2.
Proof.
  unfold st_SSLHandshake. intros E.
  destruct (run_io _ _ _) as [[x c']|] eqn:Eio; simpl in E; [|discriminate].
  injection E as <-. apply frame_run_io in Eio.
  eapply session_frame_trans; [exact Eio|apply frame_record_call].
Qed.

Lemma frame_SSLWrite fuel c data r :
  st_SSLWrite fuel c data = Some r -> session_frame c r.2.
Proof.
  unfold st_SSLWrite. intros E.
  destruct (run_io _ _ _) as [[x c']|] eqn:Eio; simpl in E; [|discriminate].
  injection E as <-. apply frame_run_io in Eio.
  eapply session_frame_trans; [exact Eio|apply frame_record_call].
Qed.

Lemma frame_SSLRead fuel c n r :
  st_SSLRead fuel c n = Some r -> session_frame c r.2.
Proof.
  unfold st_SSLRead. intros E.
  destruct (run_io _ _ _) as [[x c']|] eqn:Eio; simpl in E; [|discriminate].
  injection E as <-. apply frame_run_io in Eio.
  eapply session_frame_trans; [exact Eio|apply frame_record_call].
Qed.

(** The calls recorded on the session only grow. *)
Lemma calls_run_io {R : Type} fuel (t : st_io R) :
  forall c r, run_io fuel t c = Some r -> st_ctxr r.2 = st_ctxr c.
Proof.
  induction t as [r0|n k IH|d k IH]; intros c r E; simpl in E.
  - injection E as <-. reflexivity.
  - destruct (sectrans_read_cb fuel c n) as [[[[ret buf] len] c']|] eqn:Ecb;
      simpl in E; [|discriminate].
    apply IH in E. rewrite E. unfold sectrans_read_cb in Ecb.
    destruct (sectrans_read_cb_loop _ _) as [[early v]|]; simpl in Ecb;
      [|discriminate].
    injection Ecb as _ _ _ <-. reflexivity.
  - apply IH in E. rewrite E. reflexivity.
Qed.

Lemma do_handshake_inv fuel c status c' :
  do_handshake fuel c = Some (status, c') ->
  exists sectrans_status,
    st_SSLHandshake fuel c = Some (sectrans_status, c').
Proof.
  unfold do_handshake. intros E.
  destruct (st_SSLHandshake fuel c) as [[s c1]|]; simpl in E; [|discriminate].
  exists s. f_equal. f_equal.
  destruct (s =? noErr); [congruence|].
  destruct (s =? errSSLServerAuthCompleted).
  - destruct (validate_server_certificate c1) as [v|]; simpl in E;
      [|discriminate].
    destruct (negb (truthy v)); congruence.
  - destruct (s =? errSSLClientCertRequested); congruence.
Qed.

Lemma frame_do_handshake fuel c r :
  do_handshake fuel c = Some r -> session_frame c r.2.
Proof.
  destruct r as [status c']. intros E.
  apply do_handshake_inv in E as [s E]. apply frame_SSLHandshake in E.
  exact E.
Qed.

(** ** Validation modes *)

Lemma land_lor_absorb (a b : Z) : Z.land (Z.lor a b) b = b.
Proof.
  apply Z.bits_inj'. intros n _. rewrite Z.land_spec, Z.lor_spec.
  destruct (Z.testbit a n), (Z.testbit b n); reflexivity.
Qed.

Lemma land_lor_keeps (a b m : Z) :
  Z.land a m = m -> Z.land (Z.lor a b) m = m.
Proof.
  intros H. apply Z.bits_inj'. intros n _.
  assert (Hn : Z.testbit (Z.land a m) n = Z.testbit m n) by (rewrite H; reflexivity).
  rewrite Z.land_spec in *. rewrite Z.lor_spec.
  destruct (Z.testbit a n), (Z.testbit b n), (Z.testbit m n);
    simpl in *; congruence.
Qed.

(** C10: client_cert_password_set adds application-managed to the
    validation modes and keeps every mode already set; it stores neither
    the password callback nor its data (no other field of the context
    changes, and the result does not depend on them);
    client_cert_provider_set changes nothing at all. *)
Theorem C10_client_cert_password_set_switches_mode
    (ctx : sectrans_context_t)
    (callback : option serf_ssl_need_cert_password_t) (data cache_pool : Z) :
  let ctx' := client_cert_password_set ctx callback data cache_pool in
  modes ctx' = Z.lor (modes ctx) serf_ssl_val_mode_application_managed
  /\ Z.land (modes ctx') serf_ssl_val_mode_application_managed
     = serf_ssl_val_mode_application_managed
  /\ (forall m, Z.land (modes ctx) m = m -> Z.land (modes ctx') m = m)
  /\ ctx' = set_modes ctx (modes ctx')
  /\ (forall callback' data' cache_pool',
         client_cert_password_set ctx callback' data' cache_pool' = ctx')
  /\ (forall provider data' cache_pool',
         client_cert_provider_set ctx provider data' cache_pool' = ctx).
Proof.
  simpl. repeat split.
  - apply land_lor_absorb.
  - intros m. apply land_lor_keeps.
Qed.

(** ** The handshake step *)

Lemma do_handshake_server_auth
    (fuel : nat) (ctx ctx1 : sectrans_context_t) (status : apr_status_t) :
  st_SSLHandshake fuel ctx = Some (errSSLServerAuthCompleted, ctx1) ->
  validate_server_certificate ctx1 = Some status ->
  do_handshake fuel ctx
  = Some (if status =? APR_SUCCESS then APR_EAGAIN else status, ctx1).
Proof.
  intros Hhs Hval. unfold do_handshake. rewrite Hhs. simpl. rewrite Hval.
  simpl. unfold truthy, APR_SUCCESS. destruct (status =? 0); reflexivity.
Qed.

(** C2: when SSLHandshake returns errSSLServerAuthCompleted, do_handshake
    runs validate_server_certificate on the context; if that returns
    success, do_handshake returns APR_EAGAIN, and if it returns any other
    status, do_handshake returns that status. *)
Theorem C2_server_auth_completed_runs_validation
    (fuel : nat) (ctx ctx1 : sectrans_context_t) (status : apr_status_t) :
  st_SSLHandshake fuel ctx = Some (errSSLServerAuthCompleted, ctx1) ->
  validate_server_certificate ctx1 = Some status ->
  (status = APR_SUCCESS -> do_handshake fuel ctx = Some (APR_EAGAIN, ctx1))
  /\ (status <> APR_SUCCESS -> do_handshake fuel ctx = Some (status, ctx1)).
Proof.
  intros Hhs Hval.
  rewrite (do_handshake_server_auth _ _ _ _ Hhs Hval).
  split; intros Hs.
  - subst status. reflexivity.
  - apply Z.eqb_neq in Hs. rewrite Hs. reflexivity.
Qed.

(** ** Validation of a certificate that needs confirmation *)

Lemma validate_confirm_no_gui (Hk : serf_h_sound)
    (ctx : sectrans_context_t) certs trust :
  modes ctx = serf_ssl_val_mode_serf_managed_no_gui ->
  SSLCopyPeerCertificates (st_state (st_ctxr ctx)) = (noErr, certs) ->
  SSLCopyPeerTrust (st_state (st_ctxr ctx)) = (noErr, trust) ->
  SecTrustEvaluate trust = (noErr, kSecTrustResultConfirm) ->
  validate_server_certificate ctx = Some SERF_ERROR_SSL_CERT_FAILED.
Proof.
  intros Hm Hc Ht He. unfold validate_server_certificate.
  rewrite Hc, Ht, He, Hm. simpl.
  rewrite land_lor_absorb.
  assert (Hr : truthy SERF_SSL_CERT_RECOVERABLE = true)
    by (apply truthy_true, Hk).
  rewrite Hr, orb_true_r.
  rewrite (modes_no_gui_with_gui Hk). simpl.
  rewrite (flags_confirm_all_ok Hk), (flags_confirm_fatal Hk). simpl.
  rewrite (modes_no_gui_application Hk). simpl.
  destruct (server_cert_callback ctx); reflexivity.
Qed.

(** C1 (what the code does): with the validation modes exactly
    serf-managed-no-gui and a trust result of kSecTrustResultConfirm, the
    read on the encrypt bucket that meets errSSLServerAuthCompleted returns
    SERF_ERROR_SSL_CERT_FAILED, which is not
    SERF_ERROR_SSL_CANT_CONFIRM_CERT, and leaves the state at HANDSHAKE. *)
Theorem C1_confirm_without_gui_reports_cert_failed (Hk : serf_h_sound)
    (fuel : nat) (ctx ctx1 : sectrans_context_t) (requested : apr_size_t)
    certs trust :
  state ctx = SERF_SECTRANS_INIT \/ state ctx = SERF_SECTRANS_HANDSHAKE ->
  modes ctx = serf_ssl_val_mode_serf_managed_no_gui ->
  st_SSLHandshake fuel (set_state ctx SERF_SECTRANS_HANDSHAKE)
  = Some (errSSLServerAuthCompleted, ctx1) ->
  SSLCopyPeerCertificates (st_state (st_ctxr ctx1)) = (noErr, certs) ->
  SSLCopyPeerTrust (st_state (st_ctxr ctx1)) = (noErr, trust) ->
  SecTrustEvaluate trust = (noErr, kSecTrustResultConfirm) ->
  serf_sectrans_encrypt_read fuel ctx requested
  = Some (SERF_ERROR_SSL_CERT_FAILED, [], ctx1)
  /\ state ctx1 = SERF_SECTRANS_HANDSHAKE
  /\ SERF_ERROR_SSL_CERT_FAILED <> SERF_ERROR_SSL_CANT_CONFIRM_CERT.
Proof.
  intros Hst Hm Hhs Hc Ht He.
  pose proof (frame_SSLHandshake _ _ _ Hhs) as F. simpl in F.
  assert (Hv : validate_server_certificate ctx1
               = Some SERF_ERROR_SSL_CERT_FAILED).
  { eapply validate_confirm_no_gui; eauto.
    rewrite (frame_modes _ _ F). exact Hm. }
  pose proof (errors_cert_failed_fatal Hk) as Hfatal.
  pose proof (do_handshake_server_auth _ _ _ _ Hhs Hv) as Hdo.
  assert (Hnz : SERF_ERROR_SSL_CERT_FAILED <> APR_SUCCESS)
    by (apply read_error_nonzero, Hfatal).
  apply Z.eqb_neq in Hnz. rewrite Hnz in Hdo.
  repeat split.
  - unfold serf_sectrans_encrypt_read.
    destruct Hst as [-> | ->]; rewrite Hdo; simpl; rewrite Hfatal;
      reflexivity.
  - rewrite (frame_state _ _ F). reflexivity.
  - intros E. apply (errors_cant_confirm_distinct Hk). symmetry. exact E.
Qed.

(** ** Reads on the encrypt bucket once connected *)

Lemma encrypt_read_not_handshaking fuel ctx requested :
  state ctx = SERF_SECTRANS_CONNECTED \/ state ctx = SERF_SECTRANS_CLOSING ->
  serf_sectrans_encrypt_read fuel ctx requested
  = encrypt_read_connected fuel ctx requested.
Proof.
  intros [E|E]; unfold serf_sectrans_encrypt_read; rewrite E; reflexivity.
Qed.

(** C5: in the CONNECTED state, when the read of the pending ciphertext
    buffer yields bytes, the read on the encrypt bucket returns those bytes
    with APR_SUCCESS, whatever non-error status (success or would-block)
    the pending buffer itself reported, and without any call into Secure
    Transport. *)
Theorem C5_connected_pending_served_with_success
    (fuel : nat) (ctx : sectrans_context_t) (requested : apr_size_t)
    (status : apr_status_t) (data : bytes) (p : stream_bucket) :
  state ctx = SERF_SECTRANS_CONNECTED ->
  stream_read (pending (encrypt ctx)) requested = (status, data, p) ->
  data <> [] ->
  SERF_BUCKET_READ_ERROR status = false ->
  serf_sectrans_encrypt_read fuel ctx requested
  = Some (APR_SUCCESS, data, set_encrypt_pending ctx p)
  /\ st_ctxr (set_encrypt_pending ctx p) = st_ctxr ctx.
Proof.
  intros Hst Hrd Hdata Herr. split; [|reflexivity].
  rewrite encrypt_read_not_handshaking by (left; exact Hst).
  unfold encrypt_read_connected. rewrite Hrd, Herr.
  destruct (truthy (blen data)) eqn:E; [reflexivity|].
  apply truthy_blen in E. contradiction.
Qed.

(** C6: in the CONNECTED state, when the read of the pending ciphertext
    buffer yields no bytes and the outgoing plaintext stream reports
    APR_EAGAIN with no bytes, the read on the encrypt bucket returns
    APR_EAGAIN with no bytes; SSLWrite is not called (the session object
    and its recorded calls are unchanged) and nothing of the context
    changes but the two buckets that were read. *)
Theorem C6_connected_nothing_to_encrypt
    (fuel : nat) (ctx : sectrans_context_t) (requested : apr_size_t)
    (status : apr_status_t) (p : stream_bucket) (s : source) :
  state ctx = SERF_SECTRANS_CONNECTED ->
  stream_read (pending (encrypt ctx)) requested = (status, [], p) ->
  SERF_BUCKET_READ_ERROR status = false ->
  serf_bucket_read (stream (encrypt ctx)) requested = (APR_EAGAIN, [], s) ->
  let ctx' := set_encrypt_stream (set_encrypt_pending ctx p) s in
  serf_sectrans_encrypt_read fuel ctx requested = Some (APR_EAGAIN, [], ctx')
  /\ st_ctxr ctx' = st_ctxr ctx
  /\ st_calls (st_ctxr ctx') = st_calls (st_ctxr ctx)
  /\ state ctx' = state ctx
  /\ decrypt ctx' = decrypt ctx
  /\ ctx' = set_encrypt ctx {| pending := p; stream := s |}.
Proof.
  intros Hst Hrd Herr Hsrc. simpl. repeat split.
  rewrite encrypt_read_not_handshaking by (left; exact Hst).
  unfold encrypt_read_connected. rewrite Hrd, Herr. simpl.
  rewrite Hsrc. reflexivity.
Qed.

(** ** The session state along reads on the encrypt bucket *)

Lemma frame_encrypt_pending_read c n st d p :
  stream_read (pending (encrypt c)) n = (st, d, p) ->
  session_frame c (set_encrypt_pending c p).
Proof.
  intros E. pose proof (frame_encrypt_read_pending c n) as F.
  rewrite E in F. exact F.
Qed.

Lemma frame_decrypt_pending_read c n st d p :
  stream_read (pending (decrypt c)) n = (st, d, p) ->
  session_frame c (set_decrypt_pending c p).
Proof.
  intros E. pose proof (frame_decrypt_read_pending c n) as F.
  rewrite E in F. exact F.
Qed.

Lemma frame_encrypt_read_connected fuel c n r :
  encrypt_read_connected fuel c n = Some r -> session_frame c r.2.
Proof.
  unfold encrypt_read_connected.
  destruct (stream_read (pending (encrypt c)) n) as [[st d] p] eqn:E1.
  pose proof (frame_encrypt_pending_read _ _ _ _ _ E1) as F1.
  destruct (SERF_BUCKET_READ_ERROR st); [intros [= <-]; exact F1|].
  destruct (truthy (blen d)); [intros [= <-]; exact F1|].
  destruct (serf_bucket_read _ _) as [[su ud] s] eqn:E2.
  assert (F2 : session_frame c (set_encrypt_stream (set_encrypt_pending c p) s))
    by (eapply session_frame_trans; [exact F1|apply frame_set_encrypt_stream]).
  destruct (SERF_BUCKET_READ_ERROR su); [intros [= <-]; exact F2|].
  destruct (truthy (blen ud)); [|intros [= <-]; exact F2].
  destruct (st_SSLWrite _ _ _) as [[[ss w] c3]|] eqn:E3; simpl;
    [|discriminate].
  apply frame_SSLWrite in E3. simpl in E3.
  assert (F3 : session_frame c c3) by (eapply session_frame_trans; eassumption).
  destruct (SERF_BUCKET_READ_ERROR _); [intros [= <-]; exact F3|].
  destruct (stream_read (pending (encrypt c3)) n) as [[st4 d4] p4] eqn:E4.
  pose proof (frame_encrypt_pending_read _ _ _ _ _ E4) as F4.
  assert (F5 : session_frame c (set_encrypt_pending c3 p4))
    by (eapply session_frame_trans; eassumption).
  destruct (SERF_BUCKET_READ_ERROR st4); [intros [= <-]; exact F5|].
  destruct (st4 =? APR_SUCCESS); intros [= <-]; exact F5.
Qed.

(** The three ways a read on the encrypt bucket ends while the handshake
    is pending. *)
Lemma encrypt_read_handshaking fuel ctx n r :
  state ctx = SERF_SECTRANS_INIT \/ state ctx = SERF_SECTRANS_HANDSHAKE ->
  serf_sectrans_encrypt_read fuel ctx n = Some r ->
  exists hs ctx1,
    do_handshake fuel (set_state ctx SERF_SECTRANS_HANDSHAKE) = Some (hs, ctx1)
    /\ session_frame (set_state ctx SERF_SECTRANS_HANDSHAKE) ctx1
    /\ ((SERF_BUCKET_READ_ERROR hs = true /\ r = (hs, [], ctx1))
        \/ (hs = APR_SUCCESS
            /\ encrypt_read_connected fuel
                 (set_state ctx1 SERF_SECTRANS_CONNECTED) n = Some r)
        \/ (SERF_BUCKET_READ_ERROR hs = false /\ hs <> APR_SUCCESS
            /\ r = ((stream_read (pending (encrypt ctx1)) n).1,
                    set_encrypt_pending ctx1
                      (stream_read (pending (encrypt ctx1)) n).2))).
Proof.
  intros Hst E. unfold serf_sectrans_encrypt_read in E.
  assert (E' :
    ('(status, ssl_ctx) ← do_handshake fuel
                            (set_state ctx SERF_SECTRANS_HANDSHAKE);
     if SERF_BUCKET_READ_ERROR status then Some (status, [], ssl_ctx)
     else if negb (truthy status) then
       encrypt_read_connected fuel
         (set_state ssl_ctx SERF_SECTRANS_CONNECTED) n
     else
       let '(status, data, p) := stream_read (pending (encrypt ssl_ctx)) n in
       Some (status, data, set_encrypt_pending ssl_ctx p)) = Some r)
    by (destruct Hst as [H|H]; rewrite H in E; exact E).
  clear E.
  destruct (do_handshake _ _) as [[hs ctx1]|] eqn:Ed; simpl in E';
    [|discriminate].
  exists hs, ctx1. split; [reflexivity|].
  split; [apply (frame_do_handshake _ _ _ Ed)|].
  destruct (SERF_BUCKET_READ_ERROR hs) eqn:Eerr.
  - left. split; [reflexivity|congruence].
  - right. destruct (truthy hs) eqn:Et; simpl in E'.
    + right. split; [reflexivity|]. split; [apply truthy_true, Et|].
      destruct (stream_read _ _) as [[st d] p]. simpl. congruence.
    + left. split; [apply truthy_false, Et|exact E'].
Qed.

Lemma encrypt_read_state_le fuel ctx n r :
  serf_sectrans_encrypt_read fuel ctx n = Some r ->
  state_le (state ctx) (state r.2).
Proof.
  intros E. unfold state_le.
  destruct (state ctx) eqn:Hst.
  1,2: apply encrypt_read_handshaking in E; [|rewrite Hst; auto];
       destruct E as (hs & ctx1 & _ & F & [[_ ->]|[[_ E]|(_ & _ & ->)]]);
       try (apply frame_encrypt_read_connected in E;
            rewrite (frame_state _ _ E));
       simpl; try rewrite (frame_state _ _ F); simpl; lia.
  1,2: rewrite encrypt_read_not_handshaking in E by (rewrite Hst; auto);
       apply frame_encrypt_read_connected in E;
       rewrite (frame_state _ _ E), Hst; simpl; lia.
Qed.

Lemma encrypt_reads_sorted fuel :
  forall reqs ctx results,
    encrypt_reads fuel ctx reqs = Some results ->
    StronglySorted state_le
      (state ctx :: map (fun r : read_result => state r.2) results).
Proof.
  induction reqs as [|n reqs IH]; intros ctx results E; simpl in E.
  - injection E as <-. repeat constructor.
  - destruct (serf_sectrans_encrypt_read fuel ctx n) as [r|] eqn:Er;
      [|discriminate].
    destruct (encrypt_reads fuel r.2 reqs) as [rs|] eqn:Ers; [|discriminate].
    injection E as <-. simpl.
    pose proof (IH _ _ Ers) as S. apply encrypt_read_state_le in Er.
    constructor; [exact S|].
    apply StronglySorted_inv in S as [_ Hall].
    constructor; [exact Er|].
    eapply Forall_impl; [exact Hall|].
    intros s Hs. unfold state_le in *. lia.
Qed.

Lemma pending_read_status (p : stream_bucket) (n : apr_size_t) :
  eof_callback p = pending_stream_eof ->
  ((stream_read p n).1.1 = APR_EAGAIN /\ queue (stream_read p n).2 = [])
  \/ ((stream_read p n).1.1 = APR_SUCCESS /\ queue (stream_read p n).2 <> []).
Proof.
  intros Heof. rewrite stream_read_status.
  destruct (queue (stream_read p n).2) eqn:Eq.
  - left. split; [|reflexivity]. unfold stream_eof.
    rewrite stream_read_bucket. simpl. rewrite Heof. reflexivity.
  - right. split; [reflexivity|discriminate].
Qed.

Lemma encrypt_read_handshake_pending fuel ctx n hs ctx1 :
  state ctx = SERF_SECTRANS_INIT \/ state ctx = SERF_SECTRANS_HANDSHAKE ->
  do_handshake fuel (set_state ctx SERF_SECTRANS_HANDSHAKE) = Some (hs, ctx1) ->
  hs <> APR_SUCCESS ->
  serf_sectrans_encrypt_read fuel ctx n
  = Some (if SERF_BUCKET_READ_ERROR hs then (hs, [], ctx1)
          else ((stream_read (pending (encrypt ctx1)) n).1,
                set_encrypt_pending ctx1
                  (stream_read (pending (encrypt ctx1)) n).2)).
Proof.
  intros Hst Hd Hne. unfold serf_sectrans_encrypt_read.
  destruct Hst as [-> | ->]; rewrite Hd; simpl;
    (destruct (SERF_BUCKET_READ_ERROR hs); [reflexivity|]);
    apply truthy_true in Hne; rewrite Hne; simpl;
    destruct (stream_read (pending (encrypt ctx1)) n) as [[st d] p];
    reflexivity.
Qed.

(** C9 (as amended): along every sequence of reads on the encrypt bucket
    the session state never moves backward; and a read made while the
    state is INIT or HANDSHAKE ends with the state CONNECTED, or with the
    state HANDSHAKE and either a fatal error and no data, or the result of
    reading the pending ciphertext buffer: APR_EAGAIN when that read leaves
    the buffer empty, APR_SUCCESS when handshake bytes stay queued, and
    then with handshake bytes as data if at least one byte was asked for.
    The read does return in the second way whenever the handshake step
    returns a status other than success. *)
Theorem C9_handshake_reads_never_move_backward
    (fuel : nat) (ctx : sectrans_context_t) (reqs : list apr_size_t)
    (results : list read_result) (requested : apr_size_t)
    (status : apr_status_t) (data : bytes) (ctx' : sectrans_context_t)
    (hs : apr_status_t) (ctx1 : sectrans_context_t) :
  (encrypt_reads fuel ctx reqs = Some results ->
   StronglySorted state_le
     (state ctx :: map (fun r : read_result => state r.2) results))
  /\ (state ctx = SERF_SECTRANS_INIT \/ state ctx = SERF_SECTRANS_HANDSHAKE ->
      eof_callback (pending (encrypt ctx)) = pending_stream_eof ->
      serf_sectrans_encrypt_read fuel ctx requested
      = Some (status, data, ctx') ->
      state ctx' = SERF_SECTRANS_CONNECTED
      \/ (state ctx' = SERF_SECTRANS_HANDSHAKE
          /\ ((SERF_BUCKET_READ_ERROR status = true /\ data = [])
              \/ (status = APR_EAGAIN /\ queue (pending (encrypt ctx')) = [])
              \/ (status = APR_SUCCESS
                  /\ queue (pending (encrypt ctx')) <> []
                  /\ (0 < requested -> data <> [])))))
  /\ (state ctx = SERF_SECTRANS_INIT \/ state ctx = SERF_SECTRANS_HANDSHAKE ->
      do_handshake fuel (set_state ctx SERF_SECTRANS_HANDSHAKE)
      = Some (hs, ctx1) ->
      hs <> APR_SUCCESS ->
      state ctx1 = SERF_SECTRANS_HANDSHAKE
      /\ serf_sectrans_encrypt_read fuel ctx requested
         = Some (if SERF_BUCKET_READ_ERROR hs then (hs, [], ctx1)
                 else ((stream_read (pending (encrypt ctx1)) requested).1,
                       set_encrypt_pending ctx1
                         (stream_read (pending (encrypt ctx1)) requested).2))).
Proof.
  split; [apply encrypt_reads_sorted|]. split.
  - intros Hst Heof E.
    apply encrypt_read_handshaking in E; [|exact Hst].
    destruct E as (hs' & c1 & _ & F & [[Herr E]|[[_ E]|(_ & _ & E)]]).
    + injection E as -> -> ->. right.
      split; [rewrite (frame_state _ _ F); reflexivity|]. left.
      split; [exact Herr|reflexivity].
    + left. apply frame_encrypt_read_connected in E.
      apply frame_state in E. exact E.
    + right.
      assert (Heof1 : eof_callback (pending (encrypt c1)) = pending_stream_eof)
        by (rewrite (frame_encrypt_eof _ _ F); exact Heof).
      pose proof (stream_read_split (pending (encrypt c1)) requested) as Hsp.
      pose proof (stream_read_nonempty (pending (encrypt c1)) requested)
        as Hne.
      destruct (stream_read (pending (encrypt c1)) requested)
        as [[st d] p] eqn:Erd.
      simpl in E, Hsp, Hne. injection E as -> -> ->.
      split; [simpl; rewrite (frame_state _ _ F); reflexivity|]. right.
      pose proof (pending_read_status _ requested Heof1) as Hps.
      rewrite Erd in Hps. simpl in Hps.
      destruct Hps as [Hps|[Hs Hq]]; [left; exact Hps|right].
      split; [exact Hs|]. split; [exact Hq|].
      intros Hreq. apply Hne; [|exact Hreq].
      intros Hempty. rewrite Hempty in Hsp.
      apply app_eq_nil in Hsp as [_ Hsp]. contradiction.
  - intros Hst Hd Hne. split.
    + apply frame_do_handshake in Hd. apply frame_state in Hd. exact Hd.
    + apply encrypt_read_handshake_pending; assumption.
Qed.

(** ** The pending buffers stay open *)

Lemma init_context_pending_open alloc mem :
  pending_open (sectrans_init_context alloc mem).1.
Proof.
  unfold sectrans_init_context.
  destruct (SSLNewContext false) as [s0 st0].
  destruct (truthy s0); [split; reflexivity|].
  destruct (SSLSetIOFuncs st0) as [s1 st1].
  destruct (truthy s1); [split; reflexivity|].
  destruct (SSLSetConnection st1) as [s2 st2].
  destruct (truthy s2); [split; reflexivity|].
  destruct (SSLSetSessionOption_BreakOnServerAuth st2 true) as [s3 st3].
  destruct (truthy s3); [split; reflexivity|].
  destruct (SSLSetEnableCertVerify st3 false) as [s4 st4].
  destruct (truthy s4); split; reflexivity.
Qed.

Lemma apply_pending_ops_callback (ops : list pending_op) :
  forall p, eof_callback (apply_pending_ops p ops) = eof_callback p.
Proof.
  unfold apply_pending_ops.
  induction ops as [|op ops IH]; intros p; simpl; [reflexivity|].
  rewrite IH. destruct op; simpl; [reflexivity|].
  rewrite stream_read_bucket. reflexivity.
Qed.

Lemma open_stream_eof (p : stream_bucket) :
  eof_callback p = pending_stream_eof -> stream_eof p = APR_EAGAIN.
Proof. intros E. unfold stream_eof. rewrite E. reflexivity. Qed.

Lemma session_frame_pending_open c c' :
  session_frame c c' -> pending_open c -> pending_open c'.
Proof.
  intros F [He Hd]. split.
  - rewrite (frame_encrypt_eof _ _ F). exact He.
  - rewrite (frame_decrypt_eof _ _ F). exact Hd.
Qed.

Lemma pending_open_set_state c s : pending_open c -> pending_open (set_state c s).
Proof. intros H. exact H. Qed.

Lemma encrypt_read_pending_open fuel c n r :
  serf_sectrans_encrypt_read fuel c n = Some r ->
  pending_open c -> pending_open r.2.
Proof.
  intros E Ho.
  destruct (state c) eqn:Hst.
  1,2: apply encrypt_read_handshaking in E; [|rewrite Hst; auto];
       destruct E as (hs & ctx1 & _ & F & [[_ ->]|[[_ E]|(_ & _ & ->)]]);
       pose proof (session_frame_pending_open _ _ F Ho) as Ho1;
       [ exact Ho1
       | apply frame_encrypt_read_connected in E;
         exact (session_frame_pending_open _ _ E Ho1)
       | exact (session_frame_pending_open _ _
                  (frame_encrypt_read_pending ctx1 n) Ho1) ].
  1,2: rewrite encrypt_read_not_handshaking in E by (rewrite Hst; auto);
       apply frame_encrypt_read_connected in E;
       exact (session_frame_pending_open _ _ E Ho).
Qed.

Lemma frame_decrypt_more_data fuel c r :
  decrypt_more_data fuel c = Some r -> session_frame c r.2.
Proof.
  unfold decrypt_more_data. intros E.
  destruct (st_SSLRead _ _ _) as [[[ss d] c1]|] eqn:Er; simpl in E;
    [|discriminate].
  apply frame_SSLRead in Er. simpl in Er.
  destruct (SERF_BUCKET_READ_ERROR _); injection E as <-; [exact Er|].
  eapply session_frame_trans; [exact Er|apply frame_decrypt_append].
Qed.

Lemma frame_decrypt_loop fuel rounds :
  forall c r, decrypt_loop fuel rounds c = Some r -> session_frame c r.2.
Proof.
  induction rounds as [|rounds IH]; intros c r E; simpl in E; [discriminate|].
  destruct (decrypt_more_data fuel c) as [[st c1]|] eqn:Ed; simpl in E;
    [|discriminate].
  apply frame_decrypt_more_data in Ed. simpl in Ed.
  destruct (SERF_BUCKET_READ_ERROR st); [injection E as <-; exact Ed|].
  destruct (st =? APR_SUCCESS); [|injection E as <-; exact Ed].
  apply IH in E. eapply session_frame_trans; eassumption.
Qed.

Lemma frame_decrypt_read fuel rounds c n r :
  serf_sectrans_decrypt_read fuel rounds c n = Some r -> session_frame c r.2.
Proof.
  unfold serf_sectrans_decrypt_read.
  destruct (stream_read (pending (decrypt c)) n) as [[st d] p] eqn:E1.
  pose proof (frame_decrypt_pending_read _ _ _ _ _ E1) as F1.
  destruct (SERF_BUCKET_READ_ERROR st); [intros [= <-]; exact F1|].
  destruct (truthy (blen d)); [intros [= <-]; exact F1|].
  destruct (decrypt_loop _ _ _) as [[[early st2] c2]|] eqn:El; [|discriminate].
  apply frame_decrypt_loop in El. simpl in El.
  assert (F2 : session_frame c c2) by (eapply session_frame_trans; eassumption).
  destruct early; [intros [= <-]; exact F2|].
  destruct (stream_read (pending (decrypt c2)) n) as [[st3 d3] p3] eqn:E3.
  intros [= <-]. eapply session_frame_trans; [exact F2|].
  eapply frame_decrypt_pending_read; eassumption.
Qed.

(** C8: the end-of-stream callback of the pending buffers answers
    APR_EAGAIN, never APR_EOF; sectrans_init_context installs it on both
    pending buffers, and the reads on the two buckets keep it installed;
    whatever is appended to or read from such a buffer, its end-of-stream
    query answers APR_EAGAIN, a read of it never reports APR_EOF, and a
    read of it when it is empty reports APR_EAGAIN with no bytes and
    leaves it as it was. *)
Theorem C8_pending_buffers_never_report_eof
    (baton : baton_t) (q : bytes) (alloc : serf_bucket_alloc_t)
    (mem ctx : sectrans_context_t) (fuel rounds : nat)
    (requested : apr_size_t) (r : read_result) (ops : list pending_op) :
  pending_stream_eof baton q = APR_EAGAIN
  /\ APR_STATUS_IS_EOF (pending_stream_eof baton q) = false
  /\ pending_open (sectrans_init_context alloc mem).1
  /\ (pending_open ctx ->
      (serf_sectrans_encrypt_read fuel ctx requested = Some r ->
       pending_open r.2)
      /\ (serf_sectrans_decrypt_read fuel rounds ctx requested = Some r ->
          pending_open r.2)
      /\ forall p0,
           p0 = pending (encrypt ctx) \/ p0 = pending (decrypt ctx) ->
           let p := apply_pending_ops p0 ops in
           stream_eof p = APR_EAGAIN
           /\ stream_eof p <> APR_EOF
           /\ (stream_read p requested).1.1 <> APR_EOF
           /\ (queue p = [] ->
               stream_read p requested = (APR_EAGAIN, [], p))).
Proof.
  split; [reflexivity|]. split; [reflexivity|].
  split; [apply init_context_pending_open|].
  intros Ho. split; [|split].
  - intros E. eapply encrypt_read_pending_open; eassumption.
  - intros E. apply frame_decrypt_read in E.
    eapply session_frame_pending_open; eassumption.
  - intros p0 Hp0 p.
    assert (Hcb : eof_callback p = pending_stream_eof).
    { unfold p. rewrite apply_pending_ops_callback.
      destruct Ho as [He Hd]. destruct Hp0 as [-> | ->]; assumption. }
    pose proof (open_stream_eof _ Hcb) as Heof.
    split; [exact Heof|]. split; [rewrite Heof; discriminate|]. split.
    + destruct (pending_read_status p requested Hcb) as [[-> _]|[-> _]];
        discriminate.
    + intros Hq. rewrite (stream_read_empty _ _ Hq), Heof. reflexivity.
Qed.

(** ** Reads on the decrypt bucket *)

Lemma calls_SSLRead fuel c n r :
  st_SSLRead fuel c n = Some r ->
  st_calls (st_ctxr r.2) = st_calls (st_ctxr c) ++ [Call_SSLRead n].
Proof.
  unfold st_SSLRead. intros E.
  destruct (run_io _ _ _) as [[x c']|] eqn:Eio; simpl in E; [|discriminate].
  injection E as <-. apply calls_run_io in Eio. simpl in *.
  rewrite Eio. reflexivity.
Qed.

Lemma calls_decrypt_more_data fuel c status c' :
  decrypt_more_data fuel c = Some (status, c') ->
  st_calls (st_ctxr c')
  = st_calls (st_ctxr c) ++ [Call_SSLRead SECURE_TRANSPORT_READ_BUFSIZE].
Proof.
  unfold decrypt_more_data. intros E.
  destruct (st_SSLRead _ _ _) as [[[ss d] c1]|] eqn:Er; simpl in E;
    [|discriminate].
  apply calls_SSLRead in Er. simpl in Er.
  destruct (SERF_BUCKET_READ_ERROR _); injection E as _ <-; exact Er.
Qed.

Lemma calls_decrypt_rounds fuel c n status c' :
  decrypt_rounds fuel c n status c' ->
  st_calls (st_ctxr c')
  = st_calls (st_ctxr c)
    ++ repeat (Call_SSLRead SECURE_TRANSPORT_READ_BUFSIZE) n.
Proof.
  induction 1 as [c status c' E _|c c1 n status c' E _ IH].
  - exact (calls_decrypt_more_data _ _ _ _ E).
  - rewrite IH, (calls_decrypt_more_data _ _ _ _ E), <- app_assoc.
    reflexivity.
Qed.

Lemma decrypt_rounds_positive fuel c n status c' :
  decrypt_rounds fuel c n status c' -> (1 <= n)%nat.
Proof. destruct 1; lia. Qed.

Lemma decrypt_loop_rounds fuel rounds :
  forall c early status c',
    decrypt_loop fuel rounds c = Some (early, status, c') ->
    exists n, (n <= rounds)%nat /\ decrypt_rounds fuel c n status c'
              /\ early = SERF_BUCKET_READ_ERROR status.
Proof.
  induction rounds as [|rounds IH]; intros c early status c' E; simpl in E;
    [discriminate|].
  destruct (decrypt_more_data fuel c) as [[st c1]|] eqn:Ed; simpl in E;
    [|discriminate].
  destruct (SERF_BUCKET_READ_ERROR st) eqn:Eerr.
  - injection E as <- <- <-. exists 1%nat. split; [lia|].
    split; [|congruence]. constructor; [exact Ed|].
    apply read_error_nonzero, Eerr.
  - destruct (Z.eqb_spec st APR_SUCCESS) as [->|Hne].
    + apply IH in E as (n & Hn & Hr & He). exists (S n).
      split; [lia|]. split; [|exact He].
      eapply decrypt_rounds_again; eassumption.
    + injection E as <- <- <-. exists 1%nat. split; [lia|].
      split; [|congruence]. constructor; assumption.
Qed.

Lemma decrypt_rounds_loop fuel c n status c' :
  decrypt_rounds fuel c n status c' ->
  forall rounds, (n <= rounds)%nat ->
    decrypt_loop fuel rounds c
    = Some (SERF_BUCKET_READ_ERROR status, status, c').
Proof.
  induction 1 as [c status c' E Hne|c c1 n status c' E _ IH];
    intros rounds Hle; (destruct rounds as [|rounds]; [lia|]); simpl;
    rewrite E; simpl.
  - destruct (SERF_BUCKET_READ_ERROR status); [reflexivity|].
    apply Z.eqb_neq in Hne. rewrite Hne. reflexivity.
  - apply IH. lia.
Qed.

(** C3: a read on the decrypt bucket first reads the pending plaintext
    buffer.  When that yields bytes they are returned at once, with the
    status of that read and without a call into Secure Transport.  When it
    yields none, decrypt_more_data is invoked at least once and again
    exactly as long as it returns APR_SUCCESS (each invocation is one
    SSLRead); if the last invocation returns a read error, that error is
    what the read returns, and if it returns another status, the read
    returns the result of reading the pending buffer again.  Such a run of
    [n] invocations is the result as soon as [rounds] allows [n]
    iterations. *)
Theorem C3_decrypt_read_serves_pending_then_decrypts
    (fuel rounds : nat) (ctx : sectrans_context_t) (requested : apr_size_t)
    (status : apr_status_t) (data : bytes) (p : stream_bucket) :
  stream_read (pending (decrypt ctx)) requested = (status, data, p) ->
  SERF_BUCKET_READ_ERROR status = false ->
  let ctx0 := set_decrypt_pending ctx p in
  (data <> [] ->
   serf_sectrans_decrypt_read fuel rounds ctx requested
   = Some (status, data, ctx0)
   /\ st_ctxr ctx0 = st_ctxr ctx)
  /\ (data = [] ->
      (forall r,
          serf_sectrans_decrypt_read fuel rounds ctx requested = Some r ->
          exists n last c',
            (1 <= n <= rounds)%nat
            /\ decrypt_rounds fuel ctx0 n last c'
            /\ st_calls (st_ctxr c')
               = st_calls (st_ctxr ctx)
                 ++ repeat (Call_SSLRead SECURE_TRANSPORT_READ_BUFSIZE) n
            /\ r = after_decrypt_rounds last c' requested)
      /\ (forall n last c',
             decrypt_rounds fuel ctx0 n last c' -> (n <= rounds)%nat ->
             serf_sectrans_decrypt_read fuel rounds ctx requested
             = Some (after_decrypt_rounds last c' requested))).
Proof.
  intros Hrd Herr ctx0. split; [|split].
  - intros Hdata. split; [|reflexivity].
    unfold serf_sectrans_decrypt_read. rewrite Hrd, Herr.
    destruct (truthy (blen data)) eqn:E; [reflexivity|].
    apply truthy_blen in E. contradiction.
  - subst data. intros r E.
    unfold serf_sectrans_decrypt_read in E. rewrite Hrd, Herr in E.
    simpl in E. fold ctx0 in E.
    destruct (decrypt_loop fuel rounds ctx0) as [[[early last] c']|] eqn:El;
      [|discriminate].
    apply decrypt_loop_rounds in El as (n & Hn & Hr & He).
    exists n, last, c'.
    split; [pose proof (decrypt_rounds_positive _ _ _ _ _ Hr); lia|].
    split; [exact Hr|].
    split; [exact (calls_decrypt_rounds _ _ _ _ _ Hr)|].
    unfold after_decrypt_rounds. rewrite <- He.
    destruct early; [injection E as <-; reflexivity|].
    destruct (stream_read (pending (decrypt c')) requested) as [[st d] p'].
    simpl. injection E as <-. reflexivity.
  - subst data. intros n last c' Hr Hn.
    unfold serf_sectrans_decrypt_read. rewrite Hrd, Herr. simpl.
    fold ctx0. rewrite (decrypt_rounds_loop _ _ _ _ _ Hr _ Hn).
    unfold after_decrypt_rounds.
    destruct (SERF_BUCKET_READ_ERROR last); [reflexivity|].
    destruct (stream_read (pending (decrypt c')) requested) as [[st d] p'].
    reflexivity.
Qed.

(** ** The read callback *)

Lemma blen_app (a b : bytes) : blen (a ++ b) = blen a + blen b.
Proof. unfold blen. rewrite length_app. lia. Qed.

Lemma size_wrap_idemp (z : Z) : size_wrap (size_wrap z) = size_wrap z.
Proof. unfold size_wrap. apply Z.mod_mod. discriminate. Qed.

Lemma size_wrap_add_l (a b : Z) : size_wrap (size_wrap a + b) = size_wrap (a + b).
Proof. unfold size_wrap. apply Z.add_mod_idemp_l. discriminate. Qed.

Lemma size_wrap_sub_l (a b : Z) : size_wrap (size_wrap a - b) = size_wrap (a - b).
Proof. unfold size_wrap. apply Zminus_mod_idemp_l. Qed.

Lemma read_cb_loop_unfold fuel v :
  sectrans_read_cb_loop fuel v
  = if negb (truthy (rc_status v)) && truthy (rc_requested v) then
      match fuel with
      | O => None
      | S fuel' =>
        let '(status, buf, s) :=
          serf_bucket_read (rc_stream v) (rc_requested v) in
        if SERF_BUCKET_READ_ERROR status then
          Some (true, {| rc_stream := s; rc_status := status;
                         rc_requested := rc_requested v;
                         rc_outbuf := rc_outbuf v;
                         rc_dataLength := rc_dataLength v |})
        else if truthy (blen buf) then
          sectrans_read_cb_loop fuel'
            {| rc_stream := s; rc_status := status;
               rc_requested := size_wrap (rc_requested v - blen buf);
               rc_outbuf := rc_outbuf v ++ buf;
               rc_dataLength := size_wrap (rc_dataLength v + blen buf) |}
        else
          sectrans_read_cb_loop fuel'
            {| rc_stream := s; rc_status := status;
               rc_requested := rc_requested v;
               rc_outbuf := rc_outbuf v;
               rc_dataLength := rc_dataLength v |}
      end
    else Some (false, v).
Proof. destruct fuel; reflexivity. Qed.

Lemma loop_condition_true status requested :
  negb (truthy status) && truthy requested = true <->
  status = APR_SUCCESS /\ requested <> 0.
Proof.
  rewrite andb_true_iff, negb_true_iff, truthy_false, truthy_true.
  reflexivity.
Qed.

Lemma loop_condition_false status requested :
  negb (truthy status) && truthy requested = false <->
  status <> APR_SUCCESS \/ requested = 0.
Proof.
  rewrite andb_false_iff, negb_false_iff, truthy_false, truthy_true.
  reflexivity.
Qed.

Lemma copied_cons_ok status buf chunks :
  SERF_BUCKET_READ_ERROR status = false ->
  copied ((status, buf) :: chunks) = buf ++ copied chunks.
Proof. intros E. unfold copied. simpl. rewrite E. reflexivity. Qed.

(** What one run of the loop does, in terms of the reads it makes. *)
Lemma read_cb_loop_pulls fuel :
  forall v early v',
    size_wrap (rc_dataLength v) = rc_dataLength v ->
    sectrans_read_cb_loop fuel v = Some (early, v') ->
    exists chunks,
      pulls (rc_stream v) (rc_status v) (rc_requested v) chunks (rc_stream v')
      /\ (length chunks <= fuel)%nat
      /\ rc_outbuf v' = rc_outbuf v ++ copied chunks
      /\ rc_dataLength v' = size_wrap (rc_dataLength v + blen (copied chunks))
      /\ size_wrap (rc_requested v')
         = size_wrap (rc_requested v - blen (copied chunks))
      /\ rc_status v'
         = match last chunks with None => rc_status v | Some c => c.1 end
      /\ early
         = match last chunks with
           | None => false
           | Some c => SERF_BUCKET_READ_ERROR c.1
           end
      /\ (early = false -> rc_status v' <> APR_SUCCESS \/ rc_requested v' = 0).
Proof.
  induction fuel as [|fuel IH]; intros v early v' Hdl E;
    rewrite read_cb_loop_unfold in E;
    destruct (negb (truthy (rc_status v)) && truthy (rc_requested v)) eqn:Ec.
  - discriminate.
  - injection E as <- <-. apply loop_condition_false in Ec.
    exists []. simpl. rewrite app_nil_r, Z.add_0_r, Z.sub_0_r.
    repeat split; auto. constructor. exact Ec.
  - apply loop_condition_true in Ec as [Hs Hr].
    destruct (serf_bucket_read (rc_stream v) (rc_requested v))
      as [[st buf] s] eqn:Er.
    destruct (SERF_BUCKET_READ_ERROR st) eqn:Eerr.
    { injection E as <- <-. exists [(st, buf)]. simpl.
      unfold copied. simpl. rewrite Eerr. simpl.
      rewrite app_nil_r, Z.add_0_r, Z.sub_0_r.
      repeat split; auto; try lia; try discriminate.
      rewrite Hs. eapply pulls_error; eassumption. }
    destruct (truthy (blen buf)) eqn:Eb.
    + apply IH in E; [|apply size_wrap_idemp].
      destruct E as (chunks & Hp & Hlen & Hout & Hd & Hq & Hst & Hea & Hstop).
      simpl in *. exists ((st, buf) :: chunks).
      rewrite (copied_cons_ok _ _ _ Eerr), blen_app, last_cons.
      split; [rewrite Hs; eapply pulls_more; try eassumption;
              rewrite Eb; exact Hp|].
      split; [simpl; lia|].
      split; [rewrite Hout, <- app_assoc; reflexivity|].
      split; [rewrite Hd, size_wrap_add_l; f_equal; lia|].
      split; [rewrite Hq, size_wrap_sub_l; f_equal; lia|].
      split; [rewrite Hst; destruct (last chunks); reflexivity|].
      split; [rewrite Hea; destruct (last chunks); simpl; congruence|].
      exact Hstop.
    + apply IH in E; [|exact Hdl].
      destruct E as (chunks & Hp & Hlen & Hout & Hd & Hq & Hst & Hea & Hstop).
      simpl in *. exists ((st, buf) :: chunks).
      apply truthy_blen in Eb as Hbuf. subst buf.
      rewrite (copied_cons_ok _ _ _ Eerr), last_cons. simpl app.
      split; [rewrite Hs; eapply pulls_more; try eassumption;
              rewrite Eb; exact Hp|].
      split; [simpl; lia|].
      split; [exact Hout|]. split; [exact Hd|]. split; [exact Hq|].
      split; [rewrite Hst; destruct (last chunks); reflexivity|].
      split; [rewrite Hea; destruct (last chunks); simpl; congruence|].
      exact Hstop.
  - injection E as <- <-. apply loop_condition_false in Ec.
    exists []. simpl. rewrite app_nil_r, Z.add_0_r, Z.sub_0_r.
    repeat split; auto; try lia. constructor. exact Ec.
Qed.

Lemma pulls_deterministic s status requested chunks1 s1 :
  pulls s status requested chunks1 s1 ->
  forall chunks2 s2,
    pulls s status requested chunks2 s2 -> chunks1 = chunks2 /\ s1 = s2.
Proof.
  induction 1 as [s status requested Hstop
                 |s requested status buf s1 Hr Hread Herr
                 |s requested status buf s1 chunks s' Hr Hread Herr _ IH];
    intros chunks2 s2 H2; inversion H2; subst.
  - split; reflexivity.
  - destruct Hstop; congruence.
  - destruct Hstop; congruence.
  - match goal with H : _ \/ _ |- _ => destruct H; congruence end.
  - split; congruence.
  - congruence.
  - match goal with H : _ \/ _ |- _ => destruct H; congruence end.
  - congruence.
  - match goal with
    | H : serf_bucket_read _ _ = _, H' : serf_bucket_read _ _ = _ |- _ =>
      rewrite H in H'; injection H' as <- <- <-
    end.
    match goal with
    | H : pulls _ _ _ _ _ |- _ => destruct (IH _ _ H) as [-> ->]
    end.
    split; reflexivity.
Qed.

Lemma pulls_loop s status requested chunks s' :
  pulls s status requested chunks s' ->
  forall fuel v,
    rc_stream v = s -> rc_status v = status -> rc_requested v = requested ->
    (length chunks <= fuel)%nat ->
    exists early v', sectrans_read_cb_loop fuel v = Some (early, v').
Proof.
  induction 1 as [s status requested Hstop
                 |s requested status buf s1 Hr Hread Herr
                 |s requested status buf s1 chunks s' Hr Hread Herr _ IH];
    intros fuel v Hs Hst Hq Hlen; rewrite read_cb_loop_unfold.
  - apply loop_condition_false in Hstop. rewrite Hst, Hq, Hstop. eauto.
  - assert (Hc : negb (truthy (rc_status v)) && truthy (rc_requested v) = true)
      by (apply loop_condition_true; split; congruence).
    rewrite Hc. destruct fuel as [|fuel]; [simpl in Hlen; lia|].
    rewrite Hs, Hq, Hread, Herr. eauto.
  - assert (Hc : negb (truthy (rc_status v)) && truthy (rc_requested v) = true)
      by (apply loop_condition_true; split; congruence).
    rewrite Hc. destruct fuel as [|fuel]; [simpl in Hlen; lia|].
    rewrite Hs, Hq, Hread, Herr. simpl in Hlen.
    destruct (truthy (blen buf)); apply IH; simpl; auto; lia.
Qed.

Lemma read_cb_return_status early v chunks :
  rc_status v
  = match last chunks with None => APR_SUCCESS | Some c => c.1 end ->
  early
  = match last chunks with
    | None => false
    | Some c => SERF_BUCKET_READ_ERROR c.1
    end ->
  read_cb_return early (rc_status v) = read_cb_status chunks.
Proof.
  intros -> ->. unfold read_cb_status, read_cb_return.
  destruct (last chunks) as [[st buf]|]; [|reflexivity]. simpl.
  unfold truthy. rewrite negb_involutive. reflexivity.
Qed.

Lemma read_cb_pulls fuel ctx N ret data dl ctx' :
  sectrans_read_cb fuel ctx N = Some (ret, data, dl, ctx') ->
  exists chunks,
    pulls (stream (decrypt ctx)) APR_SUCCESS N chunks (stream (decrypt ctx'))
    /\ (length chunks <= fuel)%nat
    /\ ctx' = set_decrypt_stream ctx (stream (decrypt ctx'))
    /\ data = copied chunks
    /\ dl = size_wrap (blen data)
    /\ ret = read_cb_status chunks
    /\ (last chunks = None -> N = 0)
    /\ (forall c, last chunks = Some c -> c.1 = APR_SUCCESS ->
                  size_wrap (N - blen data) = 0).
Proof.
  unfold sectrans_read_cb. intros E.
  destruct (sectrans_read_cb_loop _ _) as [[early v]|] eqn:El; simpl in E;
    [|discriminate].
  injection E as <- <- <- <-.
  apply read_cb_loop_pulls in El; [|reflexivity].
  destruct El as (chunks & Hp & Hlen & Hout & Hd & Hq & Hst & Hea & Hstop).
  simpl in *. exists chunks.
  split; [exact Hp|]. split; [exact Hlen|]. split; [reflexivity|].
  split; [exact Hout|]. split; [rewrite Hd, Hout; reflexivity|].
  split; [apply read_cb_return_status; assumption|].
  split.
  - intros Hl. apply last_None in Hl. subst chunks.
    inversion Hp as [? ? ? Hs| |]; subst.
    destruct Hs as [Hs|Hs]; [exfalso; apply Hs; reflexivity|exact Hs].
  - intros c Hl Hc. rewrite Hl in Hst, Hea. rewrite Hc in Hea, Hst.
    rewrite read_error_success in Hea.
    destruct (Hstop Hea) as [Hne|Hz]; [congruence|].
    rewrite Hout. rewrite <- Hq, Hz. reflexivity.
Qed.

(** C4: sectrans_read_cb, asked for [N] bytes, reads the incoming
    ciphertext stream again and again, each time for the bytes still
    missing, as long as the reads succeed and bytes are missing ([pulls]).
    The bytes of the reads are copied to the caller's buffer in order, and
    their count is left in the length argument.  A read error of the source
    makes it return -1, would-block (also with no byte copied) makes it
    return errSSLWouldBlock, and success, which ends the loop only when all
    [N] bytes are there, makes it return noErr.  Every such run of reads is
    what the function does, given fuel for as many reads. *)
Theorem C4_read_callback_pulls_until_done_or_blocked
    (fuel : nat) (ctx : sectrans_context_t) (N : apr_size_t) :
  (forall ret data dl ctx',
      sectrans_read_cb fuel ctx N = Some (ret, data, dl, ctx') ->
      exists chunks,
        pulls (stream (decrypt ctx)) APR_SUCCESS N chunks
          (stream (decrypt ctx'))
        /\ ctx' = set_decrypt_stream ctx (stream (decrypt ctx'))
        /\ data = copied chunks
        /\ dl = size_wrap (blen data)
        /\ match last chunks with
           | None => N = 0 /\ ret = noErr
           | Some (status, _) =>
             (SERF_BUCKET_READ_ERROR status = true -> ret = -1)
             /\ (status = APR_EAGAIN -> ret = errSSLWouldBlock)
             /\ (status = APR_SUCCESS ->
                 ret = noErr /\ size_wrap (N - blen data) = 0)
           end)
  /\ (forall chunks s',
         pulls (stream (decrypt ctx)) APR_SUCCESS N chunks s' ->
         (length chunks <= fuel)%nat ->
         sectrans_read_cb fuel ctx N
         = Some (read_cb_status chunks, copied chunks,
                 size_wrap (blen (copied chunks)),
                 set_decrypt_stream ctx s')).
Proof.
  split.
  - intros ret data dl ctx' E.
    apply read_cb_pulls in E
      as (chunks & Hp & _ & Hctx & Hdata & Hdl & Hret & Hnone & Hsome).
    exists chunks. repeat (split; [assumption|]).
    unfold read_cb_status in Hret.
    destruct (last chunks) as [[status buf]|] eqn:Hl.
    + simpl in Hret. split; [|split].
      * intros Herr. rewrite Herr in Hret. exact Hret.
      * intros ->. exact Hret.
      * intros ->. split; [exact Hret|].
        apply (Hsome (APR_SUCCESS, buf)); reflexivity.
    + split; [apply Hnone; reflexivity|exact Hret].
  - intros chunks s' Hp Hlen.
    destruct (pulls_loop _ _ _ _ _ Hp fuel
                {| rc_stream := stream (decrypt ctx); rc_status := 0;
                   rc_requested := N; rc_outbuf := []; rc_dataLength := 0 |}
                eq_refl eq_refl eq_refl Hlen) as (early & v' & El).
    destruct (sectrans_read_cb fuel ctx N) as [[[[ret data] dl] ctx']|] eqn:E.
    + apply read_cb_pulls in E
        as (chunks' & Hp' & _ & Hctx & Hdata & Hdl & Hret & _).
      destruct (pulls_deterministic _ _ _ _ _ Hp _ _ Hp') as [<- Hs].
      rewrite Hctx, <- Hs, Hdl, Hdata, Hret. reflexivity.
    + unfold sectrans_read_cb in E. rewrite El in E. discriminate.
Qed.

(** ** The reference count of the shared context *)

Lemma init_context_refcount alloc mem :
  refcount (sectrans_init_context alloc mem).1 = 0.
Proof.
  unfold sectrans_init_context.
  destruct (SSLNewContext false) as [s0 st0].
  destruct (truthy s0); [reflexivity|].
  destruct (SSLSetIOFuncs st0) as [s1 st1].
  destruct (truthy s1); [reflexivity|].
  destruct (SSLSetConnection st1) as [s2 st2].
  destruct (truthy s2); [reflexivity|].
  destruct (SSLSetSessionOption_BreakOnServerAuth st2 true) as [s3 st3].
  destruct (truthy s3); [reflexivity|].
  destruct (SSLSetEnableCertVerify st3 false) as [s4 st4].
  destruct (truthy s4); reflexivity.
Qed.

Lemma decrypt_create_existing m bucket s a alloc mem c :
  contexts m !! a = Some c ->
  decrypt_create m bucket s (Some a) alloc mem
  = Some (set_contexts m
            (<[a := set_allocator
                      (set_decrypt_stream (set_refcount c (refcount c + 1)) s)
                      alloc]> (contexts m)),
          {| type := Some serf_bucket_type_sectrans_decrypt; data := Some a;
             bucket_allocator := alloc |},
          a).
Proof. intros H. unfold decrypt_create. simpl. rewrite H. reflexivity. Qed.

Lemma encrypt_create_existing m bucket s a alloc mem c :
  contexts m !! a = Some c ->
  encrypt_create m bucket s (Some a) alloc mem
  = Some (set_contexts m
            (<[a := set_allocator
                      (set_encrypt_stream (set_refcount c (refcount c + 1)) s)
                      alloc]> (contexts m)),
          {| type := Some serf_bucket_type_sectrans_encrypt; data := Some a;
             bucket_allocator := alloc |},
          a).
Proof. intros H. unfold encrypt_create. simpl. rewrite H. reflexivity. Qed.

Lemma decrypt_create_new m bucket s alloc mem c :
  sectrans_init_context alloc mem = (c, true) ->
  contexts m !! fresh (dom (contexts m)) = None
  /\ decrypt_create m bucket s None alloc mem
     = Some (set_contexts m
               (<[fresh (dom (contexts m))
                  := set_allocator (set_decrypt_stream (set_refcount c 1) s)
                       alloc]> (contexts m)),
             {| type := Some serf_bucket_type_sectrans_decrypt;
                data := Some (fresh (dom (contexts m)));
                bucket_allocator := alloc |},
             fresh (dom (contexts m))).
Proof.
  intros Hi. split.
  - apply not_elem_of_dom, is_fresh.
  - pose proof (init_context_refcount alloc mem) as Hr. rewrite Hi in Hr.
    simpl in Hr. unfold decrypt_create, context_for. rewrite Hi. simpl.
    rewrite lookup_insert_eq. simpl. rewrite insert_insert_eq, Hr.
    reflexivity.
Qed.

Lemma destroy_and_data_spec m bucket a c :
  data bucket = Some a ->
  contexts m !! a = Some c ->
  let m' := if refcount c - 1 =? 0 then
              {| contexts := delete a (contexts m);
                 disposed := disposed m ++ [st_ctxr c] |}
            else
              set_contexts m (<[a := set_refcount c (refcount c - 1)]>
                                (contexts m)) in
  serf_sectrans_encrypt_destroy_and_data m bucket = Some m'
  /\ serf_sectrans_decrypt_destroy_and_data m bucket = Some m'.
Proof.
  intros Hd Hc.
  unfold serf_sectrans_encrypt_destroy_and_data,
    serf_sectrans_decrypt_destroy_and_data.
  rewrite Hd. simpl. rewrite Hc.
  simpl. unfold truthy. rewrite negb_involutive.
  destruct (refcount c - 1 =? 0); [|split; reflexivity].
  unfold sectrans_free_context. simpl. rewrite lookup_insert_eq. simpl.
  rewrite delete_insert_eq. split; reflexivity.
Qed.

Lemma encrypt_create_new m bucket s alloc mem c :
  sectrans_init_context alloc mem = (c, true) ->
  contexts m !! fresh (dom (contexts m)) = None
  /\ encrypt_create m bucket s None alloc mem
     = Some (set_contexts m
               (<[fresh (dom (contexts m))
                  := set_allocator (set_encrypt_stream (set_refcount c 1) s)
                       alloc]> (contexts m)),
             {| type := Some serf_bucket_type_sectrans_encrypt;
                data := Some (fresh (dom (contexts m)));
                bucket_allocator := alloc |},
             fresh (dom (contexts m))).
Proof.
  intros Hi. split.
  - apply not_elem_of_dom, is_fresh.
  - pose proof (init_context_refcount alloc mem) as Hr. rewrite Hi in Hr.
    simpl in Hr. unfold encrypt_create, context_for. rewrite Hi. simpl.
    rewrite lookup_insert_eq. simpl. rewrite insert_insert_eq, Hr.
    reflexivity.
Qed.

(** Either create function on a new context. *)
Lemma create_new create m bucket s alloc mem c :
  create = decrypt_create \/ create = encrypt_create ->
  sectrans_init_context alloc mem = (c, true) ->
  exists c1 b',
    create m bucket s None alloc mem
    = Some (set_contexts m (<[fresh (dom (contexts m)) := c1]> (contexts m)),
            b', fresh (dom (contexts m)))
    /\ data b' = Some (fresh (dom (contexts m)))
    /\ refcount c1 = 1
    /\ st_ctxr c1 = st_ctxr c.
Proof.
  intros [-> | ->] Hi;
    [destruct (decrypt_create_new m bucket s alloc mem c Hi) as [_ H]
    |destruct (encrypt_create_new m bucket s alloc mem c Hi) as [_ H]];
    eexists _, _; (split; [exact H|]); repeat split; reflexivity.
Qed.

(** Either create function on a context that exists. *)
Lemma create_existing create m bucket s a alloc mem c :
  create = decrypt_create \/ create = encrypt_create ->
  contexts m !! a = Some c ->
  exists c1 b',
    create m bucket s (Some a) alloc mem
    = Some (set_contexts m (<[a := c1]> (contexts m)), b', a)
    /\ data b' = Some a
    /\ refcount c1 = refcount c + 1
    /\ st_ctxr c1 = st_ctxr c.
Proof.
  intros [-> | ->] Hc;
    [pose proof (decrypt_create_existing m bucket s a alloc mem c Hc) as H
    |pose proof (encrypt_create_existing m bucket s a alloc mem c Hc) as H];
    eexists _, _; (split; [exact H|]); repeat split; reflexivity.
Qed.

(** Either destroy function. *)
Lemma destroy_either destroy m bucket a c :
  destroy = serf_sectrans_encrypt_destroy_and_data
  \/ destroy = serf_sectrans_decrypt_destroy_and_data ->
  data bucket = Some a ->
  contexts m !! a = Some c ->
  destroy m bucket
  = Some (if refcount c - 1 =? 0 then
            {| contexts := delete a (contexts m);
               disposed := disposed m ++ [st_ctxr c] |}
          else
            set_contexts m (<[a := set_refcount c (refcount c - 1)]>
                              (contexts m))).
Proof.
  intros Hdestroy Hd Hc.
  destruct (destroy_and_data_spec m bucket a c Hd Hc) as [He Hdd].
  destruct Hdestroy as [-> | ->]; assumption.
Qed.

(** C7: sectrans_init_context sets the reference count to 0; creating a
    bucket of either kind on a context adds exactly one to its count, so
    that the first bucket of a session, of either kind, which makes the
    context, leaves it with a count of 1; destroying a bucket of either
    kind takes exactly one off, and disposes of the session and frees the
    context exactly when the count arrives at 0; with two buckets created
    on one context, the first of either kind and the second of either
    kind, destroying one of them, in either order, leaves the context in
    memory with a count of 1, and destroying the other then frees it and
    disposes of the session, once. *)
Theorem C7_context_reference_count
    (alloc : serf_bucket_alloc_t) (mem c : sectrans_context_t) (m : memory)
    (a : addr) (bucket b1 b2 : serf_bucket_t) (s s1 s2 : source) :
  refcount (sectrans_init_context alloc mem).1 = 0
  /\ (contexts m !! a = Some c ->
      (forall create,
          create = decrypt_create \/ create = encrypt_create ->
          exists m' b' c',
            create m bucket s (Some a) alloc mem = Some (m', b', a)
            /\ data b' = Some a
            /\ contexts m' !! a = Some c'
            /\ refcount c' = refcount c + 1
            /\ disposed m' = disposed m)
      /\ (data bucket = Some a ->
          forall destroy,
            destroy = serf_sectrans_encrypt_destroy_and_data
            \/ destroy = serf_sectrans_decrypt_destroy_and_data ->
            exists m',
              destroy m bucket = Some m'
              /\ (refcount c - 1 <> 0 ->
                  contexts m' !! a = Some (set_refcount c (refcount c - 1))
                  /\ disposed m' = disposed m)
              /\ (refcount c - 1 = 0 ->
                  contexts m' !! a = None
                  /\ disposed m' = disposed m ++ [st_ctxr c])))
  /\ ((sectrans_init_context alloc mem).2 = true ->
      forall create,
        create = decrypt_create \/ create = encrypt_create ->
        exists m' b' a0 c',
          create m bucket s None alloc mem = Some (m', b', a0)
          /\ contexts m !! a0 = None
          /\ data b' = Some a0
          /\ contexts m' !! a0 = Some c'
          /\ refcount c' = 1
          /\ disposed m' = disposed m)
  /\ ((sectrans_init_context alloc mem).2 = true ->
      forall create_first create_second,
        create_first = decrypt_create \/ create_first = encrypt_create ->
        create_second = decrypt_create \/ create_second = encrypt_create ->
        exists m1 bf m2 bs a0 session,
          create_first m b1 s1 None alloc mem = Some (m1, bf, a0)
          /\ contexts m !! a0 = None
          /\ create_second m1 b2 s2 (Some a0) alloc mem = Some (m2, bs, a0)
          /\ (exists c2, contexts m2 !! a0 = Some c2 /\ refcount c2 = 2
                         /\ st_ctxr c2 = session)
          /\ forall first second destroy_first destroy_second,
               (first = bf /\ second = bs) \/ (first = bs /\ second = bf) ->
               destroy_first = serf_sectrans_encrypt_destroy_and_data
               \/ destroy_first = serf_sectrans_decrypt_destroy_and_data ->
               destroy_second = serf_sectrans_encrypt_destroy_and_data
               \/ destroy_second = serf_sectrans_decrypt_destroy_and_data ->
               exists m3 c3 m4,
                 destroy_first m2 first = Some m3
                 /\ contexts m3 !! a0 = Some c3
                 /\ refcount c3 = 1
                 /\ disposed m3 = disposed m
                 /\ destroy_second m3 second = Some m4
                 /\ contexts m4 = contexts m
                 /\ disposed m4 = disposed m ++ [session]).
Proof.
  split; [apply init_context_refcount|]. split; [|split].
  - intros Hc. split.
    + intros create [-> | ->];
        [rewrite (decrypt_create_existing _ _ _ _ _ _ _ Hc)
        |rewrite (encrypt_create_existing _ _ _ _ _ _ _ Hc)];
        eexists _, _, _; (split; [reflexivity|]); simpl;
        rewrite lookup_insert_eq; repeat split; reflexivity.
    + intros Hd destroy Hdestroy.
      destruct (destroy_and_data_spec _ _ _ _ Hd Hc) as [He Hdd].
      eexists. split; [destruct Hdestroy as [-> | ->]; eassumption|].
      split; intros Hr.
      * apply Z.eqb_neq in Hr. rewrite Hr. simpl.
        rewrite lookup_insert_eq. split; reflexivity.
      * apply Z.eqb_eq in Hr. rewrite Hr. simpl.
        rewrite lookup_delete_eq. split; reflexivity.
  - intros Hok create Hcreate.
    destruct (sectrans_init_context alloc mem) as [c0 ok] eqn:Hi.
    simpl in Hok. subst ok.
    destruct (create_new create m bucket s alloc mem c0 Hcreate Hi)
      as (c1 & b' & Hc1 & Hd1 & Hr1 & _).
    eexists _, b', _, c1. split; [exact Hc1|].
    split; [apply not_elem_of_dom, is_fresh|]. split; [exact Hd1|].
    split; [simpl; apply lookup_insert_eq|]. split; [exact Hr1|reflexivity].
  - intros Hok create_first create_second Hfirst Hsecond.
    destruct (sectrans_init_context alloc mem) as [c0 ok] eqn:Hi.
    simpl in Hok. subst ok.
    set (a0 := fresh (dom (contexts m))).
    assert (Hfresh : contexts m !! a0 = None)
      by apply not_elem_of_dom, is_fresh.
    destruct (create_new create_first m b1 s1 alloc mem c0 Hfirst Hi)
      as (c1 & bf & Hc1 & Hdf & Hr1 & Hs1).
    fold a0 in Hc1, Hdf.
    set (m1 := set_contexts m (<[a0 := c1]> (contexts m))) in Hc1.
    assert (Hl1 : contexts m1 !! a0 = Some c1) by apply lookup_insert_eq.
    destruct (create_existing create_second m1 b2 s2 a0 alloc mem c1
                Hsecond Hl1) as (c2 & bs & Hc2 & Hds & Hr2 & Hs2).
    set (m2 := set_contexts m1 (<[a0 := c2]> (contexts m1))) in Hc2.
    assert (Hl2 : contexts m2 !! a0 = Some c2) by apply lookup_insert_eq.
    assert (Hcount2 : refcount c2 = 2) by (rewrite Hr2, Hr1; reflexivity).
    exists m1, bf, m2, bs, a0, (st_ctxr c0).
    split; [exact Hc1|]. split; [exact Hfresh|]. split; [exact Hc2|].
    split; [exists c2; split; [exact Hl2|]; split;
            [exact Hcount2|rewrite Hs2, Hs1; reflexivity]|].
    intros first second destroy_first destroy_second Horder Hdes1 Hdes2.
    assert (Hd1 : data first = Some a0)
      by (destruct Horder as [[-> _]|[-> _]]; assumption).
    assert (Hd2 : data second = Some a0)
      by (destruct Horder as [[_ ->]|[_ ->]]; assumption).
    set (c3 := set_refcount c2 (refcount c2 - 1)).
    set (m3 := set_contexts m2 (<[a0 := c3]> (contexts m2))).
    assert (Hl3 : contexts m3 !! a0 = Some c3) by apply lookup_insert_eq.
    assert (Hcount3 : refcount c3 = 1) by (simpl; rewrite Hcount2; reflexivity).
    pose proof (destroy_either destroy_first m2 first a0 c2 Hdes1 Hd1 Hl2)
      as He1.
    pose proof (destroy_either destroy_second m3 second a0 c3 Hdes2 Hd2 Hl3)
      as He2.
    rewrite Hcount2 in He1. change (2 - 1 =? 0) with false in He1.
    rewrite Hcount3 in He2. change (1 - 1 =? 0) with true in He2.
    exists m3, c3. eexists.
    split; [rewrite He1; unfold m3, c3; rewrite Hcount2; reflexivity|].
    split; [exact Hl3|]. split; [exact Hcount3|]. split; [reflexivity|].
    split; [exact He2|].
    simpl. split.
    + rewrite !delete_insert_eq. apply delete_id. exact Hfresh.
    + rewrite Hs2, Hs1. reflexivity.
Qed.

(** ** File extensions *)

Lemma byte_eqb_eq a b : Byte.eqb a b = true <-> a = b.
Proof. split; [apply Byte.byte_dec_bl|apply Byte.byte_dec_lb]. Qed.

Lemma byte_eqb_neq a b : Byte.eqb a b = false <-> a <> b.
Proof.
  split; [apply Byte.eqb_false|].
  intros H. destruct (Byte.eqb a b) eqn:E; [|reflexivity].
  apply byte_eqb_eq in E. contradiction.
Qed.

Lemma byte_eqb_refl a : Byte.eqb a a = true.
Proof. apply byte_eqb_eq. reflexivity. Qed.

Lemma strrchr_None s c : strrchr s c = None <-> ~ In c s.
Proof.
  induction s as [|b s IH]; simpl; [tauto|].
  destruct (strrchr s c) as [i|].
  - split; [discriminate|]. intros H. exfalso. apply H. right.
    destruct (in_dec Byte.byte_eq_dec c s) as [Hin|Hn]; [exact Hin|].
    apply IH in Hn. discriminate.
  - destruct (Byte.eqb b c) eqn:E.
    + apply byte_eqb_eq in E. split; [discriminate|]. intros H. exfalso. apply H. left. exact E.
    + apply byte_eqb_neq in E. split; [|reflexivity]. intros _ [H|H]; [contradiction|].
      apply (proj1 IH); [reflexivity|exact H].
Qed.

Lemma strrchr_Some s c i :
  strrchr s c = Some i <->
  exists a b, s = a ++ c :: b /\ length a = i /\ ~ In c b.
Proof.
  revert i. induction s as [|x s IH]; intros i; simpl.
  - split; [discriminate|]. intros (a & b & H & _). destruct a; discriminate.
  - destruct (strrchr s c) as [j|] eqn:Es.
    + split.
      * intros [= <-]. destruct (proj1 (IH j) eq_refl) as (a & b & -> & <- & Hb).
        exists (x :: a), b. repeat split; auto.
      * intros (a & b & H & Hl & Hb). destruct a as [|y a]; simpl in *.
        -- injection H as -> ->. apply strrchr_None in Hb. congruence.
        -- injection H as -> ->. subst i. f_equal.
           assert (E : Some j = Some (length a)) by (apply IH; eauto).
           congruence.
    + apply strrchr_None in Es. destruct (Byte.eqb x c) eqn:E.
      * apply byte_eqb_eq in E. subst x. split.
        -- intros [= <-]. exists [], s. auto.
        -- intros (a & b & H & Hl & Hb). destruct a as [|y a]; simpl in *; [congruence|].
           injection H as -> ->. exfalso. apply Es. apply in_or_app. right. left. reflexivity.
      * apply byte_eqb_neq in E. split; [discriminate|].
        intros (a & b & H & Hl & Hb). destruct a as [|y a]; simpl in *.
        -- injection H as -> ->. contradiction.
        -- injection H as -> ->. exfalso. apply Es. apply in_or_app. right. left. reflexivity.
Qed.

Lemma strrchr_app l1 l2 c :
  strrchr (l1 ++ l2) c
  = match strrchr l2 c with
    | Some i => Some (length l1 + i)%nat
    | None => strrchr l1 c
    end.
Proof.
  induction l1 as [|x l1 IH]; simpl.
  - destruct (strrchr l2 c); reflexivity.
  - rewrite IH. destruct (strrchr l2 c); reflexivity.
Qed.

Lemma strrchr_lt s c i : strrchr s c = Some i -> (i < length s)%nat.
Proof.
  intros H. apply strrchr_Some in H as (a & b & -> & <- & _).
  rewrite length_app. simpl. lia.
Qed.

Lemma strrchr_absent s c : ~ In c s -> strrchr s c = None.
Proof. apply strrchr_None. Qed.

Lemma dot_not_slash : dot <> slash.
Proof. discriminate. Qed.

(** X1: splitext returns what follows the last period of the path when
    that period lies in the final path component and is not its first
    character: for the path [pre], a character [c] other than a slash, a
    period and [ext], where [ext] holds neither a period nor a slash, the
    result is [ext]. *)
Theorem X1_splitext_extension (pre ext : bytes) (c : Byte.byte) :
  c <> slash -> ~ In dot ext -> ~ In slash ext ->
  splitext (pre ++ c :: dot :: ext) = ext.
Proof.
  intros Hc Hd Hs. unfold splitext.
  rewrite !strrchr_app. simpl.
  rewrite (strrchr_absent _ _ Hd), (strrchr_absent _ _ Hs).
  apply byte_eqb_neq in Hc. rewrite Hc.
  assert (Hskip : skipn (length pre + 1 + 1) (pre ++ c :: dot :: ext) = ext).
  { replace (length pre + 1 + 1)%nat with (length pre + 2)%nat by lia.
    rewrite skipn_app, skipn_all2 by lia.
    replace (length pre + 2 - length pre)%nat with 2%nat by lia. reflexivity. }
  rewrite Hskip.
  destruct (strrchr pre slash) as [i|] eqn:E.
  - apply strrchr_lt in E.
    destruct (Nat.ltb_spec (i + 1) (length pre + 1)); [reflexivity|lia].
  - destruct (Nat.ltb_spec 0 (length pre + 1)); [reflexivity|lia].
Qed.

(** X2: splitext returns the empty string for a path without a period,
    for a path whose last period is its first character or follows a slash
    directly (a hidden file), and for a path with a slash after its last
    period (the period is in a directory name). *)
Theorem X2_splitext_no_extension (path : bytes) :
  ~ In dot path
  \/ (exists pre ext,
        path = pre ++ dot :: ext
        /\ ~ In dot ext
        /\ (pre = [] \/ (exists pre', pre = pre' ++ [slash])
            \/ In slash ext)) ->
  splitext path = [].
Proof.
  intros [H | (pre & ext & -> & Hd & Hcase)].
  - unfold splitext. rewrite (strrchr_absent _ _ H). reflexivity.
  - unfold splitext. rewrite !strrchr_app. simpl.
    rewrite (strrchr_absent _ _ Hd).
    destruct (strrchr ext slash) as [j|] eqn:Ej.
    + destruct (Nat.ltb_spec (length pre + S j + 1) (length pre + 0));
        [lia|reflexivity].
    + destruct Hcase as [-> | [[pre' ->] | Hin]].
      * reflexivity.
      * rewrite strrchr_app. simpl. rewrite length_app. simpl.
        destruct (Nat.ltb_spec (length pre' + 0 + 1) (length pre' + 1 + 0));
          [lia|reflexivity].
      * apply strrchr_None in Ej. contradiction.
Qed.

(** X3: a result of splitext that is not empty is the end of the path
    after a period, holds neither a period nor a slash, and the character
    in front of that period is not a slash. *)
Theorem X3_splitext_shape (path : bytes) :
  splitext path <> [] ->
  exists pre c,
    path = pre ++ c :: dot :: splitext path
    /\ c <> slash
    /\ ~ In dot (splitext path)
    /\ ~ In slash (splitext path).
Proof.
  unfold splitext.
  destruct (strrchr path dot) as [d|] eqn:Ed; [|congruence].
  apply strrchr_Some in Ed as (a & b & Hp & Hl & Hb).
  assert (Hskip : skipn (d + 1) path = b).
  { subst path d. replace (length a + 1)%nat with (length a + 1)%nat by lia.
    rewrite skipn_app, skipn_all2 by lia.
    replace (length a + 1 - length a)%nat with 1%nat by lia. reflexivity. }
  rewrite Hskip.
  destruct (strrchr path slash) as [sl|] eqn:Es.
  - destruct (Nat.ltb_spec (sl + 1) d) as [Hlt|]; [|congruence]. intros _.
    apply strrchr_Some in Es as (a' & b' & Hp' & Hl' & Hb').
    rewrite Hp in Hp'. apply app_eq_app in Hp' as [l [[Ha Hb2]|[Ha Hb2]]].
    + (* a = a' ++ l, slash :: b' = l ++ dot :: b *)
      destruct l as [|x l]; [simpl in Hb2; injection Hb2 as Hx _; discriminate Hx|].
      simpl in Hb2. injection Hb2 as <- Hb2.
      assert (Hne : l <> []).
      { intros ->. subst a. rewrite length_app in Hl. simpl in Hl. lia. }
      destruct (exists_last Hne) as (l' & c & ->).
      exists (a' ++ slash :: l'), c. subst a.
      split; [rewrite Hp, <- !app_assoc; simpl; rewrite <- app_assoc; reflexivity|].
      assert (Hin : forall y, In y ((l' ++ [c]) ++ dot :: b) -> y <> slash).
      { intros y Hy ->. apply Hb'. rewrite Hb2. exact Hy. }
      split; [apply Hin; apply in_or_app; left; apply in_or_app; right; left; reflexivity|].
      split; [exact Hb|].
      intros Hs. apply (Hin slash); [|reflexivity].
      apply in_or_app. right. right. exact Hs.
    + (* a' = a ++ l : the slash is after the dot *)
      exfalso. subst a'. rewrite length_app in Hl'. lia.
  - destruct (Nat.ltb_spec 0 d) as [Hlt|]; [|congruence]. intros _.
    apply strrchr_None in Es.
    assert (Hne : a <> []) by (intros ->; simpl in Hl; lia).
    destruct (exists_last Hne) as (l' & c & ->).
    exists l', c.
    split; [rewrite Hp, <- app_assoc; reflexivity|].
    assert (Hin : forall y, In y path -> y <> slash) by (intros y Hy ->; contradiction).
    split; [apply Hin; rewrite Hp; apply in_or_app; left; apply in_or_app; right; left; reflexivity|].
    split; [exact Hb|].
    intros Hs. apply (Hin slash); [|reflexivity].
    rewrite Hp. apply in_or_app. right. right. exact Hs.
Qed.

(** ** What the engine calls change *)

Lemma engine_effect_refl c : engine_effect c [] c.
Proof.
  constructor; try reflexivity; [apply session_frame_refl|].
  rewrite app_nil_r. reflexivity.
Qed.

Lemma engine_effect_trans c1 w1 c2 w2 c3 :
  engine_effect c1 w1 c2 -> engine_effect c2 w2 c3 ->
  engine_effect c1 (w1 ++ w2) c3.
Proof.
  intros [F1 S1 P1 Q1] [F2 S2 P2 Q2]. constructor.
  - eapply session_frame_trans; eassumption.
  - congruence.
  - congruence.
  - rewrite Q2, Q1, app_assoc. reflexivity.
Qed.

Lemma effect_read_cb fuel c n r :
  sectrans_read_cb fuel c n = Some r -> engine_effect c [] r.2.
Proof.
  intros E. pose proof (frame_read_cb _ _ _ _ E) as F.
  unfold sectrans_read_cb in E.
  destruct (sectrans_read_cb_loop _ _) as [[early v]|]; simpl in E;
    [|discriminate].
  injection E as <-. simpl in *.
  constructor; simpl; try reflexivity; [exact F|].
  rewrite app_nil_r. reflexivity.
Qed.

Lemma effect_write_cb c data :
  engine_effect c data (sectrans_write_cb c data).2.
Proof.
  constructor; try reflexivity. apply frame_write_cb.
Qed.

Lemma effect_run_io {R : Type} fuel (t : st_io R) :
  forall c r, run_io fuel t c = Some r ->
              exists written, engine_effect c written r.2.
Proof.
  induction t as [r0|n k IH|d k IH]; intros c r E; simpl in E.
  - injection E as <-. exists []. apply engine_effect_refl.
  - destruct (sectrans_read_cb fuel c n) as [[[[ret buf] len] c']|] eqn:Ecb;
      simpl in E; [|discriminate].
    apply IH in E as (w & Hw).
    apply effect_read_cb in Ecb. simpl in Ecb.
    exists ([] ++ w). eapply engine_effect_trans; eassumption.
  - apply IH in E as (w & Hw).
    exists (d ++ w).
    eapply engine_effect_trans; [apply effect_write_cb|exact Hw].
Qed.

Lemma effect_record_call c st call : engine_effect c [] (record_call c st call).
Proof.
  constructor; try reflexivity; [apply frame_record_call|].
  simpl. rewrite app_nil_r. reflexivity.
Qed.

Lemma effect_SSLHandshake fuel c ss c' :
  st_SSLHandshake fuel c = Some (ss, c') ->
  (exists written, engine_effect c written c')
  /\ st_calls (st_ctxr c') = st_calls (st_ctxr c) ++ [Call_SSLHandshake].
Proof.
  unfold st_SSLHandshake. intros E.
  destruct (run_io _ _ _) as [[x c1]|] eqn:Eio; simpl in E; [|discriminate].
  injection E as <- <-. pose proof (calls_run_io _ _ _ _ Eio) as Hc.
  apply effect_run_io in Eio as (w & Hw).
  simpl in *. split.
  - exists (w ++ []). eapply engine_effect_trans; [exact Hw|].
    apply effect_record_call.
  - rewrite Hc. reflexivity.
Qed.

Lemma effect_SSLWrite fuel c data ss n c' :
  st_SSLWrite fuel c data = Some (ss, n, c') ->
  (exists written, engine_effect c written c')
  /\ st_calls (st_ctxr c') = st_calls (st_ctxr c) ++ [Call_SSLWrite data].
Proof.
  unfold st_SSLWrite. intros E.
  destruct (run_io _ _ _) as [[x c1]|] eqn:Eio; simpl in E; [|discriminate].
  injection E as <- <- <-. pose proof (calls_run_io _ _ _ _ Eio) as Hc.
  apply effect_run_io in Eio as (w & Hw).
  simpl in *. split.
  - exists (w ++ []). eapply engine_effect_trans; [exact Hw|].
    apply effect_record_call.
  - rewrite Hc. reflexivity.
Qed.

Lemma effect_SSLRead fuel c n ss d c' :
  st_SSLRead fuel c n = Some (ss, d, c') ->
  exists written, engine_effect c written c'.
Proof.
  unfold st_SSLRead. intros E.
  destruct (run_io _ _ _) as [[x c1]|] eqn:Eio; simpl in E; [|discriminate].
  injection E as <- <- <-. apply effect_run_io in Eio as (w & Hw).
  exists (w ++ []). eapply engine_effect_trans; [exact Hw|].
  apply effect_record_call.
Qed.

Lemma stream_read_split_eq p n st d p' :
  stream_read p n = (st, d, p') -> d ++ queue p' = queue p.
Proof.
  intros E. pose proof (stream_read_split p n) as H. rewrite E in H. exact H.
Qed.

(** What the part of a read after the handshake does to the context. *)
Lemma encrypt_read_connected_effect fuel c n status data c' :
  encrypt_read_connected fuel c n = Some (status, data, c') ->
  session_frame c c'
  /\ pending (decrypt c') = pending (decrypt c)
  /\ exists written wr,
       data ++ queue (pending (encrypt c')) = queue (pending (encrypt c)) ++ written
       /\ st_calls (st_ctxr c') = st_calls (st_ctxr c) ++ wr
       /\ (wr = [] /\ written = []
           \/ wr = [Call_SSLWrite (serf_bucket_read (stream (encrypt c)) n).1.2]
              /\ (serf_bucket_read (stream (encrypt c)) n).1.2 <> []).
Proof.
  intros E. pose proof (frame_encrypt_read_connected _ _ _ _ E) as F.
  split; [exact F|]. unfold encrypt_read_connected in E.
  destruct (stream_read (pending (encrypt c)) n) as [[st d] p] eqn:E1.
  pose proof (stream_read_split_eq _ _ _ _ _ E1) as S1.
  assert (Quiet : forall s,
    let c1 := set_encrypt_pending c p in
    (c' = c1 \/ c' = set_encrypt_stream c1 s) -> data = d ->
    pending (decrypt c') = pending (decrypt c)
    /\ exists written wr,
         data ++ queue (pending (encrypt c')) = queue (pending (encrypt c)) ++ written
         /\ st_calls (st_ctxr c') = st_calls (st_ctxr c) ++ wr
         /\ (wr = [] /\ written = []
             \/ wr = [Call_SSLWrite (serf_bucket_read (stream (encrypt c)) n).1.2]
                /\ (serf_bucket_read (stream (encrypt c)) n).1.2 <> [])).
  { intros s c1 Hc' ->. split; [destruct Hc' as [-> | ->]; reflexivity|].
    exists [], []. rewrite !app_nil_r.
    split; [destruct Hc' as [-> | ->]; exact S1|].
    split; [destruct Hc' as [-> | ->]; reflexivity|]. left. split; reflexivity. }
  destruct (SERF_BUCKET_READ_ERROR st);
    [injection E as _ <- <-; apply (Quiet (stream (encrypt c))); auto|].
  destruct (truthy (blen d)) eqn:Ed;
    [injection E as _ <- <-; apply (Quiet (stream (encrypt c))); auto|].
  apply truthy_blen in Ed. subst d. simpl in S1.
  simpl in E.
  destruct (serf_bucket_read (stream (encrypt c)) n) as [[su ud] s] eqn:E2.
  destruct (SERF_BUCKET_READ_ERROR su);
    [injection E as _ <- <-; apply (Quiet s); auto|].
  destruct (truthy (blen ud)) eqn:Eu;
    [|injection E as _ <- <-; apply (Quiet s); auto].
  assert (Hud : ud <> []).
  { intros ->. unfold blen in Eu. simpl in Eu. discriminate. }
  destruct (st_SSLWrite _ _ _) as [[[ss w] c3]|] eqn:E3; simpl in E;
    [|discriminate].
  apply effect_SSLWrite in E3 as [[written He] Hcalls]. simpl in Hcalls.
  destruct He as [_ _ Hdp Hq]. simpl in Hdp, Hq.
  destruct (SERF_BUCKET_READ_ERROR (translate_sectrans_status ss)).
  { injection E as _ <- <-. split; [exact Hdp|].
    exists written, [Call_SSLWrite ud].
    split; [simpl; rewrite Hq, S1; reflexivity|].
    split; [exact Hcalls|]. right. split; [reflexivity|exact Hud]. }
  destruct (stream_read (pending (encrypt c3)) n) as [[st4 d4] p4] eqn:E4.
  pose proof (stream_read_split_eq _ _ _ _ _ E4) as S4.
  assert (Hfin : pending (decrypt (set_encrypt_pending c3 p4)) = pending (decrypt c)
    /\ exists written wr,
         d4 ++ queue (pending (encrypt (set_encrypt_pending c3 p4)))
         = queue (pending (encrypt c)) ++ written
         /\ st_calls (st_ctxr (set_encrypt_pending c3 p4))
            = st_calls (st_ctxr c) ++ wr
         /\ (wr = [] /\ written = []
             \/ wr = [Call_SSLWrite ud] /\ ud <> [])).
  { split; [exact Hdp|]. exists written, [Call_SSLWrite ud].
    split; [simpl; rewrite S4, Hq, S1; reflexivity|].
    split; [exact Hcalls|]. right. split; [reflexivity|exact Hud]. }
  destruct (SERF_BUCKET_READ_ERROR st4); [injection E as _ <- <-; exact Hfin|].
  destruct (st4 =? APR_SUCCESS); injection E as _ <- <-; exact Hfin.
Qed.

Lemma handshaking_spec s :
  handshaking s = true <->
  s = SERF_SECTRANS_INIT \/ s = SERF_SECTRANS_HANDSHAKE.
Proof.
  destruct s; simpl; split; intros H; auto; try discriminate;
    destruct H; discriminate.
Qed.

Lemma handshaking_false s :
  handshaking s = false <->
  s = SERF_SECTRANS_CONNECTED \/ s = SERF_SECTRANS_CLOSING.
Proof.
  destruct s; simpl; split; intros H; auto; try discriminate;
    destruct H; discriminate.
Qed.

Lemma do_handshake_effect fuel c hs c1 :
  do_handshake fuel c = Some (hs, c1) ->
  (exists written, engine_effect c written c1)
  /\ st_calls (st_ctxr c1) = st_calls (st_ctxr c) ++ [Call_SSLHandshake].
Proof.
  intros E. apply do_handshake_inv in E as [ss E].
  exact (effect_SSLHandshake _ _ _ _ E).
Qed.

(** The whole read, in the same terms. *)
Lemma encrypt_read_effect fuel ctx n status data ctx' :
  serf_sectrans_encrypt_read fuel ctx n = Some (status, data, ctx') ->
  pending (decrypt ctx') = pending (decrypt ctx)
  /\ (exists written,
         data ++ queue (pending (encrypt ctx'))
         = queue (pending (encrypt ctx)) ++ written)
  /\ exists wr,
       st_calls (st_ctxr ctx')
       = st_calls (st_ctxr ctx)
         ++ (if handshaking (state ctx) then [Call_SSLHandshake] else [])
         ++ wr
       /\ (wr = []
           \/ wr = [Call_SSLWrite
                      (serf_bucket_read (stream (encrypt ctx)) n).1.2]
              /\ (serf_bucket_read (stream (encrypt ctx)) n).1.2 <> []
              /\ handshaking (state ctx') = false)
       /\ (handshaking (state ctx') = true ->
           wr = [] /\ stream (encrypt ctx') = stream (encrypt ctx)).
Proof.
  intros E. destruct (handshaking (state ctx)) eqn:Hh.
  - apply handshaking_spec in Hh.
    apply encrypt_read_handshaking in E; [|exact Hh].
    destruct E as (hs & c1 & Hd & F & Hcase).
    apply do_handshake_effect in Hd as [[w [_ Hes Hdp Hq]] Hcalls].
    simpl in Hes, Hdp, Hq, Hcalls.
    destruct Hcase as [[_ E]|[[_ E]|(_ & _ & E)]].
    + injection E as -> -> ->.
      split; [exact Hdp|]. split; [exists w; exact Hq|].
      exists []. rewrite app_nil_r. split; [exact Hcalls|].
      split; [left; reflexivity|]. intros _. split; [reflexivity|exact Hes].
    + apply encrypt_read_connected_effect in E
        as (F2 & Hdp2 & written & wr & Hq2 & Hc2 & Hwr).
      simpl in *.
      split; [congruence|].
      split; [exists (w ++ written); rewrite Hq2, Hq, app_assoc; reflexivity|].
      exists wr. split; [rewrite Hc2, Hcalls, <- app_assoc; reflexivity|].
      pose proof (frame_state _ _ F2) as Hst. simpl in Hst.
      split.
      * destruct Hwr as [[-> _]|[-> Hne]]; [left; reflexivity|right].
        rewrite Hes in Hne |- *. rewrite Hst. repeat split; auto.
      * rewrite Hst. simpl. discriminate.
    + destruct (stream_read (pending (encrypt c1)) n) as [[st d] p] eqn:Er.
      simpl in E. injection E as -> -> ->.
      apply stream_read_split_eq in Er.
      split; [exact Hdp|].
      split; [exists w; simpl; rewrite Er; exact Hq|].
      exists []. rewrite app_nil_r. split; [exact Hcalls|].
      split; [left; reflexivity|]. intros _. split; [reflexivity|exact Hes].
  - apply handshaking_false in Hh as Hst.
    rewrite encrypt_read_not_handshaking in E by exact Hst.
    apply encrypt_read_connected_effect in E
      as (F2 & Hdp2 & written & wr & Hq2 & Hc2 & Hwr).
    split; [exact Hdp2|]. split; [exists written; exact Hq2|].
    exists wr. split; [exact Hc2|].
    rewrite (frame_state _ _ F2), Hh.
    split; [|discriminate].
    destruct Hwr as [[-> _]|[-> Hne]]; [left; reflexivity|right].
    repeat split; auto.
Qed.

Lemma written_run_io {R : Type} fuel (t : st_io R) :
  forall c r, run_io fuel t c = Some r ->
              engine_effect c (io_written fuel t c) r.2.
Proof.
  induction t as [r0|n k IH|d k IH]; intros c r E; simpl in E |- *.
  - injection E as <-. apply engine_effect_refl.
  - destruct (sectrans_read_cb fuel c n) as [[[[ret buf] len] c']|] eqn:Ecb;
      simpl in E; [|discriminate].
    apply IH in E. apply effect_read_cb in Ecb. simpl in Ecb.
    change (io_written fuel (k ret buf len) c')
      with ([] ++ io_written fuel (k ret buf len) c').
    eapply engine_effect_trans; eassumption.
  - apply IH in E.
    eapply engine_effect_trans; [apply effect_write_cb|exact E].
Qed.

Lemma engine_effect_record c w c1 st call :
  engine_effect c w c1 -> engine_effect c w (record_call c1 st call).
Proof.
  intros H. rewrite <- (app_nil_r w).
  eapply engine_effect_trans; [exact H|apply effect_record_call].
Qed.

Lemma written_SSLHandshake fuel c ss c' :
  st_SSLHandshake fuel c = Some (ss, c') ->
  engine_effect c (written_by_SSLHandshake fuel c) c'.
Proof.
  unfold st_SSLHandshake, written_by_SSLHandshake. intros E.
  destruct (run_io _ _ _) as [[x c1]|] eqn:Eio; simpl in E; [|discriminate].
  injection E as <- <-. apply written_run_io in Eio.
  apply engine_effect_record. exact Eio.
Qed.

Lemma written_SSLWrite fuel c data ss n c' :
  st_SSLWrite fuel c data = Some (ss, n, c') ->
  engine_effect c (io_written fuel (SSLWrite (st_state (st_ctxr c)) data) c) c'.
Proof.
  unfold st_SSLWrite. intros E.
  destruct (run_io _ _ _) as [[x c1]|] eqn:Eio; simpl in E; [|discriminate].
  injection E as <- <- <-. apply written_run_io in Eio.
  apply engine_effect_record. exact Eio.
Qed.

Lemma written_SSLRead fuel c n ss d c' :
  st_SSLRead fuel c n = Some (ss, d, c') ->
  engine_effect c (io_written fuel (SSLRead (st_state (st_ctxr c)) n) c) c'.
Proof.
  unfold st_SSLRead. intros E.
  destruct (run_io _ _ _) as [[x c1]|] eqn:Eio; simpl in E; [|discriminate].
  injection E as <- <- <-. apply written_run_io in Eio.
  apply engine_effect_record. exact Eio.
Qed.

(** The part of a read after the handshake: the ciphertext it adds to the
    pending bytes is what its SSLWrite call writes, when it makes one. *)
Lemma encrypt_read_connected_written fuel c n status data c' :
  encrypt_read_connected fuel c n = Some (status, data, c') ->
  exists write_bytes,
    data ++ queue (pending (encrypt c'))
    = queue (pending (encrypt c)) ++ write_bytes
    /\ ((st_calls (st_ctxr c') = st_calls (st_ctxr c) /\ write_bytes = [])
        \/ (st_calls (st_ctxr c')
            = st_calls (st_ctxr c) ++ [Call_SSLWrite (plaintext_read c n)]
            /\ write_bytes = written_by_SSLWrite fuel c n)).
Proof.
  intros E. unfold encrypt_read_connected in E.
  unfold written_by_SSLWrite, plaintext_read, before_SSLWrite.
  destruct (stream_read (pending (encrypt c)) n) as [[st d] p] eqn:E1.
  pose proof (stream_read_split_eq _ _ _ _ _ E1) as S1.
  assert (Quiet : forall s,
    let c1 := set_encrypt_pending c p in
    (c' = c1 \/ c' = set_encrypt_stream c1 s) -> data = d ->
    exists write_bytes,
      data ++ queue (pending (encrypt c'))
      = queue (pending (encrypt c)) ++ write_bytes
      /\ ((st_calls (st_ctxr c') = st_calls (st_ctxr c) /\ write_bytes = [])
          \/ (st_calls (st_ctxr c')
              = st_calls (st_ctxr c)
                ++ [Call_SSLWrite
                      (serf_bucket_read (stream (encrypt c)) n).1.2]
              /\ write_bytes
                 = io_written fuel
                     (SSLWrite (st_state (st_ctxr c))
                        (serf_bucket_read (stream (encrypt c)) n).1.2)
                     (set_encrypt_stream (set_encrypt_pending c (st, d, p).2)
                        (serf_bucket_read (stream (encrypt c)) n).2)))).
  { intros s c1 Hc' ->. exists []. rewrite app_nil_r.
    split; [destruct Hc' as [-> | ->]; exact S1|].
    left. split; [destruct Hc' as [-> | ->]; reflexivity|reflexivity]. }
  destruct (SERF_BUCKET_READ_ERROR st);
    [injection E as _ <- <-; apply (Quiet (stream (encrypt c))); auto|].
  destruct (truthy (blen d)) eqn:Ed;
    [injection E as _ <- <-; apply (Quiet (stream (encrypt c))); auto|].
  apply truthy_blen in Ed. subst d. simpl in S1.
  simpl in E.
  destruct (serf_bucket_read (stream (encrypt c)) n) as [[su ud] s] eqn:E2.
  destruct (SERF_BUCKET_READ_ERROR su);
    [injection E as _ <- <-; apply (Quiet s); auto|].
  destruct (truthy (blen ud)) eqn:Eu;
    [|injection E as _ <- <-; apply (Quiet s); auto].
  destruct (st_SSLWrite _ _ _) as [[[ss w] c3]|] eqn:E3; simpl in E;
    [|discriminate].
  pose proof (effect_SSLWrite _ _ _ _ _ _ E3) as [_ Hcalls].
  apply written_SSLWrite in E3. simpl in Hcalls.
  destruct E3 as [_ _ _ Hq]. simpl in Hq.
  assert (Hfin : forall d4 cfin,
    d4 ++ queue (pending (encrypt cfin)) = queue (pending (encrypt c3)) ->
    st_calls (st_ctxr cfin) = st_calls (st_ctxr c3) ->
    exists write_bytes,
      d4 ++ queue (pending (encrypt cfin))
      = queue (pending (encrypt c)) ++ write_bytes
      /\ ((st_calls (st_ctxr cfin) = st_calls (st_ctxr c) /\ write_bytes = [])
          \/ (st_calls (st_ctxr cfin)
              = st_calls (st_ctxr c) ++ [Call_SSLWrite ud]
              /\ write_bytes
                 = io_written fuel (SSLWrite (st_state (st_ctxr c)) ud)
                     (set_encrypt_stream (set_encrypt_pending c p) s)))).
  { intros d4 cfin H4 Hc4. eexists.
    split; [rewrite H4, Hq, <- S1; reflexivity|].
    right. split; [rewrite Hc4; exact Hcalls|reflexivity]. }
  simpl.
  destruct (SERF_BUCKET_READ_ERROR (translate_sectrans_status ss)).
  { injection E as _ <- <-. apply Hfin; reflexivity. }
  destruct (stream_read (pending (encrypt c3)) n) as [[st4 d4] p4] eqn:E4.
  pose proof (stream_read_split_eq _ _ _ _ _ E4) as S4.
  destruct (SERF_BUCKET_READ_ERROR st4);
    [injection E as _ <- <-; apply Hfin; [exact S4|reflexivity]|].
  destruct (st4 =? APR_SUCCESS); injection E as _ <- <-;
    (apply Hfin; [exact S4|reflexivity]).
Qed.

Lemma after_handshake_not_handshaking fuel ctx :
  handshaking (state ctx) = false -> after_handshake fuel ctx = Some ctx.
Proof. intros H. unfold after_handshake. rewrite H. reflexivity. Qed.

Lemma written_do_handshake fuel c hs c1 :
  do_handshake fuel c = Some (hs, c1) ->
  exists ss, st_SSLHandshake fuel c = Some (ss, c1)
             /\ engine_effect c (written_by_SSLHandshake fuel c) c1
             /\ st_calls (st_ctxr c1)
                = st_calls (st_ctxr c) ++ [Call_SSLHandshake].
Proof.
  intros E. apply do_handshake_inv in E as [ss E]. exists ss.
  split; [exact E|]. split; [exact (written_SSLHandshake _ _ _ _ E)|].
  exact (proj2 (effect_SSLHandshake _ _ _ _ E)).
Qed.

(** X4: a read on the encrypt bucket hands out ciphertext in the order
    in which it was queued, and neither loses nor invents any: the bytes
    returned, followed by the bytes that stay in encrypt.pending, are the
    bytes that were pending before the read, followed by the bytes that
    SSLHandshake handed to the write callback (when the state is INIT or
    HANDSHAKE), followed by the bytes that SSLWrite handed to it (when the
    read calls SSLWrite, which the list of calls tells).  The decrypted
    data that is pending is left alone. *)
Theorem X4_encrypt_read_serves_ciphertext_in_order
    (fuel : nat) (ctx : sectrans_context_t) (requested : apr_size_t)
    (status : apr_status_t) (data : bytes) (ctx' : sectrans_context_t) :
  serf_sectrans_encrypt_read fuel ctx requested = Some (status, data, ctx') ->
  let handshake_bytes :=
    if handshaking (state ctx)
    then written_by_SSLHandshake fuel
           (set_state ctx SERF_SECTRANS_HANDSHAKE)
    else [] in
  let calls :=
    st_calls (st_ctxr ctx)
    ++ (if handshaking (state ctx) then [Call_SSLHandshake] else []) in
  (exists write_bytes,
      data ++ queue (pending (encrypt ctx'))
      = queue (pending (encrypt ctx)) ++ handshake_bytes ++ write_bytes
      /\ ((st_calls (st_ctxr ctx') = calls /\ write_bytes = [])
          \/ exists c,
               after_handshake fuel ctx = Some c
               /\ st_calls (st_ctxr ctx')
                  = calls ++ [Call_SSLWrite (plaintext_read c requested)]
               /\ write_bytes = written_by_SSLWrite fuel c requested))
  /\ pending (decrypt ctx') = pending (decrypt ctx).
Proof.
  intros E. pose proof (encrypt_read_effect _ _ _ _ _ _ E) as (Hdp & _).
  split; [|exact Hdp]. clear Hdp.
  destruct (handshaking (state ctx)) eqn:Hh.
  - apply handshaking_spec in Hh as Hst.
    apply encrypt_read_handshaking in E; [|exact Hst].
    destruct E as (hs & c1 & Hd & F & Hcase).
    apply written_do_handshake in Hd as (ss & Hhs & [_ _ _ Hq] & Hcalls).
    simpl in Hq, Hcalls.
    destruct Hcase as [[_ E]|[[_ E]|(_ & _ & E)]].
    + injection E as -> -> ->. exists []. rewrite app_nil_r.
      split; [exact Hq|]. left. split; [exact Hcalls|reflexivity].
    + apply encrypt_read_connected_written in E as (wb & Heq & Hwr).
      simpl in Heq, Hwr. exists wb.
      split; [rewrite Heq, Hq, app_assoc; reflexivity|].
      destruct Hwr as [[Hc ->]|[Hc ->]].
      * left. split; [rewrite Hc; exact Hcalls|reflexivity].
      * right. exists (set_state c1 SERF_SECTRANS_CONNECTED).
        split; [unfold after_handshake; rewrite Hh, Hhs; reflexivity|].
        split; [rewrite Hc, Hcalls; reflexivity|reflexivity].
    + destruct (stream_read (pending (encrypt c1)) requested)
        as [[st d] p] eqn:Er.
      simpl in E. injection E as -> -> ->.
      apply stream_read_split_eq in Er.
      exists []. rewrite app_nil_r.
      split; [simpl; rewrite Er; exact Hq|].
      left. split; [exact Hcalls|reflexivity].
  - apply handshaking_false in Hh as Hst.
    rewrite encrypt_read_not_handshaking in E by exact Hst.
    apply encrypt_read_connected_written in E as (wb & Heq & Hwr).
    exists wb. rewrite !app_nil_r. simpl.
    split; [exact Heq|].
    destruct Hwr as [[Hc ->]|[Hc ->]].
    + left. split; [exact Hc|reflexivity].
    + right. exists ctx.
      split; [apply after_handshake_not_handshaking; exact Hh|].
      split; [exact Hc|reflexivity].
Qed.

(** X5: what a read on the encrypt bucket asks of Secure Transport: one
    SSLHandshake when the session is in state INIT or HANDSHAKE and none
    otherwise, followed by at most one SSLWrite, of the bytes read from the
    plaintext stream, which are not empty; no SSLRead.  A read that leaves
    the session in the handshake has written nothing and has not touched
    the plaintext stream. *)
Theorem X5_encrypt_read_calls_into_secure_transport
    (fuel : nat) (ctx : sectrans_context_t) (requested : apr_size_t)
    (status : apr_status_t) (data : bytes) (ctx' : sectrans_context_t) :
  serf_sectrans_encrypt_read fuel ctx requested = Some (status, data, ctx') ->
  let plaintext := (serf_bucket_read (stream (encrypt ctx)) requested).1.2 in
  exists wr,
    st_calls (st_ctxr ctx')
    = st_calls (st_ctxr ctx)
      ++ (if handshaking (state ctx) then [Call_SSLHandshake] else [])
      ++ wr
    /\ (wr = []
        \/ wr = [Call_SSLWrite plaintext] /\ plaintext <> []
           /\ handshaking (state ctx') = false)
    /\ (handshaking (state ctx') = true ->
        wr = [] /\ stream (encrypt ctx') = stream (encrypt ctx)).
Proof.
  intros E. apply encrypt_read_effect in E as (_ & _ & H). exact H.
Qed.

Lemma do_handshake_success fuel c hs c1 :
  do_handshake fuel c = Some (hs, c1) ->
  (hs = APR_SUCCESS <-> st_SSLHandshake fuel c = Some (noErr, c1)).
Proof.
  unfold do_handshake. intros E.
  destruct (st_SSLHandshake fuel c) as [[s c2]|]; simpl in E; [|discriminate].
  destruct (Z.eqb_spec s noErr) as [->|Hne].
  - injection E as <- <-. split; reflexivity.
  - assert (Hnz : hs <> APR_SUCCESS /\ c2 = c1).
    { destruct (s =? errSSLServerAuthCompleted).
      - destruct (validate_server_certificate c2) as [v|]; simpl in E;
          [|discriminate].
        destruct (truthy v) eqn:Ev; simpl in E; injection E as <- <-.
        + split; [apply truthy_true, Ev|reflexivity].
        + split; [discriminate|reflexivity].
      - destruct (s =? errSSLClientCertRequested); injection E as <- <-.
        + split; [discriminate|reflexivity].
        + split; [|reflexivity]. unfold translate_sectrans_status.
          apply Z.eqb_neq in Hne. rewrite Hne.
          destruct (s =? errSSLWouldBlock); discriminate. }
    destruct Hnz as [Hnz ->]. split; [contradiction|]. intros [= Hs]. contradiction.
Qed.

(** X6: a read on the encrypt bucket of a session in state INIT or
    HANDSHAKE leaves the session in state CONNECTED or HANDSHAKE, and in
    CONNECTED exactly when its SSLHandshake call returned noErr. *)
Theorem X6_connected_exactly_when_handshake_returns_noErr
    (fuel : nat) (ctx : sectrans_context_t) (requested : apr_size_t)
    (status : apr_status_t) (data : bytes) (ctx' : sectrans_context_t) :
  handshaking (state ctx) = true ->
  serf_sectrans_encrypt_read fuel ctx requested = Some (status, data, ctx') ->
  (state ctx' = SERF_SECTRANS_CONNECTED
   \/ state ctx' = SERF_SECTRANS_HANDSHAKE)
  /\ (state ctx' = SERF_SECTRANS_CONNECTED <->
      exists c1,
        st_SSLHandshake fuel (set_state ctx SERF_SECTRANS_HANDSHAKE)
        = Some (noErr, c1)).
Proof.
  intros Hh E. apply handshaking_spec in Hh.
  apply encrypt_read_handshaking in E; [|exact Hh].
  destruct E as (hs & c1 & Hd & F & Hcase).
  pose proof (do_handshake_success _ _ _ _ Hd) as Hiff.
  pose proof (frame_state _ _ F) as Hst1. simpl in Hst1.
  assert (Hstay : hs <> APR_SUCCESS -> state ctx' = SERF_SECTRANS_HANDSHAKE ->
     (state ctx' = SERF_SECTRANS_CONNECTED
      \/ state ctx' = SERF_SECTRANS_HANDSHAKE)
     /\ (state ctx' = SERF_SECTRANS_CONNECTED <->
         exists c1,
           st_SSLHandshake fuel (set_state ctx SERF_SECTRANS_HANDSHAKE)
           = Some (noErr, c1))).
  { intros Hne Hst. split; [right; exact Hst|]. rewrite Hst.
    split; [discriminate|]. intros [c2 Hc2]. exfalso. apply Hne.
    unfold do_handshake in Hd. rewrite Hc2 in Hd. simpl in Hd. congruence. }
  destruct Hcase as [[Herr E]|[[Hs E]|(_ & Hne & E)]].
  - injection E as -> -> ->. apply Hstay; [|exact Hst1].
    apply read_error_nonzero, Herr.
  - apply frame_encrypt_read_connected in E. apply frame_state in E.
    simpl in E. split; [left; exact E|]. split; [|intros _; exact E].
    intros _. exists c1. apply Hiff. exact Hs.
  - destruct (stream_read (pending (encrypt c1)) requested) as [[st d] p].
    simpl in E. injection E as -> -> ->. apply Hstay; [exact Hne|exact Hst1].
Qed.

(** X7: when SSLHandshake fails with a status other than
    errSSLWouldBlock and errSSLServerAuthCompleted, the read on the encrypt
    bucket returns no data and an error, APR_ENOTIMPL for
    errSSLClientCertRequested and APR_EGENERAL for everything else, and the
    session stays in state HANDSHAKE. *)
Theorem X7_handshake_failures_are_fatal
    (fuel : nat) (ctx c1 : sectrans_context_t) (requested : apr_size_t)
    (sectrans_status : OSStatus) :
  handshaking (state ctx) = true ->
  SERF_ERROR_WAIT_CONN <> APR_ENOTIMPL ->
  SERF_ERROR_WAIT_CONN <> APR_EGENERAL ->
  st_SSLHandshake fuel (set_state ctx SERF_SECTRANS_HANDSHAKE)
  = Some (sectrans_status, c1) ->
  sectrans_status <> noErr ->
  sectrans_status <> errSSLWouldBlock ->
  sectrans_status <> errSSLServerAuthCompleted ->
  serf_sectrans_encrypt_read fuel ctx requested
  = Some (if sectrans_status =? errSSLClientCertRequested
          then APR_ENOTIMPL else APR_EGENERAL, [], c1)
  /\ state c1 = SERF_SECTRANS_HANDSHAKE.
Proof.
  intros Hh Hw1 Hw2 Hhs H1 H2 H3. apply handshaking_spec in Hh.
  pose proof (frame_SSLHandshake _ _ _ Hhs) as F. apply frame_state in F.
  simpl in F. split; [|exact F].
  assert (Hd : do_handshake fuel (set_state ctx SERF_SECTRANS_HANDSHAKE)
               = Some (if sectrans_status =? errSSLClientCertRequested
                       then APR_ENOTIMPL else APR_EGENERAL, c1)).
  { unfold do_handshake. rewrite Hhs. simpl.
    apply Z.eqb_neq in H1, H2, H3. rewrite H1, H3.
    destruct (sectrans_status =? errSSLClientCertRequested); [reflexivity|].
    unfold translate_sectrans_status. rewrite H1, H2. reflexivity. }
  unfold serf_sectrans_encrypt_read.
  assert (He : SERF_BUCKET_READ_ERROR
                 (if sectrans_status =? errSSLClientCertRequested
                  then APR_ENOTIMPL else APR_EGENERAL) = true).
  { unfold SERF_BUCKET_READ_ERROR.
    apply Z.eqb_neq in Hw1, Hw2.
    destruct (sectrans_status =? errSSLClientCertRequested); simpl;
      [rewrite Hw1|rewrite Hw2]; reflexivity. }
  destruct Hh as [-> | ->]; rewrite Hd; simpl; rewrite He; reflexivity.
Qed.

Lemma translate_range ss :
  translate_sectrans_status ss = APR_SUCCESS
  \/ translate_sectrans_status ss = APR_EAGAIN
  \/ translate_sectrans_status ss = APR_EGENERAL.
Proof.
  unfold translate_sectrans_status.
  destruct (ss =? noErr); [auto|]. destruct (ss =? errSSLWouldBlock); auto.
Qed.

Lemma decrypt_more_data_effect fuel c st c' :
  decrypt_more_data fuel c = Some (st, c') ->
  session_frame c c'
  /\ stream (encrypt c') = stream (encrypt c)
  /\ (exists produced,
         queue (pending (decrypt c'))
         = queue (pending (decrypt c)) ++ produced)
  /\ (st = APR_SUCCESS \/ st = APR_EAGAIN \/ st = APR_EGENERAL).
Proof.
  intros E. pose proof (frame_decrypt_more_data _ _ _ E) as F.
  split; [exact F|]. unfold decrypt_more_data in E.
  destruct (st_SSLRead _ _ _) as [[[ss d] c1]|] eqn:Er; simpl in E;
    [|discriminate].
  apply effect_SSLRead in Er as [w [_ Hes Hdp _]].
  destruct (SERF_BUCKET_READ_ERROR _); injection E as <- <-.
  - split; [exact Hes|]. split; [|apply translate_range].
    exists []. rewrite Hdp, app_nil_r. reflexivity.
  - split; [exact Hes|]. split; [|apply translate_range].
    exists d. simpl. rewrite Hdp. reflexivity.
Qed.

Lemma decrypt_loop_effect fuel rounds :
  forall c early st c',
    decrypt_loop fuel rounds c = Some (early, st, c') ->
    session_frame c c'
    /\ stream (encrypt c') = stream (encrypt c)
    /\ (exists produced,
           queue (pending (decrypt c'))
           = queue (pending (decrypt c)) ++ produced)
    /\ (st = APR_SUCCESS \/ st = APR_EAGAIN \/ st = APR_EGENERAL).
Proof.
  induction rounds as [|rounds IH]; intros c early st c' E; simpl in E;
    [discriminate|].
  destruct (decrypt_more_data fuel c) as [[st1 c1]|] eqn:Ed; simpl in E;
    [|discriminate].
  apply decrypt_more_data_effect in Ed as (F1 & S1 & [p1 Q1] & R1).
  destruct (SERF_BUCKET_READ_ERROR st1);
    [injection E as <- <- <-; eauto 6|].
  destruct (st1 =? APR_SUCCESS); [|injection E as <- <- <-; eauto 6].
  apply IH in E as (F2 & S2 & [p2 Q2] & R2).
  split; [eapply session_frame_trans; eassumption|].
  split; [congruence|]. split; [|exact R2].
  exists (p1 ++ p2). rewrite Q2, Q1, app_assoc. reflexivity.
Qed.

Lemma calls_decrypt_loop fuel rounds :
  forall c early st c',
    decrypt_loop fuel rounds c = Some (early, st, c') ->
    exists k,
      st_calls (st_ctxr c')
      = st_calls (st_ctxr c)
        ++ repeat (Call_SSLRead SECURE_TRANSPORT_READ_BUFSIZE) k.
Proof.
  intros c early st c' E. apply decrypt_loop_rounds in E as (n & _ & Hr & _).
  exists n. exact (calls_decrypt_rounds _ _ _ _ _ Hr).
Qed.

Lemma decrypt_read_effect fuel rounds ctx n status data ctx' :
  serf_sectrans_decrypt_read fuel rounds ctx n = Some (status, data, ctx') ->
  state ctx' = state ctx
  /\ stream (encrypt ctx') = stream (encrypt ctx)
  /\ (exists produced,
         data ++ queue (pending (decrypt ctx'))
         = queue (pending (decrypt ctx)) ++ produced)
  /\ (exists k,
         st_calls (st_ctxr ctx')
         = st_calls (st_ctxr ctx)
           ++ repeat (Call_SSLRead SECURE_TRANSPORT_READ_BUFSIZE) k)
  /\ (pending_open ctx ->
      status = APR_SUCCESS \/ status = APR_EAGAIN
      \/ (status = APR_EGENERAL /\ data = [])).
Proof.
  intros E. pose proof (frame_decrypt_read _ _ _ _ _ E) as F.
  split; [exact (frame_state _ _ F)|]. unfold serf_sectrans_decrypt_read in E.
  destruct (stream_read (pending (decrypt ctx)) n) as [[st d] p] eqn:E1.
  pose proof (stream_read_split_eq _ _ _ _ _ E1) as S1.
  assert (Hst1 : pending_open ctx -> st = APR_SUCCESS \/ st = APR_EAGAIN).
  { intros [_ Ho]. pose proof (pending_read_status _ n Ho) as Hp.
    rewrite E1 in Hp. simpl in Hp. tauto. }
  assert (Quiet : ctx' = set_decrypt_pending ctx p -> data = d -> status = st ->
    stream (encrypt ctx') = stream (encrypt ctx)
    /\ (exists produced,
           data ++ queue (pending (decrypt ctx'))
           = queue (pending (decrypt ctx)) ++ produced)
    /\ (exists k,
           st_calls (st_ctxr ctx')
           = st_calls (st_ctxr ctx)
             ++ repeat (Call_SSLRead SECURE_TRANSPORT_READ_BUFSIZE) k)
    /\ (pending_open ctx ->
        status = APR_SUCCESS \/ status = APR_EAGAIN
        \/ (status = APR_EGENERAL /\ data = []))).
  { intros -> -> ->. split; [reflexivity|].
    split; [exists []; rewrite app_nil_r; exact S1|].
    split; [exists 0%nat; simpl; rewrite app_nil_r; reflexivity|].
    intros Ho. destruct (Hst1 Ho); auto. }
  destruct (SERF_BUCKET_READ_ERROR st);
    [injection E as <- <- <-; apply Quiet; reflexivity|].
  destruct (truthy (blen d)) eqn:Ed;
    [injection E as <- <- <-; apply Quiet; reflexivity|].
  apply truthy_blen in Ed. subst d. simpl in S1.
  destruct (decrypt_loop _ _ _) as [[[early st2] c2]|] eqn:El; [|discriminate].
  pose proof (calls_decrypt_loop _ _ _ _ _ _ El) as [k Hk].
  apply decrypt_loop_effect in El as (F2 & S2 & [produced Q2] & R2).
  simpl in S2, Q2, Hk.
  destruct early.
  - injection E as <- <- <-. split; [exact S2|].
    split; [exists produced; simpl; rewrite Q2, S1; reflexivity|].
    split; [exists k; exact Hk|]. intros _.
    destruct R2 as [-> | [-> | ->]]; auto.
  - destruct (stream_read (pending (decrypt c2)) n) as [[st3 d3] p3] eqn:E3.
    injection E as <- <- <-.
    pose proof (stream_read_split_eq _ _ _ _ _ E3) as S3.
    split; [exact S2|].
    split; [exists produced; simpl; rewrite S3, Q2, S1; reflexivity|].
    split; [exists k; exact Hk|]. intros [He Ho].
    assert (Ho2 : eof_callback (pending (decrypt c2)) = pending_stream_eof).
    { pose proof (frame_decrypt_pending_read _ _ _ _ _ E1) as F1.
      rewrite (frame_decrypt_eof _ _ F2), (frame_decrypt_eof _ _ F1).
      exact Ho. }
    pose proof (pending_read_status _ n Ho2) as Hp.
    rewrite E3 in Hp. simpl in Hp. tauto.
Qed.

Lemma decrypt_more_data_decrypted fuel c st c' :
  decrypt_more_data fuel c = Some (st, c') ->
  st_calls (st_ctxr c')
  = st_calls (st_ctxr c) ++ [Call_SSLRead SECURE_TRANSPORT_READ_BUFSIZE]
  /\ queue (pending (decrypt c'))
     = queue (pending (decrypt c)) ++ decrypted fuel 1 c
  /\ (SERF_BUCKET_READ_ERROR st = false ->
      forall k, decrypted fuel (S k) c
                = decrypted fuel 1 c ++ decrypted fuel k c').
Proof.
  intros E. pose proof (calls_decrypt_more_data _ _ _ _ E) as Hc.
  split; [exact Hc|]. unfold decrypt_more_data in E. simpl.
  destruct (st_SSLRead fuel c SECURE_TRANSPORT_READ_BUFSIZE)
    as [[[ss d] c1]|] eqn:Er; simpl in E; [|discriminate].
  apply effect_SSLRead in Er as [w [_ _ Hdp _]].
  destruct (SERF_BUCKET_READ_ERROR (translate_sectrans_status ss)) eqn:Ee;
    injection E as <- <-.
  - split; [rewrite Hdp, app_nil_r; reflexivity|].
    intros H. rewrite H in Ee. discriminate.
  - split; [simpl; rewrite Hdp, app_nil_r; reflexivity|].
    intros _ k. rewrite app_nil_r. reflexivity.
Qed.

Lemma decrypt_loop_decrypted fuel rounds :
  forall c early st c',
    decrypt_loop fuel rounds c = Some (early, st, c') ->
    exists k,
      st_calls (st_ctxr c')
      = st_calls (st_ctxr c)
        ++ repeat (Call_SSLRead SECURE_TRANSPORT_READ_BUFSIZE) k
      /\ queue (pending (decrypt c'))
         = queue (pending (decrypt c)) ++ decrypted fuel k c.
Proof.
  induction rounds as [|rounds IH]; intros c early st c' E; simpl in E;
    [discriminate|].
  destruct (decrypt_more_data fuel c) as [[st1 c1]|] eqn:Ed; simpl in E;
    [|discriminate].
  apply decrypt_more_data_decrypted in Ed as (Hc & Hq & Hnext).
  destruct (SERF_BUCKET_READ_ERROR st1);
    [injection E as <- <- <-; exists 1%nat; split; assumption|].
  destruct (st1 =? APR_SUCCESS);
    [|injection E as <- <- <-; exists 1%nat; split; assumption].
  apply IH in E as (k & Hck & Hqk). exists (S k). split.
  - rewrite Hck, Hc, <- app_assoc. reflexivity.
  - rewrite Hqk, Hq, (Hnext eq_refl k), app_assoc. reflexivity.
Qed.

(** X8: a read on the decrypt bucket hands out plaintext in the order
    in which it was queued, and neither loses nor invents any: the bytes
    returned, followed by the bytes that stay in decrypt.pending, are the
    bytes that were pending before the read followed by the plaintext that
    its SSLRead calls returned, call after call; the count of those calls
    is the one in the list of calls.  The plaintext of a call that fails
    with a read error is dropped. *)
Theorem X8_decrypt_read_serves_plaintext_in_order
    (fuel rounds : nat) (ctx : sectrans_context_t) (requested : apr_size_t)
    (status : apr_status_t) (data : bytes) (ctx' : sectrans_context_t) :
  serf_sectrans_decrypt_read fuel rounds ctx requested
  = Some (status, data, ctx') ->
  exists k,
    st_calls (st_ctxr ctx')
    = st_calls (st_ctxr ctx)
      ++ repeat (Call_SSLRead SECURE_TRANSPORT_READ_BUFSIZE) k
    /\ data ++ queue (pending (decrypt ctx'))
       = queue (pending (decrypt ctx))
         ++ decrypted fuel k
              (set_decrypt_pending ctx
                 (stream_read (pending (decrypt ctx)) requested).2).
Proof.
  intros E. unfold serf_sectrans_decrypt_read in E.
  destruct (stream_read (pending (decrypt ctx)) requested)
    as [[st d] p] eqn:E1.
  pose proof (stream_read_split_eq _ _ _ _ _ E1) as S1. simpl.
  assert (Quiet : ctx' = set_decrypt_pending ctx p -> data = d ->
    exists k,
      st_calls (st_ctxr ctx')
      = st_calls (st_ctxr ctx)
        ++ repeat (Call_SSLRead SECURE_TRANSPORT_READ_BUFSIZE) k
      /\ data ++ queue (pending (decrypt ctx'))
         = queue (pending (decrypt ctx))
           ++ decrypted fuel k (set_decrypt_pending ctx p)).
  { intros -> ->. exists 0%nat. simpl. rewrite !app_nil_r.
    split; [reflexivity|exact S1]. }
  destruct (SERF_BUCKET_READ_ERROR st);
    [injection E as _ <- <-; apply Quiet; reflexivity|].
  destruct (truthy (blen d)) eqn:Ed;
    [injection E as _ <- <-; apply Quiet; reflexivity|].
  apply truthy_blen in Ed. subst d. simpl in S1.
  destruct (decrypt_loop _ _ _) as [[[early st2] c2]|] eqn:El; [|discriminate].
  apply decrypt_loop_decrypted in El as (k & Hk & Hq).
  simpl in Hk, Hq. exists k.
  destruct early.
  - injection E as _ <- <-. split; [exact Hk|].
    simpl. rewrite Hq, S1. reflexivity.
  - destruct (stream_read (pending (decrypt c2)) requested)
      as [[st3 d3] p3] eqn:E3.
    injection E as _ <- <-.
    pose proof (stream_read_split_eq _ _ _ _ _ E3) as S3.
    split; [exact Hk|]. simpl. rewrite S3, Hq, S1. reflexivity.
Qed.

(** X9: a read on the decrypt bucket leaves the state of the session
    and the plaintext stream of the encrypt side as they are, and all it
    asks of Secure Transport is a number of SSLRead calls, each for
    SECURE_TRANSPORT_READ_BUFSIZE bytes. *)
Theorem X9_decrypt_read_never_drives_the_handshake
    (fuel rounds : nat) (ctx : sectrans_context_t) (requested : apr_size_t)
    (status : apr_status_t) (data : bytes) (ctx' : sectrans_context_t) :
  serf_sectrans_decrypt_read fuel rounds ctx requested
  = Some (status, data, ctx') ->
  state ctx' = state ctx
  /\ stream (encrypt ctx') = stream (encrypt ctx)
  /\ exists k,
       st_calls (st_ctxr ctx')
       = st_calls (st_ctxr ctx)
         ++ repeat (Call_SSLRead SECURE_TRANSPORT_READ_BUFSIZE) k.
Proof.
  intros E. apply decrypt_read_effect in E as (H1 & H2 & _ & H3 & _).
  repeat split; assumption.
Qed.

(** X10: with the pending buffers that sectrans_init_context sets up, a
    read on the decrypt bucket returns APR_SUCCESS, APR_EAGAIN or, without
    data, APR_EGENERAL; it never returns APR_EOF, also when the incoming
    stream is at its end. *)
Theorem X10_decrypt_read_never_reports_end_of_stream
    (fuel rounds : nat) (ctx : sectrans_context_t) (requested : apr_size_t)
    (status : apr_status_t) (data : bytes) (ctx' : sectrans_context_t) :
  pending_open ctx ->
  serf_sectrans_decrypt_read fuel rounds ctx requested
  = Some (status, data, ctx') ->
  (status = APR_SUCCESS \/ status = APR_EAGAIN
   \/ (status = APR_EGENERAL /\ data = []))
  /\ status <> APR_EOF.
Proof.
  intros Ho E. apply decrypt_read_effect in E as (_ & _ & _ & _ & H).
  specialize (H Ho). split; [exact H|].
  destruct H as [-> | [-> | [-> _]]]; discriminate.
Qed.

Lemma blen_nonneg (b : bytes) : 0 <= blen b.
Proof. unfold blen. lia. Qed.

Lemma size_wrap_small z : 0 <= z < SIZE_MAX_plus_1 -> size_wrap z = z.
Proof. intros H. unfold size_wrap. apply Z.mod_small. exact H. Qed.

(** With a source that never hands out more than it is asked for, the
    loop keeps the bytes copied plus the bytes still requested constant. *)
Lemma read_cb_loop_bounded
    (Hsrc : forall s n, 0 <= n -> blen (serf_bucket_read s n).1.2 <= n)
    fuel :
  forall v early v',
    0 <= rc_requested v ->
    rc_requested v + blen (rc_outbuf v) < SIZE_MAX_plus_1 ->
    rc_dataLength v = blen (rc_outbuf v) ->
    sectrans_read_cb_loop fuel v = Some (early, v') ->
    0 <= rc_requested v'
    /\ rc_requested v' + blen (rc_outbuf v')
       = rc_requested v + blen (rc_outbuf v)
    /\ rc_dataLength v' = blen (rc_outbuf v').
Proof.
  induction fuel as [|fuel IH]; intros v early v' H0 HM Hdl E;
    rewrite read_cb_loop_unfold in E;
    destruct (negb (truthy (rc_status v)) && truthy (rc_requested v)) eqn:Ec;
    try discriminate; try (injection E as <- <-; auto).
  destruct (serf_bucket_read (rc_stream v) (rc_requested v))
    as [[st buf] s] eqn:Er.
  pose proof (Hsrc (rc_stream v) (rc_requested v) H0) as Hb.
  rewrite Er in Hb. simpl in Hb. pose proof (blen_nonneg buf) as Hb0.
  pose proof (blen_nonneg (rc_outbuf v)) as Ho0.
  destruct (SERF_BUCKET_READ_ERROR st); [injection E as <- <-; auto|].
  destruct (truthy (blen buf)).
  - apply IH in E; simpl.
    + simpl in E. rewrite blen_app in E.
      rewrite size_wrap_small in E by lia. lia.
    + rewrite size_wrap_small by lia. lia.
    + rewrite blen_app, size_wrap_small by lia. lia.
    + rewrite blen_app, Hdl. apply size_wrap_small. lia.
  - apply IH in E; simpl; auto.
Qed.

(** X11: when the incoming stream never hands out more bytes than it is
    asked for, sectrans_read_cb copies at most the [N] bytes that Secure
    Transport asked for into its buffer, reports the number of bytes copied
    in the length argument, and returns noErr only with all [N] bytes. *)
Theorem X11_read_callback_stays_within_the_buffer
    (Hsrc : forall s n, 0 <= n -> blen (serf_bucket_read s n).1.2 <= n)
    (fuel : nat) (ctx : sectrans_context_t) (N : apr_size_t)
    (ret : OSStatus) (data : bytes) (dl : apr_size_t)
    (ctx' : sectrans_context_t) :
  0 <= N < SIZE_MAX_plus_1 ->
  sectrans_read_cb fuel ctx N = Some (ret, data, dl, ctx') ->
  blen data <= N
  /\ dl = blen data
  /\ (ret = noErr -> blen data = N).
Proof.
  intros HN E. pose proof E as E2.
  unfold sectrans_read_cb in E.
  destruct (sectrans_read_cb_loop _ _) as [[early v]|] eqn:El; simpl in E;
    [|discriminate].
  injection E as <- <- <- <-.
  apply (read_cb_loop_bounded Hsrc) in El; simpl;
    try (change (blen []) with 0; lia).
  simpl in El. destruct El as (H0 & Hsum & Hdl).
  change (blen []) with 0 in Hsum.
  split; [lia|]. split; [exact Hdl|]. intros Hret.
  apply read_cb_pulls in E2
    as (chunks & _ & _ & _ & Hdata & _ & Hstatus & Hnone & Hsome).
  assert (Hz : size_wrap (N - blen (rc_outbuf v)) = 0 \/ N = 0).
  { unfold read_cb_status in Hstatus.
    destruct (last chunks) as [[st buf]|] eqn:Hl.
    - left. apply (Hsome (st, buf)); [reflexivity|]. simpl in *.
      destruct (SERF_BUCKET_READ_ERROR st); [rewrite Hret in Hstatus; discriminate|].
      destruct (APR_STATUS_IS_EAGAIN st); [rewrite Hret in Hstatus; discriminate|].
      destruct (Z.eqb_spec st APR_SUCCESS); [assumption|].
      rewrite Hret in Hstatus. discriminate.
    - right. apply Hnone. reflexivity. }
  pose proof (blen_nonneg (rc_outbuf v)) as Ho0.
  destruct Hz as [Hz|Hz]; [|lia].
  rewrite size_wrap_small in Hz by lia. lia.
Qed.



(** ** The decisions of the certificate validation *)

Lemma truthy_land_idemp z : z <> 0 -> truthy (Z.land z z) = true.
Proof. intros H. rewrite Z.land_diag. apply truthy_true. exact H. Qed.

Lemma truthy_zero : truthy 0 = false.
Proof. reflexivity. Qed.

Lemma truthy_lor_r a b : b <> 0 -> truthy (Z.lor a b) = true.
Proof.
  intros H. apply truthy_true. intros E. apply Z.lor_eq_0_iff in E. tauto.
Qed.

Lemma switch_failures_nonzero result :
  SERF_SSL_CERT_ALL_OK <> 0 -> SERF_SSL_CERT_FATAL <> 0 ->
  SERF_SSL_CERT_RECOVERABLE <> 0 ->
  truthy (trust_result_switch result).1 = true.
Proof.
  intros Ha Hf Hr. unfold trust_result_switch.
  repeat match goal with
         | |- context [if ?b then _ else _] => destruct b
         end; simpl;
    first [apply truthy_true; assumption | apply truthy_lor_r; assumption].
Qed.

(** X14: when neither serf-managed mode is set and there is no
    application callback, or the application-managed mode is not set,
    validate_server_certificate returns SERF_ERROR_SSL_CERT_FAILED whatever
    the trust evaluation says, also for a trusted certificate. *)
Theorem X14_validation_fails_without_a_deciding_party
    (ctx : sectrans_context_t) certs trust result :
  SSLCopyPeerCertificates (st_state (st_ctxr ctx)) = (noErr, certs) ->
  SSLCopyPeerTrust (st_state (st_ctxr ctx)) = (noErr, trust) ->
  SecTrustEvaluate trust = (noErr, result) ->
  Z.land (modes ctx) serf_ssl_val_mode_serf_managed_with_gui = 0 ->
  Z.land (modes ctx) serf_ssl_val_mode_serf_managed_no_gui = 0 ->
  server_cert_callback ctx = None
  \/ Z.land (modes ctx) serf_ssl_val_mode_application_managed = 0 ->
  validate_server_certificate ctx = Some SERF_ERROR_SSL_CERT_FAILED.
Proof.
  intros Hc Ht He Hg Hn Hcb. unfold validate_server_certificate.
  rewrite Hc, Ht, He. simpl.
  destruct (trust_result_switch result) as [failures status].
  rewrite Hg, Hn, truthy_zero, !andb_false_r.
  assert (Hcall :
    match server_cert_callback ctx with
    | Some callback =>
      if truthy (Z.land (modes ctx) serf_ssl_val_mode_application_managed)
         && truthy failures
      then Some (callback (server_cert_userdata ctx) failures
                   (serf__create_certificate (allocator ctx)
                      {| content := None;
                         certref := CFArrayGetValueAtIndex certs 0 |} 0))
      else Some SERF_ERROR_SSL_CERT_FAILED
    | None => Some SERF_ERROR_SSL_CERT_FAILED
    end = Some SERF_ERROR_SSL_CERT_FAILED).
  { destruct Hcb as [-> | ->]; [reflexivity|].
    destruct (server_cert_callback ctx); reflexivity. }
  destruct (truthy (Z.land failures SERF_SSL_CERT_CONFIRM_NEEDED)
            || truthy (Z.land failures SERF_SSL_CERT_RECOVERABLE));
    exact Hcall.
Qed.

(** X15: with the application-managed mode set, neither serf-managed
    mode set and a server certificate callback registered,
    validate_server_certificate returns what the callback returns for the
    failures of the trust result and the first certificate of the chain,
    whatever the trust result is: the application can accept a certificate
    that Secure Transport rejects, and reject one that it trusts. *)
Theorem X15_application_callback_decides_in_application_mode
    (ctx : sectrans_context_t) certs trust result callback :
  SERF_SSL_CERT_ALL_OK <> 0 -> SERF_SSL_CERT_FATAL <> 0 ->
  SERF_SSL_CERT_RECOVERABLE <> 0 ->
  SSLCopyPeerCertificates (st_state (st_ctxr ctx)) = (noErr, certs) ->
  SSLCopyPeerTrust (st_state (st_ctxr ctx)) = (noErr, trust) ->
  SecTrustEvaluate trust = (noErr, result) ->
  Z.land (modes ctx) serf_ssl_val_mode_serf_managed_with_gui = 0 ->
  Z.land (modes ctx) serf_ssl_val_mode_serf_managed_no_gui = 0 ->
  Z.land (modes ctx) serf_ssl_val_mode_application_managed <> 0 ->
  server_cert_callback ctx = Some callback ->
  validate_server_certificate ctx
  = Some (callback (server_cert_userdata ctx) (trust_result_switch result).1
            (presented_certificate ctx certs)).
Proof.
  intros Ha Hf Hr Hc Ht He Hg Hn Hap Hcb.
  pose proof (switch_failures_nonzero result Ha Hf Hr) as Hnz.
  unfold validate_server_certificate.
  rewrite Hc, Ht, He. simpl.
  destruct (trust_result_switch result) as [failures status]. simpl in Hnz.
  apply truthy_true in Hap.
  rewrite Hg, Hn, truthy_zero, !andb_false_r, Hcb, Hap, Hnz. simpl.
  destruct (truthy (Z.land failures SERF_SSL_CERT_CONFIRM_NEEDED)
            || truthy (Z.land failures SERF_SSL_CERT_RECOVERABLE));
    reflexivity.
Qed.

(** X16: in a serf-managed mode, with or without GUI, a trust result
    that is neither Confirm nor RecoverableTrustFailure is decided without
    the application: APR_SUCCESS for Proceed and Unspecified,
    SERF_ERROR_SSL_KEYCHAIN_DENIED_CERT for Deny and
    SERF_ERROR_SSL_CERT_FAILED for every other result. *)
Theorem X16_serf_managed_verdict_ignores_the_callback
    (Hflags : cert_flags_separate)
    (ctx : sectrans_context_t) certs trust result :
  SSLCopyPeerCertificates (st_state (st_ctxr ctx)) = (noErr, certs) ->
  SSLCopyPeerTrust (st_state (st_ctxr ctx)) = (noErr, trust) ->
  SecTrustEvaluate trust = (noErr, result) ->
  Z.land (modes ctx) serf_ssl_val_mode_serf_managed_with_gui <> 0
  \/ Z.land (modes ctx) serf_ssl_val_mode_serf_managed_no_gui <> 0 ->
  recoverable result = false ->
  validate_server_certificate ctx
  = Some (if trusted result then APR_SUCCESS
          else if result =? kSecTrustResultDeny
               then SERF_ERROR_SSL_KEYCHAIN_DENIED_CERT
               else SERF_ERROR_SSL_CERT_FAILED).
Proof.
  intros Hc Ht He Hm Hrec.
  destruct Hflags as [Ha Hf Hac Har Hfc Hfr].
  assert (Hmode :
    truthy (Z.land (modes ctx) serf_ssl_val_mode_serf_managed_with_gui)
    || truthy (Z.land (modes ctx) serf_ssl_val_mode_serf_managed_no_gui)
    = true).
  { apply orb_true_iff. destruct Hm as [Hm|Hm]; [left|right];
      apply truthy_true; exact Hm. }
  unfold validate_server_certificate.
  rewrite Hc, Ht, He. simpl.
  unfold recoverable in Hrec. apply orb_false_iff in Hrec as [Hr1 Hr2].
  unfold trust_result_switch, trusted. rewrite Hr1, Hr2.
  destruct ((result =? kSecTrustResultUnspecified)
            || (result =? kSecTrustResultProceed)).
  - rewrite Hac, Har, truthy_zero. simpl.
    rewrite (truthy_land_idemp _ Ha), Hmode. reflexivity.
  - destruct (result =? kSecTrustResultInvalid) eqn:E1;
      [apply Z.eqb_eq in E1; subst result; simpl (_ =? _)|];
      repeat match goal with
             | |- context [if (result =? ?k) then _ else _] =>
               destruct (result =? k)
             end;
      rewrite Hfc, Hfr, truthy_zero; simpl;
      rewrite (truthy_land_idemp _ Hf), orb_true_r, Hmode; reflexivity.
Qed.

(** X17: in the serf-managed mode with GUI, a trust result of Confirm or
    RecoverableTrustFailure is decided by the answer of the trust panel
    alone: APR_SUCCESS when it is not zero and
    SERF_ERROR_SSL_USER_DENIED_CERT when it is zero, whatever the other
    modes and the application callback are. *)
Theorem X17_gui_answer_decides_recoverable_failures
    (ctx : sectrans_context_t) certs trust result :
  SERF_SSL_CERT_RECOVERABLE <> 0 ->
  SSLCopyPeerCertificates (st_state (st_ctxr ctx)) = (noErr, certs) ->
  SSLCopyPeerTrust (st_state (st_ctxr ctx)) = (noErr, trust) ->
  SecTrustEvaluate trust = (noErr, result) ->
  Z.land (modes ctx) serf_ssl_val_mode_serf_managed_with_gui <> 0 ->
  recoverable result = true ->
  validate_server_certificate ctx
  = Some (if runModalForTrust trust =? 0
          then SERF_ERROR_SSL_USER_DENIED_CERT else APR_SUCCESS).
Proof.
  intros Hr Hc Ht He Hg Hrec. apply truthy_true in Hg.
  assert (Hask : ask_approval_gui ctx trust
                 = if runModalForTrust trust =? 0
                   then SERF_ERROR_SSL_USER_DENIED_CERT else APR_SUCCESS).
  { unfold ask_approval_gui, truthy.
    destruct (runModalForTrust trust =? 0); reflexivity. }
  unfold validate_server_certificate.
  rewrite Hc, Ht, He. simpl.
  unfold recoverable in Hrec. unfold trust_result_switch.
  destruct (result =? kSecTrustResultConfirm) eqn:E1.
  - apply Z.eqb_eq in E1. subst result. simpl.
    rewrite land_lor_absorb, (proj2 (truthy_true _) Hr), orb_true_r, Hg, Hask.
    reflexivity.
  - simpl in Hrec. rewrite Hrec.
    apply Z.eqb_eq in Hrec. subst result. simpl.
    rewrite land_lor_absorb, (proj2 (truthy_true _) Hr), orb_true_r, Hg, Hask.
    reflexivity.
Qed.

(** X18: without the GUI mode, a trust result of Confirm or
    RecoverableTrustFailure is handed to the application callback when one
    is registered and the application-managed mode is set, and its answer
    is returned; otherwise the result is SERF_ERROR_SSL_CERT_FAILED. *)
Theorem X18_recoverable_failures_without_gui_go_to_the_callback
    (ctx : sectrans_context_t) certs trust result :
  SERF_SSL_CERT_RECOVERABLE <> 0 ->
  SSLCopyPeerCertificates (st_state (st_ctxr ctx)) = (noErr, certs) ->
  SSLCopyPeerTrust (st_state (st_ctxr ctx)) = (noErr, trust) ->
  SecTrustEvaluate trust = (noErr, result) ->
  recoverable result = true ->
  Z.land (trust_result_switch result).1 SERF_SSL_CERT_ALL_OK = 0 ->
  Z.land (trust_result_switch result).1 SERF_SSL_CERT_FATAL = 0 ->
  Z.land (modes ctx) serf_ssl_val_mode_serf_managed_with_gui = 0 ->
  validate_server_certificate ctx
  = Some match server_cert_callback ctx with
         | Some callback =>
           if Z.land (modes ctx) serf_ssl_val_mode_application_managed =? 0
           then SERF_ERROR_SSL_CERT_FAILED
           else callback (server_cert_userdata ctx)
                  (trust_result_switch result).1
                  (presented_certificate ctx certs)
         | None => SERF_ERROR_SSL_CERT_FAILED
         end.
Proof.
  intros Hr Hc Ht He Hrec Hok Hfat Hg.
  assert (Hfail : exists x,
             (trust_result_switch result).1 = Z.lor x SERF_SSL_CERT_RECOVERABLE).
  { unfold recoverable in Hrec. unfold trust_result_switch.
    destruct (result =? kSecTrustResultConfirm) eqn:E1.
    - apply Z.eqb_eq in E1. subst result. simpl. eauto.
    - simpl in Hrec. rewrite Hrec. apply Z.eqb_eq in Hrec. subst result.
      simpl. eauto. }
  destruct Hfail as [x Hx].
  unfold validate_server_certificate.
  rewrite Hc, Ht, He. simpl.
  destruct (trust_result_switch result) as [failures status]. simpl in *.
  subst failures.
  rewrite land_lor_absorb, (proj2 (truthy_true _) Hr), orb_true_r.
  rewrite Hg, Hok, Hfat, truthy_zero. simpl.
  rewrite (truthy_lor_r _ _ Hr), andb_true_r.
  destruct (server_cert_callback ctx) as [callback|]; [|reflexivity].
  unfold truthy.
  destruct (Z.land (modes ctx) serf_ssl_val_mode_application_managed =? 0);
    reflexivity.
Qed.

Lemma translate_success status :
  translate_sectrans_status status = APR_SUCCESS -> status = noErr.
Proof.
  unfold translate_sectrans_status.
  destruct (Z.eqb_spec status noErr); [auto|].
  destruct (status =? errSSLWouldBlock); discriminate.
Qed.

Lemma switch_success result :
  SERF_ERROR_SSL_CERT_FAILED <> APR_SUCCESS ->
  SERF_ERROR_SSL_KEYCHAIN_DENIED_CERT <> APR_SUCCESS ->
  (trust_result_switch result).2 = Some APR_SUCCESS ->
  trusted result = true.
Proof.
  intros H1 H2. unfold trust_result_switch, trusted.
  destruct ((result =? kSecTrustResultUnspecified)
            || (result =? kSecTrustResultProceed)); [reflexivity|].
  repeat match goal with
         | |- context [if ?b then _ else _] => destruct b
         end; simpl; intros E; congruence.
Qed.

(** X19: validate_server_certificate returns APR_SUCCESS only when the
    peer's certificates and trust were obtained and evaluated without error
    and either the certificate is trusted and a serf-managed mode is set, or
    the GUI mode is set and the trust panel was answered with yes, or the
    application-managed mode is set and the registered callback returned
    APR_SUCCESS. *)
Theorem X19_validation_succeeds_only_when_justified
    (Herr : cert_errors_are_failures) (ctx : sectrans_context_t) :
  validate_server_certificate ctx = Some APR_SUCCESS ->
  exists certs trust result,
    SSLCopyPeerCertificates (st_state (st_ctxr ctx)) = (noErr, certs)
    /\ SSLCopyPeerTrust (st_state (st_ctxr ctx)) = (noErr, trust)
    /\ SecTrustEvaluate trust = (noErr, result)
    /\ ((trusted result = true
         /\ (Z.land (modes ctx) serf_ssl_val_mode_serf_managed_with_gui <> 0
             \/ Z.land (modes ctx) serf_ssl_val_mode_serf_managed_no_gui
                <> 0))
        \/ (Z.land (modes ctx) serf_ssl_val_mode_serf_managed_with_gui <> 0
            /\ runModalForTrust trust <> 0)
        \/ (exists callback,
              server_cert_callback ctx = Some callback
              /\ Z.land (modes ctx) serf_ssl_val_mode_application_managed
                 <> 0
              /\ callback (server_cert_userdata ctx)
                   (trust_result_switch result).1
                   (presented_certificate ctx certs) = APR_SUCCESS)).
Proof.
  destruct Herr as [Hcf Hcc Hud Hkd].
  unfold validate_server_certificate.
  destruct (SSLCopyPeerCertificates _) as [s1 certs] eqn:Ec.
  destruct (negb (s1 =? noErr)) eqn:E1.
  { intros E. injection E as E. apply translate_success in E. subst s1.
    discriminate. }
  destruct (SSLCopyPeerTrust _) as [s2 trust] eqn:Et.
  destruct (negb (s2 =? noErr)) eqn:E2; [discriminate|].
  destruct (SecTrustEvaluate trust) as [s3 result] eqn:Ee.
  destruct (negb (s3 =? noErr)) eqn:E3.
  { intros E. injection E as E. apply translate_success in E. subst s3.
    discriminate. }
  apply negb_false_iff, Z.eqb_eq in E1, E2, E3. subst s1 s2 s3.
  pose proof (switch_success result Hcf Hkd) as Hsw.
  destruct (trust_result_switch result) as [failures status] eqn:Esw.
  simpl in Hsw. simpl.
  intros E. exists certs, trust, result. rewrite Esw. simpl.
  split; [reflexivity|]. split; [reflexivity|]. split; [exact Ee|].
  (* the call-back part of the decision *)
  assert (Hcall :
    match server_cert_callback ctx with
    | Some callback =>
      if truthy (Z.land (modes ctx) serf_ssl_val_mode_application_managed)
         && truthy failures
      then Some (callback (server_cert_userdata ctx) failures
                   (serf__create_certificate (allocator ctx)
                      {| content := None;
                         certref := CFArrayGetValueAtIndex certs 0 |} 0))
      else Some SERF_ERROR_SSL_CERT_FAILED
    | None => Some SERF_ERROR_SSL_CERT_FAILED
    end = Some APR_SUCCESS ->
    exists callback,
      server_cert_callback ctx = Some callback
      /\ Z.land (modes ctx) serf_ssl_val_mode_application_managed <> 0
      /\ callback (server_cert_userdata ctx) failures
           (presented_certificate ctx certs) = APR_SUCCESS).
  { assert (Hno : Some SERF_ERROR_SSL_CERT_FAILED = Some APR_SUCCESS ->
                   exists callback,
                     server_cert_callback ctx = Some callback
                     /\ Z.land (modes ctx)
                               serf_ssl_val_mode_application_managed <> 0
                     /\ callback (server_cert_userdata ctx) failures
                          (presented_certificate ctx certs) = APR_SUCCESS).
    { intros Hs. injection Hs as Hs. exfalso. exact (Hcf Hs). }
    destruct (server_cert_callback ctx) as [callback|]; [|exact Hno].
    destruct (truthy (Z.land (modes ctx)
                        serf_ssl_val_mode_application_managed)) eqn:Ea;
      simpl; [|exact Hno].
    destruct (truthy failures); [|exact Hno].
    intros Hs. injection Hs as Hs. exists callback. split; [reflexivity|].
    split; [apply truthy_true; exact Ea|exact Hs]. }
  assert (Hmode : forall b : bool,
    b && (truthy (Z.land (modes ctx) serf_ssl_val_mode_serf_managed_with_gui)
          || truthy (Z.land (modes ctx)
                            serf_ssl_val_mode_serf_managed_no_gui)) = true ->
    Z.land (modes ctx) serf_ssl_val_mode_serf_managed_with_gui <> 0
    \/ Z.land (modes ctx) serf_ssl_val_mode_serf_managed_no_gui <> 0).
  { intros b Hb. apply andb_true_iff in Hb as [_ Hb].
    apply orb_true_iff in Hb as [Hb|Hb]; [left|right];
      apply truthy_true; exact Hb. }
  destruct (truthy (Z.land failures SERF_SSL_CERT_CONFIRM_NEEDED)
            || truthy (Z.land failures SERF_SSL_CERT_RECOVERABLE)).
  - destruct (truthy (Z.land (modes ctx)
                        serf_ssl_val_mode_serf_managed_with_gui)) eqn:Eg.
    + right. left. split; [apply truthy_true; exact Eg|].
      unfold ask_approval_gui in E.
      destruct (truthy (runModalForTrust trust)) eqn:Eu;
        [|injection E as E; exfalso; exact (Hud E)].
      apply truthy_true. exact Eu.
    + match type of E with
      | (if ?c then _ else _) = _ => destruct c
      end; [injection E as E; exfalso; exact (Hcc E)|].
      right. right. apply Hcall. exact E.
  - match type of E with
    | (if ?c then _ else _) = _ => destruct c eqn:Em
    end.
    + left. split; [apply Hsw; exact E|]. eapply Hmode. exact Em.
    + right. right. apply Hcall. exact E.
Qed.

Lemma land_single_bit x c :
  single_bit c -> Z.land x c = if truthy (Z.land x c) then c else 0.
Proof.
  intros (k & Hk & ->). unfold truthy.
  destruct (Z.eqb_spec (Z.land x (2 ^ k)) 0) as [E|E]; [exact E|]. simpl.
  apply Z.bits_inj'. intros n Hn. rewrite Z.land_spec.
  destruct (Z.eq_dec n k) as [->|Hne].
  - rewrite Z.pow2_bits_true by lia.
    destruct (Z.testbit x k) eqn:Eb; [reflexivity|].
    exfalso. apply E. apply Z.bits_inj'. intros n Hn'.
    rewrite Z.land_spec, Z.bits_0.
    destruct (Z.eq_dec n k) as [->|Hne]; [rewrite Eb; reflexivity|].
    rewrite Z.pow2_bits_false by lia. apply andb_false_r.
  - rewrite Z.pow2_bits_false by lia. apply andb_false_r.
Qed.

(** X13: the three validation modes being single bits,
    set_allowed_cert_validation_modes replaces the modes of the context by
    the requested modes that are supported, whatever the modes were before,
    returns them, and changes nothing else; asking for the returned modes
    again returns them again. *)
Theorem X13_allowed_modes_are_the_supported_ones_requested
    (ctx : sectrans_context_t) (modes_arg : Z) :
  single_bit serf_ssl_val_mode_serf_managed_with_gui ->
  single_bit serf_ssl_val_mode_serf_managed_no_gui ->
  single_bit serf_ssl_val_mode_application_managed ->
  let '(ctx', returned) := set_allowed_cert_validation_modes ctx modes_arg in
  returned = Z.land modes_arg supported_modes
  /\ ctx' = set_modes ctx returned
  /\ (set_allowed_cert_validation_modes ctx' returned).2 = returned.
Proof.
  intros Hg Hn Ha.
  assert (Hret : forall c m,
    set_allowed_cert_validation_modes c m
    = (set_modes c (Z.land m supported_modes), Z.land m supported_modes)).
  { intros c m. unfold set_allowed_cert_validation_modes, supported_modes.
    rewrite !Z.land_lor_distr_r.
    pose proof (land_single_bit m _ Hg) as Eg.
    pose proof (land_single_bit m _ Hn) as En.
    pose proof (land_single_bit m _ Ha) as Ea.
    destruct (truthy (Z.land m serf_ssl_val_mode_serf_managed_with_gui));
      destruct (truthy (Z.land m serf_ssl_val_mode_serf_managed_no_gui));
      destruct (truthy (Z.land m serf_ssl_val_mode_application_managed));
      rewrite Eg, En, Ea; simpl; rewrite ?Z.lor_0_r; reflexivity. }
  rewrite Hret. split; [reflexivity|]. split; [reflexivity|].
  rewrite Hret. simpl.
  rewrite <- Z.land_assoc, Z.land_diag. reflexivity.
Qed.

(** ** The contexts in memory *)



Lemma only_context_changed_insert a m c :
  only_context_changed a m (set_contexts m (<[a := c]> (contexts m))).
Proof. intros b Hb. simpl. apply lookup_insert_ne. congruence. Qed.

Lemma create_footprint create (m : memory) (bucket : serf_bucket_t)
    (s : source) (impl_ctx : option addr) (alloc : serf_bucket_alloc_t)
    (mem : sectrans_context_t) m' bucket' a :
  create = decrypt_create \/ create = encrypt_create ->
  create m bucket s impl_ctx alloc mem = Some (m', bucket', a) ->
  only_context_changed a m m'
  /\ disposed m' = disposed m
  /\ data bucket' = Some a
  /\ is_Some (contexts m' !! a)
  /\ match impl_ctx with
     | Some a0 => a = a0 /\ is_Some (contexts m !! a)
     | None => contexts m !! a = None
     end.
Proof.
  intros Hcreate E.
  destruct impl_ctx as [a0|].
  - assert (exists c c', contexts m !! a0 = Some c
                         /\ Some (m', bucket', a)
                            = Some (set_contexts m (<[a0 := c']> (contexts m)),
                                    bucket', a0)
                         /\ data bucket' = Some a0)
      as (c & c' & Hl & E' & Hd).
    { destruct (contexts m !! a0) as [c|] eqn:Hl.
      - destruct Hcreate as [-> | ->];
          [rewrite (decrypt_create_existing _ _ _ _ _ _ _ Hl) in E
          |rewrite (encrypt_create_existing _ _ _ _ _ _ _ Hl) in E];
          injection E as <- <- <-; eexists _, _;
          (split; [reflexivity|]); split; reflexivity.
      - destruct Hcreate as [-> | ->];
          [unfold decrypt_create in E|unfold encrypt_create in E];
          simpl in E; rewrite Hl in E; discriminate. }
    injection E' as -> ->.
    split; [apply only_context_changed_insert|].
    split; [reflexivity|]. split; [exact Hd|].
    split; [simpl; rewrite lookup_insert_eq; eauto|].
    split; [reflexivity|eauto].
  - set (a1 := fresh (dom (contexts m))).
    assert (exists c c', Some (m', bucket', a)
                         = Some (set_contexts m
                                   (<[a1 := c']> (<[a1 := c]> (contexts m))),
                                 bucket', a1)
                         /\ data bucket' = Some a1)
      as (c & c' & E' & Hd).
    { destruct Hcreate as [-> | ->];
        [unfold decrypt_create in E|unfold encrypt_create in E];
        unfold context_for in E; fold a1 in E;
        destruct (sectrans_init_context alloc mem) as [c ok];
        (destruct ok; simpl in E; [|discriminate]);
        rewrite lookup_insert_eq in E; simpl in E;
        injection E as <- <- <-; eexists _, _; split; reflexivity. }
    injection E' as -> ->.
    split.
    { intros b Hb. simpl. rewrite !lookup_insert_ne by congruence.
      reflexivity. }
    split; [reflexivity|]. split; [exact Hd|].
    split; [simpl; rewrite lookup_insert_eq; eauto|].
    apply not_elem_of_dom, is_fresh.
Qed.

(** X21: creating a bucket and destroying a bucket change no context
    but the one of the bucket.  A new context is put at an address that was
    free, and an existing one stays where it is; creating disposes of no
    session and leaves the context in memory; destroying disposes of at
    most the session of the context of the bucket, and then frees that
    context. *)
Theorem X21_bucket_operations_touch_only_their_own_context
    (m m' : memory) (bucket : serf_bucket_t) :
  (forall create s impl_ctx alloc mem bucket' a,
      create = decrypt_create \/ create = encrypt_create ->
      create m bucket s impl_ctx alloc mem = Some (m', bucket', a) ->
      only_context_changed a m m'
      /\ disposed m' = disposed m
      /\ data bucket' = Some a
      /\ is_Some (contexts m' !! a)
      /\ match impl_ctx with
         | Some a0 => a = a0 /\ is_Some (contexts m !! a)
         | None => contexts m !! a = None
         end)
  /\ (forall destroy,
        destroy = serf_sectrans_encrypt_destroy_and_data
        \/ destroy = serf_sectrans_decrypt_destroy_and_data ->
        destroy m bucket = Some m' ->
        exists a c,
          data bucket = Some a
          /\ contexts m !! a = Some c
          /\ only_context_changed a m m'
          /\ (disposed m' = disposed m
              \/ (disposed m' = disposed m ++ [st_ctxr c]
                  /\ contexts m' !! a = None))).
Proof.
  split; [intros; eapply create_footprint; eauto|].
  intros destroy Hdestroy E.
  destruct (data bucket) as [a|] eqn:Hd.
  2:{ destruct Hdestroy as [-> | ->];
        [unfold serf_sectrans_encrypt_destroy_and_data in E
        |unfold serf_sectrans_decrypt_destroy_and_data in E];
        rewrite Hd in E; discriminate. }
  destruct (contexts m !! a) as [c|] eqn:Hl.
  2:{ destruct Hdestroy as [-> | ->];
        [unfold serf_sectrans_encrypt_destroy_and_data in E
        |unfold serf_sectrans_decrypt_destroy_and_data in E];
        rewrite Hd in E; simpl in E; rewrite Hl in E; discriminate. }
  pose proof (destroy_either destroy m bucket a c Hdestroy Hd Hl) as E'.
  rewrite E in E'. injection E' as ->. exists a, c.
  split; [reflexivity|]. split; [exact Hl|].
  destruct (refcount c - 1 =? 0).
  - split; [intros b Hb; simpl; apply lookup_delete_ne; congruence|].
    right. split; [reflexivity|]. simpl. apply lookup_delete_eq.
  - split; [apply only_context_changed_insert|]. left. reflexivity.
Qed.

End Properties.

(** ** The test doubles meet the assumptions *)

Lemma mock_flags_separate : @cert_flags_separate Mock.constants.
Proof. constructor; vm_compute; congruence. Qed.

Lemma mock_errors_are_failures : @cert_errors_are_failures Mock.constants.
Proof. constructor; vm_compute; congruence. Qed.

Lemma mock_modes_single_bit :
  single_bit (@serf_ssl_val_mode_serf_managed_with_gui Mock.constants)
  /\ single_bit (@serf_ssl_val_mode_serf_managed_no_gui Mock.constants)
  /\ single_bit (@serf_ssl_val_mode_application_managed Mock.constants).
Proof.
  split; [exists 0|split; [exists 1|exists 2]]; split;
    first [reflexivity | discriminate].
Qed.

(** The scripted source never hands out more than it is asked for. *)
Lemma script_read_bounded (s : list (apr_status_t * bytes)) (n : apr_size_t) :
  0 <= n -> blen (Mock.script_read s n).1.2 <= n.
Proof.
  intros Hn. unfold Mock.script_read.
  destruct s as [|[status chunk] rest]; [unfold blen; simpl; lia|].
  destruct (Z.leb_spec (blen chunk) n) as [Hle|Hgt]; simpl; [exact Hle|].
  unfold blen. rewrite length_firstn. lia.
Qed.


(** * Concrete runs *)

Import Mock.

(** C1, the failing input: the default validation mode (no GUI), a
    handshake step that stops for the evaluation of the server certificate,
    and a trust result that asks for confirmation.  The read returns
    SERF_ERROR_SSL_CERT_FAILED. *)
Lemma C1_failing_input_run :
  modes awaiting_confirmation = serf_ssl_val_mode_serf_managed_no_gui
  /\ server_cert_callback awaiting_confirmation = None
  /\ exists ctx1,
       serf_sectrans_encrypt_read 1 awaiting_confirmation 16
       = Some (SERF_ERROR_SSL_CERT_FAILED, [], ctx1)
       /\ state ctx1 = SERF_SECTRANS_HANDSHAKE
       /\ SERF_ERROR_SSL_CERT_FAILED <> SERF_ERROR_SSL_CANT_CONFIRM_CERT.
Proof.
  split; [reflexivity|]. split; [reflexivity|]. eexists.
  eapply (C1_confirm_without_gui_reports_cert_failed mock_constants_sound
            1 awaiting_confirmation _ 16).
  - left. reflexivity.
  - reflexivity.
  - reflexivity.
  - reflexivity.
  - reflexivity.
  - reflexivity.
Defined.

Lemma C2_trusted_certificate_run :
  exists ctx1, do_handshake 1 awaiting_evaluation = Some (APR_EAGAIN, ctx1).
Proof.
  eexists.
  refine (proj1 (C2_server_auth_completed_runs_validation
                   1 awaiting_evaluation _ APR_SUCCESS _ _) eq_refl).
  - reflexivity.
  - reflexivity.
Defined.

Lemma C3_two_rounds_run :
  exists c',
    decrypt_rounds 3 receiving 2 APR_EAGAIN c'
    /\ serf_sectrans_decrypt_read 3 2 receiving 10
       = Some (after_decrypt_rounds APR_EAGAIN c' 10).
Proof.
  eexists. split.
  - eapply decrypt_rounds_again; [reflexivity|].
    eapply decrypt_rounds_last; [reflexivity|]. unfold APR_EAGAIN, APR_SUCCESS.
    lia.
  - refine (proj2 (proj2 (C3_decrypt_read_serves_pending_then_decrypts
                            3 2 receiving 10 APR_EAGAIN [] _ _ _) eq_refl)
              2%nat APR_EAGAIN _ _ _).
    + reflexivity.
    + reflexivity.
    + eapply decrypt_rounds_again; [reflexivity|].
      eapply decrypt_rounds_last; [reflexivity|].
      unfold APR_EAGAIN, APR_SUCCESS. lia.
    + lia.
Defined.

Lemma C4_blocked_after_three_bytes_run :
  exists chunks s',
    pulls (stream (decrypt receiving)) APR_SUCCESS 4 chunks s'
    /\ sectrans_read_cb 3 receiving 4
       = Some (errSSLWouldBlock, [Byte.x68; Byte.x69; Byte.x21], 3,
               set_decrypt_stream receiving s').
Proof.
  assert (P : pulls (stream (decrypt receiving)) APR_SUCCESS 4
                [(APR_SUCCESS, [Byte.x68; Byte.x69]);
                 (APR_SUCCESS, [Byte.x21]); (APR_EAGAIN, [])] []).
  { eapply pulls_more; [lia|reflexivity|reflexivity|]. simpl.
    eapply pulls_more; [vm_compute; discriminate
                       |reflexivity|reflexivity|]. simpl.
    eapply pulls_more; [vm_compute; discriminate
                       |reflexivity|reflexivity|]. simpl.
    apply pulls_stop. left. unfold APR_EAGAIN, APR_SUCCESS. lia. }
  eexists _, _. split; [exact P|].
  exact (proj2 (C4_read_callback_pulls_until_done_or_blocked 3 receiving 4)
           _ _ P (le_n 3)).
Defined.

Lemma C5_partial_read_run :
  serf_sectrans_encrypt_read 0 connected_with_pending 2
  = Some (APR_SUCCESS, [Byte.x17; Byte.x03],
          set_encrypt_pending connected_with_pending
            (stream_read (pending (encrypt connected_with_pending)) 2).2).
Proof.
  refine (proj1 (C5_connected_pending_served_with_success
                   0 connected_with_pending 2 APR_SUCCESS _ _ _ _ _ _)).
  - reflexivity.
  - reflexivity.
  - discriminate.
  - reflexivity.
Defined.

Lemma C6_idle_run :
  serf_sectrans_encrypt_read 0 connected_idle 16
  = Some (APR_EAGAIN, [],
          set_encrypt_stream
            (set_encrypt_pending connected_idle
               (pending (encrypt connected_idle))) [])
  /\ st_calls (st_ctxr connected_idle) = [].
Proof.
  split; [|reflexivity].
  refine (proj1 (C6_connected_nothing_to_encrypt
                   0 connected_idle 16 APR_EAGAIN _ _ _ _ _ _)).
  - reflexivity.
  - reflexivity.
  - reflexivity.
  - reflexivity.
Defined.

(** C7: an encrypt bucket makes the context, a decrypt bucket joins it,
    and the two are destroyed, the encrypt bucket first. *)
Lemma C7_pair_of_buckets_run :
  exists m1 be m2 bd a0 m3 m4,
    encrypt_create empty_memory blank_bucket [] None 0 uninitialised
    = Some (m1, be, a0)
    /\ decrypt_create m1 blank_bucket [] (Some a0) 0 uninitialised
       = Some (m2, bd, a0)
    /\ serf_sectrans_encrypt_destroy_and_data m2 be = Some m3
    /\ (exists c3, contexts m3 !! a0 = Some c3 /\ refcount c3 = 1)
    /\ disposed m3 = []
    /\ serf_sectrans_decrypt_destroy_and_data m3 bd = Some m4
    /\ contexts m4 = ∅
    /\ length (disposed m4) = 1%nat.
Proof.
  destruct (proj2 (proj2 (proj2 (C7_context_reference_count
                                   0 uninitialised uninitialised empty_memory
                                   1%positive blank_bucket blank_bucket
                                   blank_bucket [] [] [])))
              eq_refl encrypt_create decrypt_create
              (or_intror eq_refl) (or_introl eq_refl))
    as (m1 & be & m2 & bd & a0 & session & H1 & _ & H2 & _ & H3).
  destruct (H3 be bd serf_sectrans_encrypt_destroy_and_data
              serf_sectrans_decrypt_destroy_and_data
              (or_introl (conj eq_refl eq_refl))
              (or_introl eq_refl) (or_intror eq_refl))
    as (m3 & c3 & m4 & D1 & L3 & R3 & P3 & D2 & L4 & P4).
  exists m1, be, m2, bd, a0, m3, m4.
  split; [exact H1|]. split; [exact H2|]. split; [exact D1|].
  split; [exists c3; split; assumption|]. split; [exact P3|].
  split; [exact D2|]. split; [exact L4|]. rewrite P4. reflexivity.
Defined.

Lemma C8_empty_pending_read_run :
  stream_read (pending (encrypt connected_idle)) 16
  = (APR_EAGAIN, [], pending (encrypt connected_idle)).
Proof.
  destruct (C8_pending_buffers_never_report_eof
              0 [] 0 uninitialised connected_idle 0 0 16
              (APR_SUCCESS, [], connected_idle) [])
    as (_ & _ & _ & H).
  destruct (H (conj eq_refl eq_refl)) as (_ & _ & Hp).
  exact (proj2 (proj2 (proj2 (Hp _ (or_introl eq_refl)))) eq_refl).
Defined.

(** C9, the counterexample: the handshake has begun, the handshake step
    queues four bytes and returns errSSLWouldBlock; a read for two bytes
    then returns APR_SUCCESS with two bytes and leaves the state at
    HANDSHAKE: the state has not advanced, and the status is neither
    would-block nor a fatal error. *)
Lemma C9_handshake_bytes_counterexample :
  state mid_handshake = SERF_SECTRANS_HANDSHAKE
  /\ ~ (forall status data ctx',
           serf_sectrans_encrypt_read 1 mid_handshake 2
           = Some (status, data, ctx') ->
           advances mid_handshake ctx'
           \/ (state ctx' = SERF_SECTRANS_HANDSHAKE
               /\ (status = APR_EAGAIN
                   \/ SERF_BUCKET_READ_ERROR status = true))).
Proof.
  split; [reflexivity|]. intros H.
  destruct (H _ _ _ eq_refl) as [E|[_ [E|E]]].
  - unfold advances in E. vm_compute in E. lia.
  - vm_compute in E. discriminate.
  - vm_compute in E. discriminate.
Qed.

Lemma C9_handshake_bytes_run :
  exists data ctx',
    serf_sectrans_encrypt_read 1 mid_handshake 2
    = Some (APR_SUCCESS, data, ctx')
    /\ (state ctx' = SERF_SECTRANS_CONNECTED
        \/ (state ctx' = SERF_SECTRANS_HANDSHAKE
            /\ ((SERF_BUCKET_READ_ERROR APR_SUCCESS = true /\ data = [])
                \/ (APR_SUCCESS = APR_EAGAIN
                    /\ queue (pending (encrypt ctx')) = [])
                \/ (APR_SUCCESS = APR_SUCCESS
                    /\ queue (pending (encrypt ctx')) <> []
                    /\ (0 < 2 -> data <> []))))).
Proof.
  eexists _, _. split; [reflexivity|].
  refine (proj1 (proj2 (C9_handshake_reads_never_move_backward
                          1 mid_handshake [] [] 2 APR_SUCCESS _ _
                          APR_SUCCESS mid_handshake))
            (or_intror eq_refl) eq_refl eq_refl).
Defined.

(** ** Runs of the further properties *)

(** X1: the extension of certs.d/ca.pem is pem. *)
Lemma X1_ca_pem_run :
  splitext ca_path = [Byte.x70; Byte.x65; Byte.x6d].
Proof.
  apply (X1_splitext_extension
           [Byte.x63; Byte.x65; Byte.x72; Byte.x74; Byte.x73; Byte.x2e;
            Byte.x64; Byte.x2f; Byte.x63]
           [Byte.x70; Byte.x65; Byte.x6d] Byte.x61).
  - discriminate.
  - simpl. intros [H|[H|[H|H]]]; (discriminate || exact H).
  - simpl. intros [H|[H|[H|H]]]; (discriminate || exact H).
Defined.

(** X2: home/.profile has no extension. *)
Lemma X2_hidden_file_run : splitext hidden_path = [].
Proof.
  apply X2_splitext_no_extension. right.
  exists [Byte.x68; Byte.x6f; Byte.x6d; Byte.x65; Byte.x2f],
    [Byte.x70; Byte.x72; Byte.x6f; Byte.x66; Byte.x69; Byte.x6c; Byte.x65].
  split; [reflexivity|]. split.
  - simpl. intros [H|[H|[H|[H|[H|[H|[H|H]]]]]]]; (discriminate || exact H).
  - right. left. exists [Byte.x68; Byte.x6f; Byte.x6d; Byte.x65]. reflexivity.
Defined.

(** X3: certs.d/ca.pem is cut in front of its last period. *)
Lemma X3_ca_pem_run :
  exists pre c,
    ca_path = pre ++ c :: dot :: splitext ca_path
    /\ c <> slash
    /\ ~ In dot (splitext ca_path)
    /\ ~ In slash (splitext ca_path).
Proof.
  apply X3_splitext_shape. vm_compute. discriminate.
Defined.

(** X4: three bytes are pending when the handshake step sends its four
    bytes; a read for two bytes returns the first two of the pending
    bytes, and the third and the four handshake bytes stay queued, in that
    order. *)
Lemma X4_handshake_bytes_run :
  exists ctx',
    serf_sectrans_encrypt_read 1 hello_behind_pending 2
    = Some (APR_SUCCESS, [Byte.x17; Byte.x03], ctx')
    /\ queue (pending (encrypt hello_behind_pending))
       = [Byte.x17; Byte.x03; Byte.x03]
    /\ [Byte.x17; Byte.x03] ++ queue (pending (encrypt ctx'))
       = [Byte.x17; Byte.x03; Byte.x03]
         ++ [Byte.x16; Byte.x03; Byte.x01; Byte.x00] ++ [].
Proof.
  eexists. split; [reflexivity|]. split; [reflexivity|].
  destruct (X4_encrypt_read_serves_ciphertext_in_order
              1 hello_behind_pending 2 _ _ _ eq_refl)
    as [(write_bytes & Heq & [[_ Hw]|(c & _ & Hcalls & _)]) _].
  - rewrite Hw in Heq. exact Heq.
  - vm_compute in Hcalls. discriminate Hcalls.
Defined.

(** X5: a connected session with two bytes to send makes one SSLWrite. *)
Lemma X5_one_write_run :
  exists status data ctx',
    serf_sectrans_encrypt_read 1 connected_with_plaintext 16
    = Some (status, data, ctx')
    /\ exists wr,
         st_calls (st_ctxr ctx') = [] ++ [] ++ wr
         /\ (wr = []
             \/ wr = [Call_SSLWrite [Byte.x68; Byte.x69]]
                /\ [Byte.x68; Byte.x69] <> []
                /\ handshaking (state ctx') = false)
         /\ (handshaking (state ctx') = true ->
             wr = []
             /\ stream (encrypt ctx')
                = stream (encrypt connected_with_plaintext)).
Proof.
  eexists _, _, _. split; [reflexivity|].
  eapply (X5_encrypt_read_calls_into_secure_transport
            1 connected_with_plaintext 16).
  reflexivity.
Defined.

(** X6: the handshake of a new session completes, and the session is
    connected. *)
Lemma X6_connect_run :
  exists status data ctx',
    serf_sectrans_encrypt_read 1 about_to_connect 16
    = Some (status, data, ctx')
    /\ state ctx' = SERF_SECTRANS_CONNECTED.
Proof.
  eexists _, _, _. split; [reflexivity|].
  apply (proj2 (X6_connected_exactly_when_handshake_returns_noErr
                  1 about_to_connect 16 _ _ _ eq_refl eq_refl)).
  eexists. reflexivity.
Defined.

(** X7: the server asks for a client certificate, which is not
    implemented. *)
Lemma X7_client_certificate_run :
  exists c1,
    serf_sectrans_encrypt_read 1 asked_for_client_certificate 16
    = Some (APR_ENOTIMPL, [], c1)
    /\ state c1 = SERF_SECTRANS_HANDSHAKE.
Proof.
  eexists.
  apply (X7_handshake_failures_are_fatal
           1 asked_for_client_certificate _ 16 errSSLClientCertRequested).
  - reflexivity.
  - discriminate.
  - discriminate.
  - reflexivity.
  - discriminate.
  - discriminate.
  - discriminate.
Defined.

(** X8: with three bytes of plaintext pending, a read for two bytes
    returns the first two without a call to SSLRead; with nothing
    pending, two calls to SSLRead decrypt the three bytes that arrive, and
    the read returns them. *)
Lemma X8_receiving_run :
  (exists status ctx',
      serf_sectrans_decrypt_read 3 2 receiving_with_pending 2
      = Some (status, [Byte.x6f; Byte.x6b], ctx')
      /\ exists k,
           st_calls (st_ctxr ctx')
           = [] ++ repeat (Call_SSLRead SECURE_TRANSPORT_READ_BUFSIZE) k
           /\ [Byte.x6f; Byte.x6b] ++ queue (pending (decrypt ctx'))
              = [Byte.x6f; Byte.x6b; Byte.x3f]
                ++ decrypted 3 k
                     (set_decrypt_pending receiving_with_pending
                        (stream_read
                           (pending (decrypt receiving_with_pending)) 2).2))
  /\ (exists status ctx',
         serf_sectrans_decrypt_read 3 2 receiving 10
         = Some (status, [Byte.x68; Byte.x69; Byte.x21], ctx')
         /\ decrypted 3 2 receiving = [Byte.x68; Byte.x69; Byte.x21]
         /\ exists k,
              st_calls (st_ctxr ctx')
              = [] ++ repeat (Call_SSLRead SECURE_TRANSPORT_READ_BUFSIZE) k
              /\ [Byte.x68; Byte.x69; Byte.x21]
                 ++ queue (pending (decrypt ctx'))
                 = [] ++ decrypted 3 k
                           (set_decrypt_pending receiving
                              (stream_read (pending (decrypt receiving))
                                 10).2)).
Proof.
  split.
  - eexists _, _. split; [reflexivity|].
    eapply (X8_decrypt_read_serves_plaintext_in_order
              3 2 receiving_with_pending 2).
    reflexivity.
  - eexists _, _. split; [reflexivity|]. split; [reflexivity|].
    eapply (X8_decrypt_read_serves_plaintext_in_order 3 2 receiving 10).
    reflexivity.
Defined.

Lemma X9_receiving_run :
  exists status data ctx',
    serf_sectrans_decrypt_read 3 2 receiving 10 = Some (status, data, ctx')
    /\ state ctx' = SERF_SECTRANS_CONNECTED
    /\ stream (encrypt ctx') = []
    /\ exists k,
         st_calls (st_ctxr ctx')
         = repeat (Call_SSLRead SECURE_TRANSPORT_READ_BUFSIZE) k.
Proof.
  eexists _, _, _. split; [reflexivity|].
  eapply (X9_decrypt_read_never_drives_the_handshake 3 2 receiving 10).
  reflexivity.
Defined.

Lemma X10_receiving_run :
  exists status data ctx',
    serf_sectrans_decrypt_read 3 2 receiving 10 = Some (status, data, ctx')
    /\ (status = APR_SUCCESS \/ status = APR_EAGAIN
        \/ (status = APR_EGENERAL /\ data = []))
    /\ status <> APR_EOF.
Proof.
  eexists _, _, _. split; [reflexivity|].
  eapply (X10_decrypt_read_never_reports_end_of_stream
            3 2 receiving 10).
  - split; reflexivity.
  - reflexivity.
Defined.

(** X11: four bytes are asked for and three arrive. *)
Lemma X11_three_of_four_run :
  exists ret data dl ctx',
    sectrans_read_cb 3 receiving 4 = Some (ret, data, dl, ctx')
    /\ blen data <= 4
    /\ dl = blen data
    /\ (ret = noErr -> blen data = 4).
Proof.
  eexists _, _, _, _. split; [reflexivity|].
  eapply (X11_read_callback_stays_within_the_buffer (B := script_bucket)
            script_read_bounded 3 receiving 4).
  - vm_compute. split; [discriminate|reflexivity].
  - reflexivity.
Defined.


(** X13: of the modes 1, 4 and 8, the modes 1 and 4 are known. *)
Lemma X13_unknown_mode_run :
  (set_allowed_cert_validation_modes asking_user 13).2 = 5.
Proof.
  pose proof (X13_allowed_modes_are_the_supported_ones_requested
                asking_user 13 (proj1 mock_modes_single_bit)
                (proj1 (proj2 mock_modes_single_bit))
                (proj2 (proj2 mock_modes_single_bit))) as H.
  destruct (set_allowed_cert_validation_modes asking_user 13)
    as [ctx' returned].
  destruct H as (H & _). exact H.
Defined.

(** X14: a trusted certificate fails when no mode is set. *)
Lemma X14_no_mode_run :
  validate_server_certificate nobody_decides
  = Some SERF_ERROR_SSL_CERT_FAILED.
Proof.
  apply (X14_validation_fails_without_a_deciding_party
           nobody_decides [7] (scripted [([], errSSLServerAuthCompleted)]
                                 kSecTrustResultProceed)
           kSecTrustResultProceed).
  - reflexivity.
  - reflexivity.
  - reflexivity.
  - reflexivity.
  - reflexivity.
  - left. reflexivity.
Defined.

(** X15: the application accepts a certificate that fails fatally. *)
Lemma X15_application_accepts_run :
  validate_server_certificate application_managed = Some APR_SUCCESS.
Proof.
  apply (X15_application_callback_decides_in_application_mode
           application_managed [7]
           (evaluating kSecTrustResultFatalTrustFailure 0)
           kSecTrustResultFatalTrustFailure accept_all).
  - discriminate.
  - discriminate.
  - discriminate.
  - reflexivity.
  - reflexivity.
  - reflexivity.
  - reflexivity.
  - reflexivity.
  - discriminate.
  - reflexivity.
Defined.

(** X16: a trusted certificate passes in the default mode. *)
Lemma X16_trusted_run :
  validate_server_certificate awaiting_evaluation = Some APR_SUCCESS.
Proof.
  apply (X16_serf_managed_verdict_ignores_the_callback mock_flags_separate
           awaiting_evaluation [7]
           (scripted [([], errSSLServerAuthCompleted)] kSecTrustResultProceed)
           kSecTrustResultProceed).
  - reflexivity.
  - reflexivity.
  - reflexivity.
  - right. discriminate.
  - reflexivity.
Defined.

(** X17: the user confirms the certificate. *)
Lemma X17_user_confirms_run :
  validate_server_certificate asking_user = Some APR_SUCCESS.
Proof.
  apply (X17_gui_answer_decides_recoverable_failures
           asking_user [7] (evaluating kSecTrustResultConfirm 1)
           kSecTrustResultConfirm).
  - discriminate.
  - reflexivity.
  - reflexivity.
  - reflexivity.
  - discriminate.
  - reflexivity.
Defined.

(** X18: the application confirms the certificate. *)
Lemma X18_application_confirms_run :
  validate_server_certificate confirmation_by_application
  = Some APR_SUCCESS.
Proof.
  assert (Hflag : @SERF_SSL_CERT_RECOVERABLE constants <> 0) by discriminate.
  exact (X18_recoverable_failures_without_gui_go_to_the_callback
           confirmation_by_application [7]
           (scripted [([], errSSLServerAuthCompleted)] kSecTrustResultConfirm)
           kSecTrustResultConfirm Hflag eq_refl eq_refl eq_refl eq_refl
           eq_refl eq_refl eq_refl).
Defined.

(** X19: the certificate that the user confirms passes because of that
    answer. *)
Lemma X19_user_confirms_run :
  Z.land (modes asking_user) serf_ssl_val_mode_serf_managed_with_gui <> 0
  /\ runModalForTrust (evaluating kSecTrustResultConfirm 1) <> 0.
Proof.
  destruct (X19_validation_succeeds_only_when_justified
              mock_errors_are_failures asking_user eq_refl)
    as (certs & trust & result & Hc & Ht & He & H).
  injection Ht as <-. injection He as <-.
  destruct H as [[H _]|[H|(callback & H & _)]].
  - discriminate H.
  - exact H.
  - discriminate H.
Defined.


(** X21: a memory holds the context of one session; the first bucket of
    another session is created and destroyed again, and the context of the
    first session is where and what it was. *)
Lemma X21_first_bucket_run :
  exists m1 bucket' a m2,
    decrypt_create one_context_memory blank_bucket [] None 0 uninitialised
    = Some (m1, bucket', a)
    /\ a <> 1%positive
    /\ contexts m1 !! 1%positive = Some connected_with_pending
    /\ is_Some (contexts m1 !! a)
    /\ serf_sectrans_decrypt_destroy_and_data m1 bucket' = Some m2
    /\ contexts m2 !! 1%positive = Some connected_with_pending
    /\ contexts m2 !! a = None.
Proof.
  destruct (create_new decrypt_create one_context_memory blank_bucket [] 0
              uninitialised _ (or_introl eq_refl) eq_refl)
    as (c1 & bucket' & Hcreate & Hdata & Hcount & _).
  destruct (proj1 (X21_bucket_operations_touch_only_their_own_context
                     one_context_memory _ blank_bucket)
              decrypt_create [] None 0 uninitialised _ _
              (or_introl eq_refl) Hcreate)
    as (Hother & _ & _ & Hsome & Hfree).
  cbv beta iota in Hfree.
  remember (fresh (dom (contexts one_context_memory))) as a eqn:Ha.
  assert (Hne : a <> 1%positive).
  { intros Heq. rewrite Heq in Hfree. vm_compute in Hfree. discriminate. }
  assert (Hl : contexts
                 (set_contexts one_context_memory
                    (<[a := c1]> (contexts one_context_memory))) !! a
               = Some c1) by apply lookup_insert_eq.
  pose proof (destroy_either serf_sectrans_decrypt_destroy_and_data _ _ _ _
                (or_intror eq_refl) Hdata Hl) as Hdestroy.
  rewrite Hcount in Hdestroy. change (1 - 1 =? 0) with true in Hdestroy.
  destruct (proj2 (X21_bucket_operations_touch_only_their_own_context
                     _ _ _)
              serf_sectrans_decrypt_destroy_and_data
              (or_intror eq_refl) Hdestroy)
    as (a' & c' & Hd' & _ & Hother' & _).
  rewrite Hdata in Hd'. injection Hd' as <-.
  eexists _, _, _, _. split; [exact Hcreate|]. split; [exact Hne|].
  split; [exact (eq_trans (Hother 1%positive (not_eq_sym Hne)) eq_refl)|].
  split; [exact Hsome|]. split; [exact Hdestroy|].
  split.
  - exact (eq_trans (Hother' 1%positive (not_eq_sym Hne))
             (eq_trans (Hother 1%positive (not_eq_sym Hne)) eq_refl)).
  - apply lookup_delete_eq.
Defined.
